(** * MelodyLingo: the AI client, the response interpreters and the
    state operations of the screens, embedded from the TypeScript sources.

    JavaScript strings are sequences of UTF-16 code units, and the
    regular expressions of the sources (no [u] flag) work on code units,
    so a string is a [list N] here.  Asynchronous functions are modelled
    by what their promise settles to: [Returned v] for a fulfilled
    promise, [Thrown e] for a rejected one. *)

From Stdlib Require Import ZArith NArith QArith Ascii String List Bool Lia.
From stdpp Require Import base option list gmap.

Local Open Scope N_scope.

(* ===================================================================== *)
(** * JavaScript strings *)
(* ===================================================================== *)

Module JsString.

(** A string value: its UTF-16 code units. *)
Definition jsstring : Type := list N.

(** Decoding of the UTF-8 bytes of a literal of this file into UTF-16
    code units (code points above U+FFFF become a surrogate pair). *)
Fixpoint utf16_of_utf8 (bs : list N) : jsstring :=
  match bs with
  | [] => []
  | b0 :: r0 =>
      if b0 <? 128 then b0 :: utf16_of_utf8 r0
      else if b0 <? 224 then
        match r0 with
        | b1 :: r1 => ((b0 - 192) * 64 + (b1 - 128)) :: utf16_of_utf8 r1
        | [] => []
        end
      else if b0 <? 240 then
        match r0 with
        | b1 :: b2 :: r2 =>
            ((b0 - 224) * 4096 + (b1 - 128) * 64 + (b2 - 128)) :: utf16_of_utf8 r2
        | _ => []
        end
      else
        match r0 with
        | b1 :: b2 :: b3 :: r3 =>
            let cp := (b0 - 240) * 262144 + (b1 - 128) * 4096
                      + (b2 - 128) * 64 + (b3 - 128) - 65536 in
            (55296 + cp / 1024) :: (56320 + cp mod 1024) :: utf16_of_utf8 r3
        | _ => []
        end
  end.

(** A string literal of the sources. *)
Definition js (s : string) : jsstring :=
  utf16_of_utf8 (map N_of_ascii (list_ascii_of_string s)).

(** The code unit of an ASCII character. *)
Definition cu (a : ascii) : N := N_of_ascii a.

Definition eqb (a b : jsstring) : bool := bool_decide (a = b).

(** Truthiness of a string: every string but the empty one. *)
Definition truthy (s : jsstring) : bool :=
  match s with [] => false | _ :: _ => true end.

(** Truthiness of [string | undefined]. *)
Definition truthy_opt (s : option jsstring) : bool :=
  match s with Some s => truthy s | None => false end.

(** [a || b] on [string | undefined] with a string default. *)
Definition or_else (a : option jsstring) (b : jsstring) : jsstring :=
  match a with
  | Some s => if truthy s then s else b
  | None => b
  end.

(** WhiteSpace and LineTerminator code units: what [\s] matches and what
    [trim] strips. *)
Definition is_space (c : N) : bool :=
  (9 <=? c) && (c <=? 13) || (c =? 32) || (c =? 160) || (c =? 5760)
  || (8192 <=? c) && (c <=? 8202) || (c =? 8232) || (c =? 8233)
  || (c =? 8239) || (c =? 8287) || (c =? 12288) || (c =? 65279).

Fixpoint trimStart (s : jsstring) : jsstring :=
  match s with
  | c :: s' => if is_space c then trimStart s' else s
  | [] => []
  end.

Definition trimEnd (s : jsstring) : jsstring := rev (trimStart (rev s)).

Definition trim (s : jsstring) : jsstring := trimEnd (trimStart s).

(** [toLowerCase] and [toUpperCase] restricted to the ASCII letters; the
    other code units are left as they are. *)
Definition lower_cu (c : N) : N :=
  if (65 <=? c) && (c <=? 90) then c + 32 else c.

Definition upper_cu (c : N) : N :=
  if (97 <=? c) && (c <=? 122) then c - 32 else c.

Definition toLowerCase_ascii (s : jsstring) : jsstring := map lower_cu s.

Definition is_digit (c : N) : bool := (48 <=? c) && (c <=? 57).

(** Decimal digits of a natural number, most significant first
    ([fuel] bounds the number of digits). *)
Fixpoint digits_fuel (fuel : nat) (n : N) (acc : jsstring) : jsstring :=
  match fuel with
  | O => acc
  | S fuel' =>
      let acc' := (48 + n mod 10) :: acc in
      if n <? 10 then acc' else digits_fuel fuel' (n / 10) acc'
  end.

Definition digits (n : N) : jsstring := digits_fuel (S (N.to_nat (N.log2 n))) n [].

(** [Number.prototype.toString] on an integer. *)
Definition Z_toString (z : Z) : jsstring :=
  match z with
  | Z0 => [48]
  | Zpos p => digits (Npos p)
  | Zneg p => 45 :: digits (Npos p)
  end.

(** The value of a sequence of decimal digits. *)
Definition digits_value (ds : jsstring) : N :=
  fold_left (fun acc d => acc * 10 + (d - 48)) ds 0.

End JsString.
Export JsString.

(* ===================================================================== *)
(** * Numbers and settled promises *)
(* ===================================================================== *)

(** The numbers the quiz code computes with: integers, and [NaN] (what
    [parseInt] gives without a digit).  Integers are exact here; the
    rounding of doubles above 2^53 is not modelled. *)
Inductive number : Type :=
| Num (z : Z)
| NaN.

(** [a >= b] *)
Definition num_geb (a b : number) : bool :=
  match a, b with
  | Num x, Num y => (y <=? x)%Z
  | _, _ => false
  end.

(** [a < b] *)
Definition num_ltb (a b : number) : bool :=
  match a, b with
  | Num x, Num y => (x <? y)%Z
  | _, _ => false
  end.

(** A thrown value, as far as the handlers look at it: [error?.message]
    and [error?.toString()]. *)
Record JsError : Type := mkJsError {
  err_message : option jsstring;
  err_toString : option jsstring
}.

(** What an awaited call settles to. *)
Inductive Exc (A : Type) : Type :=
| Returned (a : A)
| Thrown (e : JsError).
Arguments Returned {A} a.
Arguments Thrown {A} e.

(** [error?.message || error?.toString() || 'Unknown error'] *)
Definition errorMessage (e : JsError) : jsstring :=
  or_else (err_message e) (or_else (err_toString e) (js "Unknown error")).

(* ===================================================================== *)
(** * Regular expressions: the backtracking matcher of [String.match] *)
(* ===================================================================== *)

Module Regex.

(** The fragment of the pattern syntax the sources use. *)
Inductive regex : Type :=
| RChar (p : N -> bool)          (* a class or a single character *)
| RSeq (r1 r2 : regex)
| RStar (r : regex)              (* greedy [*] *)
| RGroup (i : nat) (r : regex)   (* capturing parentheses *)
| REmpty.

(** Captures, latest first. *)
Definition captures : Type := list (nat * jsstring).

Definition cont : Type := jsstring -> captures -> option (jsstring * captures).

(** The iterations of a greedy star whose body is matched by [step]: one
    more iteration is tried first, and an iteration that consumes nothing
    is refused.  [n] bounds the iterations by the length of the input. *)
Fixpoint star_loop (step : jsstring -> captures -> cont -> option (jsstring * captures))
    (k : cont) (n : nat) (s : jsstring) (caps : captures) {struct n}
  : option (jsstring * captures) :=
  match n with
  | O => k s caps
  | S n' =>
      match step s caps
              (fun s1 caps1 =>
                 if (length s1 <? length s)%nat then star_loop step k n' s1 caps1
                 else None) with
      | Some res => Some res
      | None => k s caps
      end
  end.

(** Backtracking matcher in continuation style: [m r s caps k] matches
    [r] at the head of [s] and hands what is left of [s] to [k]; when [k]
    fails the next alternative is tried. *)
Fixpoint m (r : regex) : jsstring -> captures -> cont -> option (jsstring * captures) :=
  match r with
  | RChar p => fun s caps k =>
      match s with
      | c :: s' => if p c then k s' caps else None
      | [] => None
      end
  | RSeq r1 r2 => fun s caps k =>
      m r1 s caps (fun s1 caps1 => m r2 s1 caps1 k)
  | RStar r' => fun s caps k => star_loop (m r') k (length s) s caps
  | RGroup i r' => fun s caps k =>
      m r' s caps
        (fun s1 caps1 => k s1 ((i, take (length s - length s1)%nat s) :: caps1))
  | REmpty => fun s caps k => k s caps
  end.

(** The result of a successful match: [match.index], [match[0]] and the
    groups. *)
Record match_result : Type := mkMatch {
  index : nat;
  matched : jsstring;
  groups : captures
}.

(** [match[i]] for a group that took part in the match. *)
Definition group (i : nat) (mr : match_result) : jsstring :=
  match find (fun p => Nat.eqb (fst p) i) (groups mr) with
  | Some p => snd p
  | None => []
  end.

(** Leftmost match: the start positions are tried from [idx] on. *)
Fixpoint search (r : regex) (s : jsstring) (idx : nat) : option match_result :=
  match m r s [] (fun s1 caps1 => Some (s1, caps1)) with
  | Some (s1, caps1) =>
      Some (mkMatch idx (take (length s - length s1)%nat s) caps1)
  | None =>
      match s with
      | [] => None
      | _ :: s' => search r s' (S idx)
      end
  end.

(** [text.match(r)] for a pattern without the [g] flag. *)
Definition js_match (r : regex) (text : jsstring) : option match_result :=
  search r text 0.

(** Pattern pieces. *)
Definition chr (a : ascii) : regex := RChar (N.eqb (cu a)).

(** A pattern character under the [i] flag: the two ASCII cases of a
    letter (no code unit above 127 canonicalizes to an ASCII one). *)
Definition chr_i (a : ascii) : regex :=
  RChar (fun c => upper_cu c =? upper_cu (cu a)).

Fixpoint seq (rs : list regex) : regex :=
  match rs with
  | [] => REmpty
  | [r] => r
  | r :: rs' => RSeq r (seq rs')
  end.

Definition lit_i (s : string) : regex := seq (map chr_i (list_ascii_of_string s)).

Definition plus (r : regex) : regex := RSeq r (RStar r).

(** [\s], [\d], [\s\S] in brackets, [.] and a negated single character. *)
Definition cls_s : N -> bool := is_space.
Definition cls_d : N -> bool := is_digit.
Definition cls_sS : N -> bool := fun c => is_space c || negb (is_space c).
Definition cls_dot : N -> bool :=
  fun c => negb ((c =? 10) || (c =? 13) || (c =? 8232) || (c =? 8233)).
Definition cls_not (x : N) : N -> bool := fun c => negb (c =? x).

End Regex.
Export Regex.

(* ===================================================================== *)
(** * JSON values, [JSON.stringify] and [JSON.parse] *)
(* ===================================================================== *)

Module JSON.

(** The values the application stores and receives.  A number literal
    with a fraction or an exponent is kept as its literal ([JReal]); the
    integers are [JNum].  The members of an object are in property
    order.

    The punctuation of a JSON text as code units: 34 the double quote,
    44 the comma, 58 the colon, 91 and 93 the square brackets, 92 the
    backslash, 123 and 125 the braces. *)
#[warnings="-register-all"]
Inductive value : Type :=
| JNull
| JBool (b : bool)
| JNum (z : Z)
| JReal (literal : jsstring)
| JStr (s : jsstring)
| JArr (vs : list value)
| JObj (ms : list (jsstring * value)).

(** ** Serialization *)

Definition hex_digit (d : N) : N := if d <? 10 then 48 + d else 87 + d.

(** [\uXXXX] with lowercase digits. *)
Definition escape_u (c : N) : jsstring :=
  [92; 117; hex_digit (c / 4096); hex_digit ((c / 256) mod 16);
   hex_digit ((c / 16) mod 16); hex_digit (c mod 16)].

Definition is_high_surrogate (c : N) : bool := (55296 <=? c) && (c <=? 56319).
Definition is_low_surrogate (c : N) : bool := (56320 <=? c) && (c <=? 57343).

(** One code unit that is not a surrogate, as QuoteJSONString writes it. *)
Definition quote_cu (c : N) : jsstring :=
  if c =? 34 then [92; 34]
  else if c =? 92 then [92; 92]
  else if c =? 8 then [92; 98]
  else if c =? 12 then [92; 102]
  else if c =? 10 then [92; 110]
  else if c =? 13 then [92; 114]
  else if c =? 9 then [92; 116]
  else if c <? 32 then escape_u c
  else [c].

(** A surrogate pair is written as it is, a lone surrogate is escaped. *)
Fixpoint quote_chars (s : jsstring) : jsstring :=
  match s with
  | [] => []
  | c :: s' =>
      if is_high_surrogate c then
        match s' with
        | d :: s'' =>
            if is_low_surrogate d then c :: d :: quote_chars s''
            else escape_u c ++ quote_chars s'
        | [] => escape_u c
        end
      else if is_low_surrogate c then escape_u c ++ quote_chars s'
      else quote_cu c ++ quote_chars s'
  end.

Definition quote (s : jsstring) : jsstring := 34 :: quote_chars s ++ [34].

(** [JSON.stringify(v)] without indentation.  A [JReal] is printed as the
    literal it was read from. *)
Fixpoint stringify (v : value) : jsstring :=
  match v with
  | JNull => js "null"
  | JBool true => js "true"
  | JBool false => js "false"
  | JNum z => Z_toString z
  | JReal l => l
  | JStr s => quote s
  | JArr vs =>
      91 :: (fix elements (vs : list value) : jsstring :=
               match vs with
               | [] => []
               | [v] => stringify v
               | v :: vs' => stringify v ++ 44 :: elements vs'
               end) vs ++ [93]
  | JObj ms =>
      123 :: (fix members (ms : list (jsstring * value)) : jsstring :=
                match ms with
                | [] => []
                | [(k, v)] => quote k ++ 58 :: stringify v
                | (k, v) :: ms' => quote k ++ 58 :: stringify v ++ 44 :: members ms'
                end) ms ++ [125]
  end.

(** ** Parsing *)

Definition is_json_ws (c : N) : bool :=
  (c =? 32) || (c =? 9) || (c =? 10) || (c =? 13).

Fixpoint skip_ws (s : jsstring) : jsstring :=
  match s with
  | c :: s' => if is_json_ws c then skip_ws s' else s
  | [] => []
  end.

Definition hex_value (c : N) : option N :=
  if is_digit c then Some (c - 48)
  else if (97 <=? c) && (c <=? 102) then Some (c - 87)
  else if (65 <=? c) && (c <=? 70) then Some (c - 55)
  else None.

Definition hex4 (h1 h2 h3 h4 : N) : option N :=
  match hex_value h1, hex_value h2, hex_value h3, hex_value h4 with
  | Some a, Some b, Some c, Some d => Some (a * 4096 + b * 256 + c * 16 + d)
  | _, _, _, _ => None
  end.

(** The character a one-letter escape stands for. *)
Definition unescape (e : N) : option N :=
  if e =? 34 then Some 34
  else if e =? 92 then Some 92
  else if e =? 47 then Some 47
  else if e =? 98 then Some 8
  else if e =? 102 then Some 12
  else if e =? 110 then Some 10
  else if e =? 114 then Some 13
  else if e =? 116 then Some 9
  else None.

Definition cons_char (c : N) (r : option (jsstring * jsstring)) : option (jsstring * jsstring) :=
  match r with
  | Some (s, rest) => Some (c :: s, rest)
  | None => None
  end.

(** The characters of a string literal after its opening quote, up to and
    with the closing quote. *)
Fixpoint parse_chars (s : jsstring) : option (jsstring * jsstring) :=
  match s with
  | [] => None
  | c :: s' =>
      if c =? 34 then Some ([], s')
      else if c =? 92 then
        match s' with
        | e :: s'' =>
            if e =? 117 then
              match s'' with
              | h1 :: h2 :: h3 :: h4 :: s3 =>
                  match hex4 h1 h2 h3 h4 with
                  | Some u => cons_char u (parse_chars s3)
                  | None => None
                  end
              | _ => None
              end
            else
              match unescape e with
              | Some u => cons_char u (parse_chars s'')
              | None => None
              end
        | [] => None
        end
      else if c <? 32 then None
      else cons_char c (parse_chars s')
  end.

(** The longest prefix of digits and what follows it. *)
Fixpoint span_digits (s : jsstring) : jsstring * jsstring :=
  match s with
  | c :: s' =>
      if is_digit c then let (ds, rest) := span_digits s' in (c :: ds, rest)
      else ([], s)
  | [] => ([], [])
  end.

(** A number literal: an optional minus sign, an integer part without a
    leading zero (or a single zero), an optional fraction (a dot and at
    least one digit) and an optional exponent. *)
Definition parse_number (s : jsstring) : option (value * jsstring) :=
  let (neg, s1) := match s with
                   | c :: r => if c =? 45 then (true, r) else (false, s)
                   | [] => (false, s)
                   end in
  let (ds, s2) := span_digits s1 in
  match ds with
  | [] => None
  | d :: ds' =>
      if (d =? 48) && match ds' with [] => false | _ :: _ => true end then None
      else
        let after_frac :=
          match s2 with
          | c :: r =>
              if c =? 46 then
                let (fs, r') := span_digits r in
                match fs with [] => None | _ :: _ => Some (true, r') end
              else Some (false, s2)
          | [] => Some (false, s2)
          end in
        match after_frac with
        | None => None
        | Some (has_frac, s3) =>
            let after_exp :=
              match s3 with
              | c :: r =>
                  if (c =? 101) || (c =? 69) then
                    let r1 := match r with
                              | g :: r' => if (g =? 43) || (g =? 45) then r' else r
                              | [] => r
                              end in
                    let (es, r2) := span_digits r1 in
                    match es with [] => None | _ :: _ => Some (true, r2) end
                  else Some (false, s3)
              | [] => Some (false, s3)
              end in
            match after_exp with
            | None => None
            | Some (has_exp, s4) =>
                if has_frac || has_exp
                then Some (JReal (take (length s - length s4)%nat s), s4)
                else Some (JNum (if neg then - Z.of_N (digits_value ds)
                                 else Z.of_N (digits_value ds))%Z, s4)
            end
        end
  end.

(** [s] after the keyword [kw], when [s] starts with it. *)
Fixpoint expect (kw s : jsstring) : option jsstring :=
  match kw with
  | [] => Some s
  | k :: kw' =>
      match s with
      | c :: s' => if c =? k then expect kw' s' else None
      | [] => None
      end
  end.

(** A property set twice keeps its place and takes the later value. *)
Fixpoint obj_set (k : jsstring) (v : value) (ms : list (jsstring * value))
  : list (jsstring * value) :=
  match ms with
  | [] => [(k, v)]
  | (k', v') :: ms' =>
      if JsString.eqb k k' then (k, v) :: ms' else (k', v') :: obj_set k v ms'
  end.

Definition obj_of_members (ms : list (jsstring * value)) : list (jsstring * value) :=
  fold_left (fun acc kv => obj_set (fst kv) (snd kv) acc) ms [].

(** The text starts with the closing bracket [c]. *)
Definition closes (c : N) (s : jsstring) : bool :=
  match s with
  | x :: _ => x =? c
  | [] => false
  end.

(** Recursive descent; [fuel] bounds the depth of the calls (every call
    reads at least one character before the next one, so twice the
    length of the text is enough). *)
Fixpoint parse_value (fuel : nat) (s : jsstring) {struct fuel}
  : option (value * jsstring) :=
  match fuel with
  | O => None
  | S fuel' =>
      match skip_ws s with
      | [] => None
      | c :: r =>
          if c =? 123 then
            if closes 125 (skip_ws r) then Some (JObj [], tail (skip_ws r))
            else
              match parse_members fuel' r with
              | Some (ms, r') => Some (JObj (obj_of_members ms), r')
              | None => None
              end
          else if c =? 91 then
            if closes 93 (skip_ws r) then Some (JArr [], tail (skip_ws r))
            else
              match parse_elements fuel' r with
              | Some (vs, r') => Some (JArr vs, r')
              | None => None
              end
          else if c =? 34 then
            match parse_chars r with
            | Some (str, r') => Some (JStr str, r')
            | None => None
            end
          else if c =? 116 then
            match expect (js "rue") r with
            | Some r' => Some (JBool true, r') | None => None end
          else if c =? 102 then
            match expect (js "alse") r with
            | Some r' => Some (JBool false, r') | None => None end
          else if c =? 110 then
            match expect (js "ull") r with
            | Some r' => Some (JNull, r') | None => None end
          else parse_number (c :: r)
      end
  end
with parse_elements (fuel : nat) (s : jsstring) {struct fuel}
  : option (list value * jsstring) :=
  match fuel with
  | O => None
  | S fuel' =>
      match parse_value fuel' s with
      | Some (v, r) =>
          match skip_ws r with
          | c :: r' =>
              if c =? 44 then
                match parse_elements fuel' r' with
                | Some (vs, r'') => Some (v :: vs, r'')
                | None => None
                end
              else if c =? 93 then Some ([v], r')
              else None
          | [] => None
          end
      | None => None
      end
  end
with parse_members (fuel : nat) (s : jsstring) {struct fuel}
  : option (list (jsstring * value) * jsstring) :=
  match fuel with
  | O => None
  | S fuel' =>
      match skip_ws s with
      | q :: r0 =>
          if q =? 34 then
            match parse_chars r0 with
            | Some (k, r1) =>
                match skip_ws r1 with
                | colon :: r2 =>
                    if colon =? 58 then
                      match parse_value fuel' r2 with
                      | Some (v, r3) =>
                          match skip_ws r3 with
                          | c :: r4 =>
                              if c =? 44 then
                                match parse_members fuel' r4 with
                                | Some (ms, r5) => Some ((k, v) :: ms, r5)
                                | None => None
                                end
                              else if c =? 125 then Some ([(k, v)], r4)
                              else None
                          | [] => None
                          end
                      | None => None
                      end
                    else None
                | [] => None
                end
            | None => None
            end
          else None
      | [] => None
      end
  end.

Definition SyntaxError : JsError :=
  mkJsError (Some (js "JSON Parse error")) (Some (js "SyntaxError: JSON Parse error")).

(** [JSON.parse(text)]: a value, or a thrown SyntaxError. *)
Definition parse (text : jsstring) : Exc value :=
  match parse_value (2 * length text + 2) text with
  | Some (v, rest) =>
      match skip_ws rest with
      | [] => Returned v
      | _ :: _ => Thrown SyntaxError
      end
  | None => Thrown SyntaxError
  end.

End JSON.
Export JSON.

(* ===================================================================== *)
(** * Effects: a state that survives a throw *)
(* ===================================================================== *)

(** A computation over a state [St] that returns or throws; what was done
    to the state before a throw stays done.  The gateway runs in it with
    the log of the provider requests as state, the practice screen with
    its component state. *)
Definition M (St A : Type) : Type := St -> Exc A * St.

Definition ret {St A} (a : A) : M St A := fun st => (Returned a, st).

Definition throw {St A} (e : JsError) : M St A := fun st => (Thrown e, st).

Definition bind {St A B} (c : M St A) (f : A -> M St B) : M St B :=
  fun st =>
    match c st with
    | (Returned a, st') => f a st'
    | (Thrown e, st') => (Thrown e, st')
    end.

(** [try { c } catch (error) { h error }] *)
Definition try_catch {St A} (c : M St A) (h : JsError -> M St A) : M St A :=
  fun st =>
    match c st with
    | (Returned a, st') => (Returned a, st')
    | (Thrown e, st') => h e st'
    end.

(** [try { c } finally { f }] for an [f] that does not throw. *)
Definition finally {St A} (c : M St A) (f : St -> St) : M St A :=
  fun st => let (r, st') := c st in (r, f st').

Definition lift {St A} (r : Exc A) : M St A := fun st => (r, st).

Definition modify {St} (f : St -> St) : M St unit := fun st => (Returned tt, f st).

Declare Scope m_scope.
Delimit Scope m_scope with M.
Notation "x <- c ;; k" := (bind c (fun x => k))
  (at level 100, c at next level, right associativity) : m_scope.
Notation "c ;;; k" := (bind c (fun _ => k))
  (at level 100, right associativity) : m_scope.

(* ===================================================================== *)
(** * types/index.ts *)
(* ===================================================================== *)

Record Word : Type := mkWord {
  word_id : jsstring;
  word_word : jsstring;
  word_meaning : jsstring;
  word_example : jsstring;
  word_exampleZh : jsstring;
  word_level : jsstring;
  word_isMastered : bool;
  word_createdAt : Z
}.

Record Source : Type := mkSource {
  source_id : jsstring;
  source_wordId : jsstring;
  source_songTitle : jsstring;
  source_artist : jsstring;
  source_lyricSentence : jsstring;
  source_lyricSentenceEn : jsstring;
  source_lyricTranslated : jsstring;
  source_replaceWord : jsstring
}.

Record Song : Type := mkSong {
  song_id : jsstring;
  song_title : jsstring;
  song_artist : jsstring;
  song_language : jsstring;
  song_lyrics : jsstring;
  song_status : jsstring;
  song_createdAt : Z
}.

Inductive ErrorType : Type := E4choice | Efill | Etranslate.

Record WrongAnswer : Type := mkWrongAnswer {
  wa_id : jsstring;
  wa_wordId : jsstring;
  wa_word : jsstring;
  wa_meaning : jsstring;
  wa_userAnswer : jsstring;
  wa_correctAnswer : jsstring;
  wa_sentence : jsstring;
  wa_sentenceEn : jsstring;
  wa_score : number;
  wa_feedback : jsstring;
  wa_songTitle : jsstring;
  wa_createdAt : Z;
  wa_errorType : ErrorType
}.

(** [apiProvider] and [aiStyle] are declared as unions of string literals;
    a settings object read back from storage is not checked against them,
    so they are strings here. *)
Record UserSettings : Type := mkUserSettings {
  apiProvider : jsstring;
  nvidiaApiKey : jsstring;
  geminiApiKey : jsstring;
  opencodeApiKey : jsstring;
  nvidiaModel : jsstring;
  geminiModel : jsstring;
  opencodeModel : jsstring;
  aiStyle : jsstring
}.

Definition DEFAULT_SETTINGS : UserSettings :=
  {| apiProvider := js "gemini";
     nvidiaApiKey := js "";
     geminiApiKey := js "";
     opencodeApiKey := js "";
     nvidiaModel := js "moonshotai/kimi-k2.5";
     geminiModel := js "gemini-2.5-flash-lite";
     opencodeModel := js "big-pickle";
     aiStyle := js "lyric" |}.

(* ===================================================================== *)
(** * services/aiClient.ts *)
(* ===================================================================== *)

Module AiClient.

Record AIResponse : Type := mkAIResponse {
  text : jsstring;
  error : option jsstring
}.

Record AIOptions : Type := mkAIOptions {
  temperature : option Q;
  maxTokens : option Z;
  systemPrompt : option jsstring
}.

(** [options = {}] *)
Definition no_options : AIOptions := mkAIOptions None None None.

Inductive Role : Type := system | user.

Record Message : Type := mkMessage { role : Role; content : jsstring }.

(** The two requests the provider clients send. *)
Inductive Request : Type :=
| GenerateContent (apiKey model prompt : jsstring)
| ChatCompletionsCreate (baseURL apiKey model : jsstring)
    (messages : list Message) (temperature : Q) (max_tokens : Z).

(** The remote providers: what a request of a client built by
    [createGeminiClient], [createNvidiaClient] or [createOpenCodeClient]
    settles to.  A Gemini request gives [result.response.text()], a chat
    request gives [completion.choices[0]?.message?.content]. *)
Record Network : Type := mkNetwork {
  generateContent : jsstring -> jsstring -> jsstring -> Exc jsstring;
  chatCompletionsCreate :
    jsstring -> jsstring -> jsstring -> list Message -> Q -> Z -> Exc (option jsstring)
}.

Definition nvidia_baseURL : jsstring := js "https://integrate.api.nvidia.com/v1".
Definition opencode_baseURL : jsstring := js "https://opencode.ai/zen/v1".

Section Gateway.
Variable net : Network.

(** A request is logged when it is issued. *)
Definition gemini_request (apiKey model prompt : jsstring) : M (list Request) jsstring :=
  fun log => (generateContent net apiKey model prompt,
              log ++ [GenerateContent apiKey model prompt]).

Definition chat_request (baseURL apiKey model : jsstring) (messages : list Message)
    (temp : Q) (max_tokens : Z) : M (list Request) (option jsstring) :=
  fun log => (chatCompletionsCreate net baseURL apiKey model messages temp max_tokens,
              log ++ [ChatCompletionsCreate baseURL apiKey model messages temp max_tokens]).

Definition chat_messages (systemPrompt : option jsstring) (prompt : jsstring) : list Message :=
  if truthy_opt systemPrompt
  then [mkMessage system (default [] systemPrompt); mkMessage user prompt]
  else [mkMessage user prompt].

Definition is_provider (apiProvider : option jsstring) (name : string) : bool :=
  bool_decide (apiProvider = Some (js name)).

(** The body of the [try] of [callAI]. *)
Definition callAI_try (prompt : jsstring) (settings : option UserSettings)
    (options : AIOptions) : M (list Request) AIResponse :=
  let temperature := default (3 # 10)%Q (temperature options) in
  let maxTokens := default 4096%Z (maxTokens options) in
  let systemPrompt := systemPrompt options in
  let apiProvider := apiProvider <$> settings in
  let geminiApiKey := geminiApiKey <$> settings in
  let nvidiaApiKey := nvidiaApiKey <$> settings in
  let opencodeApiKey := opencodeApiKey <$> settings in
  let nvidiaModel := nvidiaModel <$> settings in
  let geminiModel := geminiModel <$> settings in
  let opencodeModel := opencodeModel <$> settings in
  (if negb (truthy_opt apiProvider) || is_provider apiProvider "gemini" then
     let apiKey := or_else geminiApiKey (js "") in
     let modelName := or_else geminiModel (js "gemini-2.5-flash-lite") in
     response <- gemini_request apiKey modelName prompt ;;
     ret (mkAIResponse response None)
   else if is_provider apiProvider "nvidia" then
     let apiKey := or_else nvidiaApiKey (js "") in
     let modelName := or_else nvidiaModel (js "moonshotai/kimi-k2.5") in
     if negb (truthy apiKey) then
       ret (mkAIResponse (js "") (Some (js "NVIDIA API key is missing")))
     else
       let messages := chat_messages systemPrompt prompt in
       completion <- chat_request nvidia_baseURL apiKey modelName messages
                       temperature maxTokens ;;
       let response := or_else completion (js "") in
       ret (mkAIResponse response None)
   else if is_provider apiProvider "opencode" then
     let apiKey := or_else opencodeApiKey (js "") in
     let modelName := or_else opencodeModel (js "big-pickle") in
     if negb (truthy apiKey) then
       ret (mkAIResponse (js "") (Some (js "OpenCode API key is missing")))
     else
       let messages := chat_messages systemPrompt prompt in
       completion <- chat_request opencode_baseURL apiKey modelName messages
                       temperature maxTokens ;;
       let response := or_else completion (js "") in
       ret (mkAIResponse response None)
   else
     ret (mkAIResponse (js "") (Some (js "Unknown API provider"))))%M.

(** The [catch] of [callAI]. *)
Definition callAI_catch (error : JsError) : M (list Request) AIResponse :=
  let errorMessage := errorMessage error in
  ret (mkAIResponse (js "") (Some (js "API请求失败: " ++ errorMessage))).

Definition callAI (prompt : jsstring) (settings : option UserSettings)
    (options : AIOptions) : M (list Request) AIResponse :=
  try_catch (callAI_try prompt settings options) callAI_catch.

End Gateway.

End AiClient.
Export AiClient.

(* ===================================================================== *)
(** * services/gemini.ts *)
(* ===================================================================== *)

Module Gemini.

(** ** The patterns *)

(** [/\[[\s\S]*\]/] *)
Definition array_re : regex := seq [chr "["; RStar (RChar cls_sS); chr "]"].

(** [/\{[\s\S]*\}/] *)
Definition object_re : regex := seq [chr "{"; RStar (RChar cls_sS); chr "}"].

Definition dquote : N := 34.

(** [/Score:\s*(\d+)\s*\/\s*100/i] *)
Definition score_re : regex :=
  seq [lit_i "Score:"; RStar (RChar cls_s); RGroup 1 (plus (RChar cls_d));
       RStar (RChar cls_s); chr_i "/"; RStar (RChar cls_s); lit_i "100"].

(** [/Correct:\s*QUOTE([^QUOTE]+)QUOTE/i], QUOTE being the double quote. *)
Definition correct_re : regex :=
  seq [lit_i "Correct:"; RStar (RChar cls_s); RChar (N.eqb dquote);
       RGroup 1 (plus (RChar (cls_not dquote))); RChar (N.eqb dquote)].

(** [/Reason:\s*(.+)/i] *)
Definition reason_re : regex :=
  seq [lit_i "Reason:"; RStar (RChar cls_s); RGroup 1 (plus (RChar cls_dot))].

(** ** [parseInt(s, 10)] *)

Definition parseInt10 (s : jsstring) : number :=
  let s1 := trimStart s in
  let (neg, s2) := match s1 with
                   | c :: r => if c =? 45 then (true, r)
                               else if c =? 43 then (false, r)
                               else (false, s1)
                   | [] => (false, s1)
                   end in
  match fst (span_digits s2) with
  | [] => NaN
  | ds => Num (if neg then - Z.of_N (digits_value ds) else Z.of_N (digits_value ds))%Z
  end.

(** ** extractVocabulary *)

Record VocabularyResult : Type := mkVocabularyResult {
  words : list value;
  vocab_error : option jsstring
}.

(** Lines 85-92: the slice of the completion between the first opening
    and the last closing square bracket, parsed. *)
Definition extractVocabulary_parse (text : jsstring) : Exc VocabularyResult :=
  match js_match array_re text with
  | None => Returned (mkVocabularyResult [] None)
  | Some jsonMatch =>
      match JSON.parse (matched jsonMatch) with
      | Returned words =>
          Returned (mkVocabularyResult
                      (match words with JArr vs => vs | _ => [] end) None)
      | Thrown e => Thrown e
      end
  end.

(** Lines 81-92, after the gateway has answered. *)
Definition extractVocabulary_try (r : AIResponse) : Exc VocabularyResult :=
  if truthy_opt (error r) || negb (truthy (text r)) then
    Returned (mkVocabularyResult [] (error r))
  else extractVocabulary_parse (text r).

Definition extractVocabulary_catch (error : JsError) : VocabularyResult :=
  mkVocabularyResult [] (Some (js "API请求失败: " ++ errorMessage error)).

(** What [extractVocabulary] makes of the gateway's answer. *)
Definition extractVocabulary_interpret (r : AIResponse) : VocabularyResult :=
  match extractVocabulary_try r with
  | Returned res => res
  | Thrown e => extractVocabulary_catch e
  end.

(** ** evaluateAnswer *)

(** An evaluation as a JavaScript object: [evaluateAnswer] hands the
    parsed object on as it is. *)
Definition evaluation_object (isCorrect : bool) (score : Z) (feedback : jsstring)
  : value :=
  JObj [(js "isCorrect", JBool isCorrect); (js "score", JNum score);
        (js "feedback", JStr feedback)].

(** Lines 176-181. *)
Definition evaluateAnswer_parse (text : jsstring) : Exc value :=
  match js_match object_re text with
  | None => Returned (evaluation_object false 0 (js "无法评估答案"))
  | Some jsonMatch => JSON.parse (matched jsonMatch)
  end.

(** Lines 172-181, after the gateway has answered. *)
Definition evaluateAnswer_try (r : AIResponse) : Exc value :=
  if truthy_opt (error r) then
    Returned (evaluation_object false 0 (default [] (error r)))
  else evaluateAnswer_parse (text r).

Definition evaluateAnswer_catch (error : JsError) : value :=
  let errorMessage := errorMessage error in
  JObj [(js "isCorrect", JBool false); (js "score", JNum 0);
        (js "feedback", JStr (js "评估出错: " ++ errorMessage));
        (js "error", JStr (js "API请求失败: " ++ errorMessage))].

Definition evaluateAnswer_interpret (r : AIResponse) : value :=
  match evaluateAnswer_try r with
  | Returned res => res
  | Thrown e => evaluateAnswer_catch e
  end.

(** ** parseTranslationResponse *)

Record TranslationEvaluation : Type := mkTranslationEvaluation {
  isCorrect : bool;
  score : number;
  correctAnswer : jsstring;
  feedback : jsstring
}.

(** The body of the [try]: on a string none of its steps throws. *)
Definition parseTranslationResponse_try (response userAnswer : jsstring)
  : Exc TranslationEvaluation :=
  let scoreMatch := js_match score_re response in
  let correctMatch := js_match correct_re response in
  let reasonMatch := js_match reason_re response in
  let score := match scoreMatch with
               | Some mr => parseInt10 (group 1 mr)
               | None => Num 0
               end in
  let correctAnswer := match correctMatch with
                       | Some mr => group 1 mr
                       | None => js ""
                       end in
  let feedback := match reasonMatch with
                  | Some mr => trim (group 1 mr)
                  | None => js "无法评估答案"
                  end in
  Returned (mkTranslationEvaluation (num_geb score (Num 70)) score correctAnswer feedback).

Definition parseTranslationResponse (response userAnswer : jsstring)
  : TranslationEvaluation :=
  match parseTranslationResponse_try response userAnswer with
  | Returned res => res
  | Thrown _ => mkTranslationEvaluation false (Num 0) (js "") (js "无法解析评估结果")
  end.

(** ** The functions with their gateway call *)

Section Calls.
Variable net : Network.
(** The prompt templates, by their parameters. *)
Variable getSystemPrompt : jsstring -> jsstring.
Variable answerPrompt : jsstring -> jsstring -> jsstring -> jsstring -> jsstring -> jsstring.
Variable translationPrompt : jsstring -> jsstring -> jsstring.

(** [blacklist.join(', ')] *)
Fixpoint join (sep : jsstring) (l : list jsstring) : jsstring :=
  match l with
  | [] => []
  | [x] => x
  | x :: l' => x ++ sep ++ join sep l'
  end.

(** Lines 66-77: the prompt of [extractVocabulary]. *)
Definition extractVocabulary_prompt (lyrics songTitle : jsstring)
    (blacklist : list jsstring) (settings : option UserSettings) : jsstring :=
  let aiStyle := or_else (aiStyle <$> settings) (js "lyric") in
  let systemPrompt := getSystemPrompt aiStyle in
  let blacklistText :=
    if (0 <? length blacklist)%nat
    then js "Skip words in this blacklist: " ++ join (js ", ") blacklist
    else js "" in
  systemPrompt ++ [10; 10] ++ js "Song: " ++ [dquote] ++ songTitle
  ++ [dquote] ++ [10; 10] ++ js "Lyrics:" ++ [10] ++ lyrics
  ++ [10; 10] ++ blacklistText.

Definition extractVocabulary (lyrics songTitle : jsstring) (blacklist : list jsstring)
    (settings : option UserSettings) : M (list Request) VocabularyResult :=
  try_catch
    (let prompt := extractVocabulary_prompt lyrics songTitle blacklist settings in
     r <- callAI net prompt settings (mkAIOptions (Some 1%Q) (Some 16384%Z) None) ;;
     lift (extractVocabulary_try r))%M
    (fun error => ret (extractVocabulary_catch error)).

Definition evaluateAnswer (userAnswer correctAnswer sentence sentenceEn meaning : jsstring)
    (settings : option UserSettings) : M (list Request) value :=
  try_catch
    (let prompt := answerPrompt userAnswer correctAnswer sentence sentenceEn meaning in
     r <- callAI net prompt settings (mkAIOptions (Some (3 # 10)%Q) (Some 512%Z) None) ;;
     lift (evaluateAnswer_try r))%M
    (fun error => ret (evaluateAnswer_catch error)).

Record TranslationResult : Type := mkTranslationResult {
  evaluation : TranslationEvaluation;
  translation_error : option jsstring
}.

Definition evaluateTranslation (userAnswer sentenceZh : jsstring)
    (settings : option UserSettings) : M (list Request) TranslationResult :=
  try_catch
    (let prompt := translationPrompt userAnswer sentenceZh in
     r <- callAI net prompt settings (mkAIOptions (Some (3 # 10)%Q) (Some 512%Z) None) ;;
     if truthy_opt (error r) then
       ret (mkTranslationResult
              (mkTranslationEvaluation false (Num 0) (js "") (default [] (error r))) None)
     else
       let parsed := parseTranslationResponse (text r) userAnswer in
       ret (mkTranslationResult parsed None))%M
    (fun error =>
       let errorMessage := errorMessage error in
       ret (mkTranslationResult
              (mkTranslationEvaluation false (Num 0) (js "")
                 (js "评估出错: " ++ errorMessage))
              (Some (js "API请求失败: " ++ errorMessage)))).

End Calls.

End Gemini.
Export Gemini.

(* ===================================================================== *)
(** * services/storage.ts *)
(* ===================================================================== *)

(** AsyncStorage: string keys, string values.  It is a key-value store
    whose reads and writes succeed. *)
Abbreviation AsyncStorage := (gmap jsstring jsstring).

Definition AsyncStorage_getItem (key : jsstring) : M AsyncStorage (option jsstring) :=
  fun store => (Returned (store !! key), store).

Definition AsyncStorage_setItem (key value : jsstring) : M AsyncStorage unit :=
  fun store => (Returned tt, <[key := value]> store).

(** [AsyncStorage.multiRemove(keys)] *)
Definition AsyncStorage_multiRemove (keys : list jsstring) : M AsyncStorage unit :=
  fun store => (Returned tt, fold_left (fun st key => delete key st) keys store).

(** The object a [Word], a [Source] or a [Song] is at run time. *)
Definition Word_value (w : Word) : value :=
  JObj [(js "id", JStr (word_id w)); (js "word", JStr (word_word w));
        (js "meaning", JStr (word_meaning w)); (js "example", JStr (word_example w));
        (js "exampleZh", JStr (word_exampleZh w)); (js "level", JStr (word_level w));
        (js "isMastered", JBool (word_isMastered w));
        (js "createdAt", JNum (word_createdAt w))].

Definition Source_value (s : Source) : value :=
  JObj [(js "id", JStr (source_id s)); (js "wordId", JStr (source_wordId s));
        (js "songTitle", JStr (source_songTitle s)); (js "artist", JStr (source_artist s));
        (js "lyricSentence", JStr (source_lyricSentence s));
        (js "lyricSentenceEn", JStr (source_lyricSentenceEn s));
        (js "lyricTranslated", JStr (source_lyricTranslated s));
        (js "replaceWord", JStr (source_replaceWord s))].

Definition Song_value (s : Song) : value :=
  JObj [(js "id", JStr (song_id s)); (js "title", JStr (song_title s));
        (js "artist", JStr (song_artist s)); (js "language", JStr (song_language s));
        (js "lyrics", JStr (song_lyrics s)); (js "status", JStr (song_status s));
        (js "createdAt", JNum (song_createdAt s))].

Module StorageService.

Definition WORDS_KEY : jsstring := js "@melody_words".
Definition SOURCES_KEY : jsstring := js "@melody_sources".
Definition SONGS_KEY : jsstring := js "@melody_songs".

(** [data ? JSON.parse(data) : []] inside [try], [[]] from the [catch]. *)
Definition get_collection (key : jsstring) : M AsyncStorage value :=
  try_catch
    (data <- AsyncStorage_getItem key ;;
     if truthy_opt data then lift (JSON.parse (default [] data))
     else ret (JArr []))%M
    (fun error => ret (JArr [])).

(** [AsyncStorage.setItem(key, JSON.stringify(collection))] inside [try];
    the [catch] logs and returns. *)
Definition save_collection (key : jsstring) (collection : value) : M AsyncStorage unit :=
  try_catch
    (AsyncStorage_setItem key (JSON.stringify collection))
    (fun error => ret tt).

Definition getWords : M AsyncStorage value := get_collection WORDS_KEY.

Definition saveWords (words : list Word) : M AsyncStorage unit :=
  save_collection WORDS_KEY (JArr (map Word_value words)).

Definition getSources : M AsyncStorage value := get_collection SOURCES_KEY.

Definition saveSources (sources : list Source) : M AsyncStorage unit :=
  save_collection SOURCES_KEY (JArr (map Source_value sources)).

Definition getSongs : M AsyncStorage value := get_collection SONGS_KEY.

Definition saveSongs (songs : list Song) : M AsyncStorage unit :=
  save_collection SONGS_KEY (JArr (map Song_value songs)).

(** [multiRemove] of the three keys inside [try]; the [catch] logs and
    returns. *)
Definition clearAll : M AsyncStorage unit :=
  try_catch
    (AsyncStorage_multiRemove [WORDS_KEY; SOURCES_KEY; SONGS_KEY])
    (fun error => ret tt).

End StorageService.

(* ===================================================================== *)
(** * screens/FactoryScreen.tsx: the extraction loop of handleProcess *)
(* ===================================================================== *)

Module FactoryScreen.

(** An item of [result.words], as its type declares it. *)
Record VocabWord : Type := mkVocabWord {
  word : jsstring;
  meaning : jsstring;
  level : jsstring;
  example : jsstring;
  exampleZh : jsstring;
  sentence : jsstring;
  sentenceEn : jsstring;
  replaceWord : jsstring
}.

Definition maxRequests : nat := 3.

Section Loop.
(** [String.prototype.toLowerCase] *)
Variable toLowerCase : jsstring -> jsstring.
(** [extract n] is [result.words] of the [n]-th call of [extractVocabulary]
    (the arguments are the same at every call, the answers are not). *)
Variable extract : nat -> list VocabWord.

(** [allWords.some(existing => existing.word.toLowerCase() === w.word.toLowerCase())] *)
Definition known (allWords : list VocabWord) (w : VocabWord) : bool :=
  existsb (fun existing =>
             JsString.eqb (toLowerCase (word existing)) (toLowerCase (word w)))
          allWords.

(** The [for] loop of lines 60-64. *)
Definition merge (allWords result : list VocabWord) : list VocabWord :=
  fold_left (fun all w => if known all w then all else all ++ [w]) result allWords.

(** The [while] loop of lines 48-73; [fuel] bounds its iterations.  The
    result is [allWords] and [requestCount] when the loop is left. *)
Fixpoint extraction_loop (fuel : nat) (allWords : list VocabWord) (requestCount : nat)
  : option (list VocabWord * nat) :=
  match fuel with
  | O => None
  | S fuel' =>
      if (requestCount <? maxRequests)%nat then
        let requestCount := S requestCount in
        let result := extract requestCount in
        if (length result =? 0)%nat then Some (allWords, requestCount)
        else
          let allWords := merge allWords result in
          if (length result <? 10)%nat then Some (allWords, requestCount)
          else if (25 <=? length allWords)%nat then Some (allWords, requestCount)
          else extraction_loop fuel' allWords requestCount
      else Some (allWords, requestCount)
  end.

(** Lines 44-73 of [handleProcess]. *)
Definition handleProcess_extract : option (list VocabWord * nat) :=
  extraction_loop (S maxRequests) [] 0.

(** The words accumulated after the first [n] answers. *)
Fixpoint accumulated (n : nat) : list VocabWord :=
  match n with
  | O => []
  | S n' => merge (accumulated n') (extract n)
  end.

End Loop.

(** The word bank while the words of a song are stored: the two arrays
    read from storage, [existingWords] and [existingSources], the words
    and sources of the store ([addWord] and [addSource] append to them),
    and how often [Date.now()] and [Math.random()] have been evaluated. *)
Record Bank : Type := mkBank {
  existingWords : list Word;
  existingSources : list Source;
  storeWords : list Word;
  storeSources : list Source;
  ticks : nat;
  draws : nat
}.

Section Storing.
Variable toLowerCase : jsstring -> jsstring.
(** [Date.now()] at its [n]-th evaluation, and [Math.random()] at its
    [n]-th evaluation as the string it is appended as. *)
Variable Date_now : nat -> Z.
Variable Math_random : nat -> jsstring.
Variable songTitle : jsstring.

(** [existingWords.find(w => w.word.toLowerCase() === vocabWord.word.toLowerCase())] *)
Definition find_existing (existingWords : list Word) (vocabWord : VocabWord)
  : option Word :=
  find (fun w => JsString.eqb (toLowerCase (word_word w)) (toLowerCase (word vocabWord)))
    existingWords.

(** The source object of lines 101-110 and 129-138. *)
Definition source_for (id wordId : jsstring) (vocabWord : VocabWord) : Source :=
  mkSource id wordId songTitle (js "")
    (or_else (Some (sentence vocabWord)) (js ""))
    (or_else (Some (sentenceEn vocabWord)) (js ""))
    (meaning vocabWord)
    (or_else (Some (replaceWord vocabWord)) (js "")).

(** The body of the [for] loop of lines 95-142. *)
Definition store_word (b : Bank) (vocabWord : VocabWord) : Bank :=
  match find_existing (existingWords b) vocabWord with
  | Some existingWord =>
      let newSource :=
        source_for (Z_toString (Date_now (ticks b)) ++ Math_random (draws b))
          (word_id existingWord) vocabWord in
      mkBank (existingWords b) (existingSources b ++ [newSource])
        (storeWords b) (storeSources b ++ [newSource])
        (S (ticks b)) (S (draws b))
  | None =>
      let wordId := Z_toString (Date_now (ticks b)) ++ Math_random (draws b) in
      let wordLevel := or_else (Some (level vocabWord)) (js "B2") in
      let newWord :=
        mkWord wordId (word vocabWord) (meaning vocabWord) (example vocabWord)
          (or_else (Some (exampleZh vocabWord)) (js "")) wordLevel false
          (Date_now (S (ticks b))) in
      let newSource :=
        source_for (Z_toString (Date_now (S (S (ticks b)))) ++ Math_random (S (draws b)))
          wordId vocabWord in
      mkBank (existingWords b ++ [newWord]) (existingSources b ++ [newSource])
        (storeWords b ++ [newWord]) (storeSources b ++ [newSource])
        (S (S (S (ticks b)))) (S (S (draws b)))
  end.

(** Lines 95-142: the loop over [allWords]. *)
Definition store_words (b : Bank) (allWords : list VocabWord) : Bank :=
  fold_left store_word allWords b.

End Storing.

End FactoryScreen.

(* ===================================================================== *)
(** * screens/HistoryScreen.tsx: handleDeleteSong *)
(* ===================================================================== *)

Module HistoryScreen.

(** The collections of the store the screen reads and replaces. *)
Record Collections : Type := mkCollections {
  songs : list Song;
  sources : list Source;
  words : list Word
}.

(** The [onPress] of the Delete button, lines 55-71: the new collections,
    written to storage and put into the store. *)
Definition handleDeleteSong (song : Song) (st : Collections)
  : M AsyncStorage Collections :=
  let songSources :=
    filter (fun s => source_songTitle s = song_title song) (sources st) in
  let songWordIds : gset jsstring := list_to_set (map source_wordId songSources) in
  let remainingSources :=
    filter (fun s => source_songTitle s <> song_title song) (sources st) in
  let otherWordIds : gset jsstring := list_to_set (map source_wordId remainingSources) in
  let wordsToDelete :=
    filter (fun id => id ∉ otherWordIds) (elements songWordIds) in
  let updatedSongs := filter (fun s => song_id s <> song_id song) (songs st) in
  let updatedSources :=
    filter (fun s => source_songTitle s <> song_title song) (sources st) in
  let updatedWords := filter (fun w => word_id w ∉ wordsToDelete) (words st) in
  (StorageService.saveSongs updatedSongs ;;;
   StorageService.saveSources updatedSources ;;;
   StorageService.saveWords updatedWords ;;;
   ret (mkCollections updatedSongs updatedSources updatedWords))%M.

(** Lines 27-33: the number of words shown on the card of a song. *)
Definition getWordCountForSong (st : Collections) (songId : jsstring) : nat :=
  match find (fun s => bool_decide (song_id s = songId)) (songs st) with
  | None => 0
  | Some song =>
      let songSources :=
        filter (fun s => source_songTitle s = song_title song) (sources st) in
      let uniqueWords : gset jsstring := list_to_set (map source_wordId songSources) in
      size uniqueWords
  end.

End HistoryScreen.

(* ===================================================================== *)
(** * The practice of the word list screen: submitPracticeAnswer *)
(* ===================================================================== *)

Module TreasuryScreen.

Inductive PracticeMode : Type := M4choice | Mfill | Mtranslate.

Record PracticeSentence : Type := mkPracticeSentence {
  sentence : jsstring;
  sentenceZh : jsstring;
  options : list jsstring
}.

Record TranslateQuestion : Type := mkTranslateQuestion {
  tq_word : jsstring;
  tq_sentenceZh : jsstring
}.

Record PracticeResult : Type := mkPracticeResult {
  isCorrect : bool;
  score : number;
  feedback : jsstring
}.

(** The component state the function reads and sets, and the wrong-answer
    log of the store. *)
Record State : Type := mkState {
  practiceMode : PracticeMode;
  practiceWords : list Word;
  practiceIndex : nat;
  practiceSentence : option PracticeSentence;
  translateQuestion : option TranslateQuestion;
  userAnswer : jsstring;
  isEvaluating : bool;
  practiceResult : option PracticeResult;
  practiceScore : Z;
  wrongAnswers : list WrongAnswer
}.

Definition setIsEvaluating (b : bool) (st : State) : State :=
  mkState (practiceMode st) (practiceWords st) (practiceIndex st) (practiceSentence st)
    (translateQuestion st) (userAnswer st) b (practiceResult st) (practiceScore st)
    (wrongAnswers st).

Definition setPracticeResult (r : PracticeResult) (st : State) : State :=
  mkState (practiceMode st) (practiceWords st) (practiceIndex st) (practiceSentence st)
    (translateQuestion st) (userAnswer st) (isEvaluating st) (Some r) (practiceScore st)
    (wrongAnswers st).

Definition setPracticeScore (n : Z) (st : State) : State :=
  mkState (practiceMode st) (practiceWords st) (practiceIndex st) (practiceSentence st)
    (translateQuestion st) (userAnswer st) (isEvaluating st) (practiceResult st) n
    (wrongAnswers st).

(** [addWrongAnswer] of the store, up to its storage write:
    [[...get().wrongAnswers, wrongAnswer]]. *)
Definition addWrongAnswer (wa : WrongAnswer) (st : State) : State :=
  mkState (practiceMode st) (practiceWords st) (practiceIndex st) (practiceSentence st)
    (translateQuestion st) (userAnswer st) (isEvaluating st) (practiceResult st)
    (practiceScore st) (wrongAnswers st ++ [wa]).

(** Reading a property of [undefined]. *)
Definition TypeError : JsError :=
  mkJsError (Some (js "Cannot read property of undefined"))
            (Some (js "TypeError: Cannot read property of undefined")).

Definition is_translate (m : PracticeMode) : bool :=
  match m with Mtranslate => true | _ => false end.

Definition is_fill (m : PracticeMode) : bool :=
  match m with Mfill => true | _ => false end.

Section Submit.
Variable toLowerCase : jsstring -> jsstring.
(** The evaluators of the service, as this screen calls them. *)
Variable evaluateTranslation :
  jsstring -> jsstring -> jsstring -> UserSettings -> Exc PracticeResult.
Variable evaluateAnswer :
  jsstring -> jsstring -> jsstring -> jsstring -> jsstring -> UserSettings
  -> Exc PracticeResult.
Variable settings : UserSettings.
(** [Date.now()] for the id and for [createdAt], and [Math.random()] as
    the string it is appended as. *)
Variable now_id now_createdAt : Z.
Variable random : jsstring.

Definition new_id : jsstring := Z_toString now_id ++ random.

(** [currentWord.p] for [currentWord = practiceWords[practiceIndex]]. *)
Definition currentWord_get {A} (currentWord : option Word) (p : Word -> A) : M State A :=
  match currentWord with
  | Some w => ret (p w)
  | None => throw TypeError
  end.

(** Lines 261-347: the body of the [try]; [st0] is the state the
    component was rendered with. *)
Definition submit_try (st0 : State) (currentWord : option Word) : M State unit :=
  let answer := trim (userAnswer st0) in
  match (if is_translate (practiceMode st0) then translateQuestion st0 else None) with
  | Some question =>
      (result <- lift (evaluateTranslation answer (tq_word question)
                         (tq_sentenceZh question) settings) ;;
       modify (setPracticeResult result) ;;;
       if isCorrect result || num_geb (score result) (Num 70) then
         modify (setPracticeScore (practiceScore st0 + 1))
       else
         wordId <- currentWord_get currentWord word_id ;;
         word <- currentWord_get currentWord word_word ;;
         meaning <- currentWord_get currentWord word_meaning ;;
         modify (addWrongAnswer
                   (mkWrongAnswer new_id wordId word meaning answer (tq_word question)
                      (tq_sentenceZh question) (js "") (score result) (feedback result)
                      (js "") now_createdAt Etranslate)))%M
  | None =>
      if is_fill (practiceMode st0) then
        (word <- currentWord_get currentWord word_word ;;
         ps <- match practiceSentence st0 with
               | Some ps => ret ps
               | None => throw TypeError
               end ;;
         meaning <- currentWord_get currentWord word_meaning ;;
         result <- lift (evaluateAnswer answer word (sentence ps) (sentenceZh ps)
                           meaning settings) ;;
         modify (setPracticeResult result) ;;;
         if isCorrect result || num_geb (score result) (Num 70) then
           modify (setPracticeScore (practiceScore st0 + 1))
         else
           wordId <- currentWord_get currentWord word_id ;;
           modify (addWrongAnswer
                     (mkWrongAnswer new_id wordId word meaning answer word
                        (sentence ps) (sentenceZh ps) (score result) (feedback result)
                        (js "") now_createdAt Efill)))%M
      else
        (word <- currentWord_get currentWord word_word ;;
         let isCorrect := JsString.eqb (toLowerCase answer) (toLowerCase word) in
         let result :=
           mkPracticeResult isCorrect (if isCorrect then Num 100 else Num 0)
             (if isCorrect then js "Correct!"
              else js "The answer is " ++ [34] ++ word ++ [34]) in
         modify (setPracticeResult result) ;;;
         if isCorrect then modify (setPracticeScore (practiceScore st0 + 1))
         else
           wordId <- currentWord_get currentWord word_id ;;
           meaning <- currentWord_get currentWord word_meaning ;;
           modify (addWrongAnswer
                     (mkWrongAnswer new_id wordId word meaning answer word
                        (or_else (sentence <$> practiceSentence st0) (js ""))
                        (or_else (sentenceZh <$> practiceSentence st0) (js ""))
                        (Num 0) (js "Wrong answer") (js "") now_createdAt E4choice)))%M
  end.

(** Lines 348-355: the [catch]. *)
Definition submit_catch (st0 : State) (currentWord : option Word) (error : JsError)
  : M State unit :=
  (word <- currentWord_get currentWord word_word ;;
   let isCorrect := JsString.eqb (toLowerCase (trim (userAnswer st0))) (toLowerCase word) in
   modify (setPracticeResult
             (mkPracticeResult isCorrect (if isCorrect then Num 100 else Num 0)
                (if isCorrect then js "Correct!" else js "Wrong"))) ;;;
   if isCorrect then modify (setPracticeScore (practiceScore st0 + 1)) else ret tt)%M.

(** The guard of line 256. *)
Definition submit_refused (st0 : State) : bool :=
  (negb (bool_decide (is_Some (practiceSentence st0)))
   && negb (is_translate (practiceMode st0)))
  || negb (truthy (trim (userAnswer st0))).

Definition submitPracticeAnswer : M State unit :=
  fun st0 =>
    if submit_refused st0 then (Returned tt, st0)
    else
      let currentWord := practiceWords st0 !! practiceIndex st0 in
      (modify (setIsEvaluating true) ;;;
       finally (try_catch (submit_try st0 currentWord) (submit_catch st0 currentWord))
               (setIsEvaluating false))%M st0.

(** The [result] of the branch the submission takes, for a current word
    [w]: what the evaluator of the mode answers, or the comparison of
    the multiple-choice mode. *)
Definition evaluation_result (st0 : State) (w : Word) : Exc PracticeResult :=
  let answer := trim (userAnswer st0) in
  match (if is_translate (practiceMode st0) then translateQuestion st0 else None) with
  | Some question =>
      evaluateTranslation answer (tq_word question) (tq_sentenceZh question) settings
  | None =>
      if is_fill (practiceMode st0) then
        match practiceSentence st0 with
        | Some ps => evaluateAnswer answer (word_word w) (sentence ps) (sentenceZh ps)
                       (word_meaning w) settings
        | None => Thrown TypeError
        end
      else
        let isCorrect := JsString.eqb (toLowerCase answer) (toLowerCase (word_word w)) in
        Returned (mkPracticeResult isCorrect (if isCorrect then Num 100 else Num 0)
                    (if isCorrect then js "Correct!"
                     else js "The answer is " ++ [34] ++ word_word w ++ [34]))
  end.

(** The answer a wrong-answer entry records as the correct one. *)
Definition expected_answer (st0 : State) (w : Word) : jsstring :=
  match (if is_translate (practiceMode st0) then translateQuestion st0 else None) with
  | Some question => tq_word question
  | None => word_word w
  end.

End Submit.

(** ** The session: startPractice and nextPractice *)

Inductive FilterMode : Type := Fall | Flearning | Fmastered.

Definition setPracticeMode (m : PracticeMode) (st : State) : State :=
  mkState m (practiceWords st) (practiceIndex st) (practiceSentence st)
    (translateQuestion st) (userAnswer st) (isEvaluating st) (practiceResult st)
    (practiceScore st) (wrongAnswers st).

Definition setPracticeWords (ws : list Word) (st : State) : State :=
  mkState (practiceMode st) ws (practiceIndex st) (practiceSentence st)
    (translateQuestion st) (userAnswer st) (isEvaluating st) (practiceResult st)
    (practiceScore st) (wrongAnswers st).

Definition setPracticeIndex (i : nat) (st : State) : State :=
  mkState (practiceMode st) (practiceWords st) i (practiceSentence st)
    (translateQuestion st) (userAnswer st) (isEvaluating st) (practiceResult st)
    (practiceScore st) (wrongAnswers st).

Definition setPracticeSentence (ps : option PracticeSentence) (st : State) : State :=
  mkState (practiceMode st) (practiceWords st) (practiceIndex st) ps
    (translateQuestion st) (userAnswer st) (isEvaluating st) (practiceResult st)
    (practiceScore st) (wrongAnswers st).

Definition setTranslateQuestion (q : option TranslateQuestion) (st : State) : State :=
  mkState (practiceMode st) (practiceWords st) (practiceIndex st) (practiceSentence st)
    q (userAnswer st) (isEvaluating st) (practiceResult st) (practiceScore st)
    (wrongAnswers st).

Definition setUserAnswer (a : jsstring) (st : State) : State :=
  mkState (practiceMode st) (practiceWords st) (practiceIndex st) (practiceSentence st)
    (translateQuestion st) a (isEvaluating st) (practiceResult st) (practiceScore st)
    (wrongAnswers st).

(** [setPracticeResult(null)] *)
Definition resetPracticeResult (st : State) : State :=
  mkState (practiceMode st) (practiceWords st) (practiceIndex st) (practiceSentence st)
    (translateQuestion st) (userAnswer st) (isEvaluating st) None (practiceScore st)
    (wrongAnswers st).

(** What the screen shows after a handler: the practice goes on, or an
    alert is up; the completion alert carries the two numbers of its
    text. *)
Inductive Shown : Type :=
| Practising
| NotEnoughWords
| PracticeComplete (correct : Z) (total : nat).

(** A call of an [async] function that is not awaited: what it does to
    the state is done, and a throw inside it rejects a promise nobody
    holds; the caller goes on. *)
Definition unawaited {St A} (c : M St A) : M St unit :=
  fun st => (Returned tt, snd (c st)).

Section Session.
(** The generators of the service, as this screen calls them; each has
    its own [catch] and returns. *)
Variable generateTranslateQuestion : jsstring -> jsstring -> UserSettings -> TranslateQuestion.
Variable generatePracticeSentence :
  jsstring -> jsstring -> list jsstring -> UserSettings -> PracticeSentence.
Variable settings : UserSettings.
(** [[...availableWords].sort(() => Math.random() - 0.5)] *)
Variable shuffle : list Word -> list Word.

(** Lines 236-243. *)
Definition loadTranslateQuestion (word : option Word) : M State unit :=
  (modify (setTranslateQuestion None) ;;;
   modify (setUserAnswer (js "")) ;;;
   modify resetPracticeResult ;;;
   w <- currentWord_get word word_word ;;
   meaning <- currentWord_get word word_meaning ;;
   let result := generateTranslateQuestion w meaning settings in
   modify (setTranslateQuestion (Some result)))%M.

(** Lines 245-253. *)
Definition loadPracticeSentence (word : option Word) (allWords : list Word)
  : M State unit :=
  (modify (setPracticeSentence None) ;;;
   modify (setUserAnswer (js "")) ;;;
   modify resetPracticeResult ;;;
   id <- currentWord_get word word_id ;;
   let otherWords := map word_word (filter (fun w => word_id w <> id) allWords) in
   w <- currentWord_get word word_word ;;
   meaning <- currentWord_get word word_meaning ;;
   let result := generatePracticeSentence w meaning otherWords settings in
   modify (setPracticeSentence (Some result)))%M.

(** [words] after the filter of the list. *)
Definition availableWords (words : list Word) (filterMode : FilterMode) : list Word :=
  match filterMode with
  | Fmastered => filter (fun w => word_isMastered w = true) words
  | Flearning => filter (fun w => word_isMastered w = false) words
  | Fall => words
  end.

(** Lines 208-234. *)
Definition startPractice (words : list Word) (filterMode : FilterMode)
    (mode : PracticeMode) : M State Shown :=
  let availableWords := availableWords words filterMode in
  if (length availableWords <? 4)%nat then ret NotEnoughWords
  else
    (modify (setPracticeMode mode) ;;;
     let shuffled := shuffle availableWords in
     modify (setPracticeWords shuffled) ;;;
     modify (setPracticeIndex 0) ;;;
     modify (setPracticeScore 0) ;;;
     modify resetPracticeResult ;;;
     (if is_translate mode then unawaited (loadTranslateQuestion (shuffled !! 0%nat))
      else unawaited (loadPracticeSentence (shuffled !! 0%nat) shuffled)) ;;;
     ret Practising)%M.

(** The number of correct answers in the text of the completion alert. *)
Definition completion_count (st : State) : Z :=
  (practiceScore st
   + (if match practiceResult st with
         | Some r => isCorrect r || num_geb (score r) (Num 70)
         | None => false
         end
      then 1 else 0))%Z.

(** Lines 361-377; [st0] is the state the component was rendered
    with. *)
Definition nextPractice : M State Shown :=
  fun st0 =>
    if (Z.of_nat (practiceIndex st0) <? Z.of_nat (length (practiceWords st0)) - 1)%Z
    then
      let nextIdx := S (practiceIndex st0) in
      (modify (setPracticeIndex nextIdx) ;;;
       (if is_translate (practiceMode st0)
        then unawaited (loadTranslateQuestion (practiceWords st0 !! nextIdx))
        else unawaited (loadPracticeSentence (practiceWords st0 !! nextIdx)
                          (practiceWords st0))) ;;;
       ret Practising)%M st0
    else (Returned (PracticeComplete (completion_count st0) (length (practiceWords st0))),
          st0).

End Session.

(** ** The selection and the deletion of words *)

(** Lines 175-181. *)
Definition toggleSelectWord (selectedWords : list jsstring) (wordId : jsstring)
  : list jsstring :=
  if bool_decide (wordId ∈ selectedWords)
  then filter (fun id => id <> wordId) selectedWords
  else selectedWords ++ [wordId].

(** Lines 379-404: the [onPress] of the Delete button with its guard;
    the result is the collections of the store and the selection. *)
Definition handleBatchDelete (selectedWords : list jsstring)
    (st : HistoryScreen.Collections)
  : M AsyncStorage (HistoryScreen.Collections * list jsstring) :=
  if (length selectedWords =? 0)%nat then ret (st, selectedWords)
  else
    let updatedWords :=
      filter (fun w => word_id w ∉ selectedWords) (HistoryScreen.words st) in
    (StorageService.saveWords updatedWords ;;;
     let updatedSources :=
       filter (fun s => source_wordId s ∉ selectedWords) (HistoryScreen.sources st) in
     StorageService.saveSources updatedSources ;;;
     ret (HistoryScreen.mkCollections (HistoryScreen.songs st) updatedSources
            updatedWords, []))%M.

(** Lines 459-484: the [onPress] of the Delete button of the word
    dialog with its guard. *)
Definition handleDeleteWord (selectedWord : option Word) (st : HistoryScreen.Collections)
  : M AsyncStorage HistoryScreen.Collections :=
  match selectedWord with
  | None => ret st
  | Some selectedWord =>
      let updatedWords :=
        filter (fun w => word_id w <> word_id selectedWord) (HistoryScreen.words st) in
      (StorageService.saveWords updatedWords ;;;
       let updatedSources :=
         filter (fun s => source_wordId s <> word_id selectedWord)
           (HistoryScreen.sources st) in
       StorageService.saveSources updatedSources ;;;
       ret (HistoryScreen.mkCollections (HistoryScreen.songs st) updatedSources
              updatedWords))%M
  end.

End TreasuryScreen.

(* ===================================================================== *)
(** * store/index.ts *)
(* ===================================================================== *)

(** The store that writes each of its collections to storage under the
    seven keys; an earlier file of the store keeps the words, the
    sources and the songs in memory only and leaves their storage to
    the storage service. *)

Module Store.

Record BlacklistItem : Type := mkBlacklistItem {
  bl_id : jsstring;
  bl_word : jsstring
}.

Record UserStats : Type := mkUserStats {
  totalWords : Z;
  masteredWords : Z;
  streakDays : Z;
  lastPracticeDate : option Z
}.

(** The objects of the store as [JSON.stringify] sees them. *)
Definition BlacklistItem_value (b : BlacklistItem) : value :=
  JObj [(js "id", JStr (bl_id b)); (js "word", JStr (bl_word b))].

Definition UserStats_value (s : UserStats) : value :=
  JObj [(js "totalWords", JNum (totalWords s));
        (js "masteredWords", JNum (masteredWords s));
        (js "streakDays", JNum (streakDays s));
        (js "lastPracticeDate",
         match lastPracticeDate s with Some d => JNum d | None => JNull end)].

Definition ErrorType_value (e : ErrorType) : value :=
  JStr (match e with
        | E4choice => js "4choice"
        | Efill => js "fill"
        | Etranslate => js "translate"
        end).

(** A score that is [NaN] is written as [null]. *)
Definition number_value (n : number) : value :=
  match n with
  | Num z => JNum z
  | NaN => JNull
  end.

Definition WrongAnswer_value (a : WrongAnswer) : value :=
  JObj [(js "id", JStr (wa_id a)); (js "wordId", JStr (wa_wordId a));
        (js "word", JStr (wa_word a)); (js "meaning", JStr (wa_meaning a));
        (js "userAnswer", JStr (wa_userAnswer a));
        (js "correctAnswer", JStr (wa_correctAnswer a));
        (js "sentence", JStr (wa_sentence a)); (js "sentenceEn", JStr (wa_sentenceEn a));
        (js "score", number_value (wa_score a)); (js "feedback", JStr (wa_feedback a));
        (js "songTitle", JStr (wa_songTitle a)); (js "createdAt", JNum (wa_createdAt a));
        (js "errorType", ErrorType_value (wa_errorType a))].

Definition UserSettings_members (s : UserSettings) : list (jsstring * value) :=
  [(js "apiProvider", JStr (apiProvider s)); (js "nvidiaApiKey", JStr (nvidiaApiKey s));
   (js "geminiApiKey", JStr (geminiApiKey s));
   (js "opencodeApiKey", JStr (opencodeApiKey s));
   (js "nvidiaModel", JStr (nvidiaModel s)); (js "geminiModel", JStr (geminiModel s));
   (js "opencodeModel", JStr (opencodeModel s)); (js "aiStyle", JStr (aiStyle s))].

Definition UserSettings_value (s : UserSettings) : value := JObj (UserSettings_members s).

Definition STATS_KEY : jsstring := js "@melody_stats".
Definition WORDS_KEY : jsstring := js "@melody_words".
Definition SOURCES_KEY : jsstring := js "@melody_sources".
Definition SONGS_KEY : jsstring := js "@melody_songs".
Definition BLACKLIST_KEY : jsstring := js "@melody_blacklist".
Definition SETTINGS_KEY : jsstring := js "@melody_settings".
Definition WRONG_ANSWERS_KEY : jsstring := js "@melody_wrong_answers".

(** The data of the store, at the types the interface declares. *)
Record AppState : Type := mkAppState {
  words : list Word;
  sources : list Source;
  songs : list Song;
  blacklist : list BlacklistItem;
  wrongAnswers : list WrongAnswer;
  stats : UserStats;
  settings : UserSettings;
  isLoading : bool
}.

Definition zero_stats : UserStats := mkUserStats 0 0 0 None.

Definition initial : AppState :=
  mkAppState [] [] [] [] [] zero_stats DEFAULT_SETTINGS true.

Definition set_words (x : list Word) (st : AppState) : AppState :=
  mkAppState x (sources st) (songs st) (blacklist st) (wrongAnswers st) (stats st)
    (settings st) (isLoading st).




Definition set_wrongAnswers (x : list WrongAnswer) (st : AppState) : AppState :=
  mkAppState (words st) (sources st) (songs st) (blacklist st) x (stats st)
    (settings st) (isLoading st).



(** The store and the storage it writes to. *)
Definition St : Type := AppState * AsyncStorage.

(** [get()] *)
Definition get : M St AppState := fun s => (Returned (fst s), s).

(** [set(partial)] *)
Definition set (f : AppState -> AppState) : M St unit :=
  fun s => (Returned tt, (f (fst s), snd s)).

Definition storage {A} (c : M AsyncStorage A) : M St A :=
  fun s => let (r, store) := c (snd s) in (r, (fst s, store)).




(** [Partial<Word>]: the properties an update carries. *)
Record WordUpdate : Type := mkWordUpdate {
  u_id : option jsstring;
  u_word : option jsstring;
  u_meaning : option jsstring;
  u_example : option jsstring;
  u_exampleZh : option jsstring;
  u_level : option jsstring;
  u_isMastered : option bool;
  u_createdAt : option Z
}.

(** [{ ...w, ...updates }] *)
Definition Word_with (w : Word) (u : WordUpdate) : Word :=
  mkWord (default (word_id w) (u_id u)) (default (word_word w) (u_word u))
    (default (word_meaning w) (u_meaning u)) (default (word_example w) (u_example u))
    (default (word_exampleZh w) (u_exampleZh u)) (default (word_level w) (u_level u))
    (default (word_isMastered w) (u_isMastered u))
    (default (word_createdAt w) (u_createdAt u)).

Definition updateWord (id : jsstring) (updates : WordUpdate) : M St unit :=
  (state <- get ;;
   let newWords :=
     map (fun w => if bool_decide (word_id w = id) then Word_with w updates else w)
       (words state) in
   set (set_words newWords) ;;;
   storage (AsyncStorage_setItem WORDS_KEY
              (JSON.stringify (JArr (map Word_value newWords)))))%M.

Section Blacklist.
Variable toLowerCase : jsstring -> jsstring.
(** [Date.now()] when the item is made. *)
Variable now : Z.


End Blacklist.


Definition addWrongAnswer (wrongAnswer : WrongAnswer) : M St unit :=
  (state <- get ;;
   let newWrongAnswers := wrongAnswers state ++ [wrongAnswer] in
   set (set_wrongAnswers newWrongAnswers) ;;;
   storage (AsyncStorage_setItem WRONG_ANSWERS_KEY
              (JSON.stringify (JArr (map WrongAnswer_value newWrongAnswers)))))%M.

Definition removeWrongAnswer (id : jsstring) : M St unit :=
  (state <- get ;;
   let newWrongAnswers := filter (fun item => wa_id item <> id) (wrongAnswers state) in
   set (set_wrongAnswers newWrongAnswers) ;;;
   storage (AsyncStorage_setItem WRONG_ANSWERS_KEY
              (JSON.stringify (JArr (map WrongAnswer_value newWrongAnswers)))))%M.



Definition getSourcesForWord (state : AppState) (wordId : jsstring) : list Source :=
  filter (fun s => source_wordId s = wordId) (sources state).





(** ** loadData *)

(** What the store holds once [loadData] has put the parsed texts into
    it: the values as [JSON.parse] gave them, unchecked.  The settings
    are an object built by a spread; its properties are kept as a map. *)
Record Loaded : Type := mkLoaded {
  l_stats : value;
  l_words : value;
  l_sources : value;
  l_songs : value;
  l_blacklist : value;
  l_wrongAnswers : value;
  l_settings : gmap jsstring value;
  l_isLoading : bool
}.

(** The own enumerable properties a spread [{...v}] copies: the members
    of an object, the elements of an array and the code units of a
    string under their indices, nothing for the other values. *)
Definition own_properties (v : value) : gmap jsstring value :=
  match v with
  | JObj ms => list_to_map ms
  | JArr vs => list_to_map (imap (fun i x => (Z_toString (Z.of_nat i), x)) vs)
  | JStr s => list_to_map (imap (fun i c => (Z_toString (Z.of_nat i), JStr [c])) s)
  | _ => ∅
  end.

(** The state at the types of the interface, as loaded values. *)
Definition loaded_of (st : AppState) : Loaded :=
  mkLoaded (UserStats_value (stats st)) (JArr (map Word_value (words st)))
    (JArr (map Source_value (sources st))) (JArr (map Song_value (songs st)))
    (JArr (map BlacklistItem_value (blacklist st)))
    (JArr (map WrongAnswer_value (wrongAnswers st)))
    (list_to_map (UserSettings_members (settings st))) (isLoading st).

(** [data ? JSON.parse(data) : fallback] *)
Definition parse_or (data : option jsstring) (fallback : value) : Exc value :=
  if truthy_opt data then JSON.parse (default [] data) else Returned fallback.

Definition set_isLoading (b : bool) (st : Loaded) : Loaded :=
  mkLoaded (l_stats st) (l_words st) (l_sources st) (l_songs st) (l_blacklist st)
    (l_wrongAnswers st) (l_settings st) b.

(** Lines 111-137; [st] is what the store holds when the function is
    called. *)
Definition loadData (st : Loaded) : M AsyncStorage Loaded :=
  try_catch
    (statsData <- AsyncStorage_getItem STATS_KEY ;;
     wordsData <- AsyncStorage_getItem WORDS_KEY ;;
     sourcesData <- AsyncStorage_getItem SOURCES_KEY ;;
     songsData <- AsyncStorage_getItem SONGS_KEY ;;
     blacklistData <- AsyncStorage_getItem BLACKLIST_KEY ;;
     settingsData <- AsyncStorage_getItem SETTINGS_KEY ;;
     wrongAnswersData <- AsyncStorage_getItem WRONG_ANSWERS_KEY ;;
     stats <- lift (parse_or statsData (l_stats st)) ;;
     words <- lift (parse_or wordsData (JArr [])) ;;
     sources <- lift (parse_or sourcesData (JArr [])) ;;
     songs <- lift (parse_or songsData (JArr [])) ;;
     blacklist <- lift (parse_or blacklistData (JArr [])) ;;
     wrongAnswers <- lift (parse_or wrongAnswersData (JArr [])) ;;
     settings <-
       (if truthy_opt settingsData then
          parsed <- lift (JSON.parse (default [] settingsData)) ;;
          ret (own_properties parsed
               ∪ list_to_map (UserSettings_members DEFAULT_SETTINGS))
        else ret (list_to_map (UserSettings_members DEFAULT_SETTINGS))) ;;
     ret (mkLoaded stats words sources songs blacklist wrongAnswers settings false))%M
    (fun error => ret (set_isLoading false st)).

End Store.

(* ===================================================================== *)
(** * The word list screen on the store: toggleMasteredForWord *)
(* ===================================================================== *)

Module WordList.

(** [{ isMastered: b }] *)
Definition mastered_update (b : bool) : Store.WordUpdate :=
  Store.mkWordUpdate None None None None None None (Some b) None.

(** Lines 429-434; [words] is the word list of the store. *)
Definition toggleMasteredForWord (wordId : jsstring) : M Store.St unit :=
  (state <- Store.get ;;
   match find (fun w => bool_decide (word_id w = wordId)) (Store.words state) with
   | Some word =>
       TreasuryScreen.unawaited
         (Store.updateWord wordId (mastered_update (negb (word_isMastered word))))
   | None => ret tt
   end)%M.

End WordList.

(* ===================================================================== *)
(** * screens/ReviewScreen.tsx: the practice of the wrong answers *)
(* ===================================================================== *)

Module ReviewScreen.

(** The component state the practice reads and sets. *)
Record State : Type := mkState {
  practiceAnswers : list WrongAnswer;
  currentIndex : nat;
  userAnswer : jsstring;
  isEvaluating : bool;
  result : option TreasuryScreen.PracticeResult;
  score : Z
}.

Definition setIsEvaluating (b : bool) (st : State) : State :=
  mkState (practiceAnswers st) (currentIndex st) (userAnswer st) b (result st) (score st).

Definition setResult (r : option TreasuryScreen.PracticeResult) (st : State) : State :=
  mkState (practiceAnswers st) (currentIndex st) (userAnswer st) (isEvaluating st) r
    (score st).

Definition setScore (n : Z) (st : State) : State :=
  mkState (practiceAnswers st) (currentIndex st) (userAnswer st) (isEvaluating st)
    (result st) n.

Definition setCurrentIndex (i : nat) (st : State) : State :=
  mkState (practiceAnswers st) i (userAnswer st) (isEvaluating st) (result st) (score st).

Definition setUserAnswer (a : jsstring) (st : State) : State :=
  mkState (practiceAnswers st) (currentIndex st) a (isEvaluating st) (result st)
    (score st).

(** The component and the store with its storage. *)
Definition Screen : Type := State * Store.St.

Definition component (f : State -> State) : M Screen unit :=
  fun s => (Returned tt, (f (fst s), snd s)).

Definition in_store {A} (c : M Store.St A) : M Screen A :=
  fun s => let (r, store) := c (snd s) in (r, (fst s, store)).

Definition is_translate (e : ErrorType) : bool :=
  match e with Etranslate => true | _ => false end.

Section Practice.
Variable toLowerCase : jsstring -> jsstring.
(** The evaluators of the service, as this screen calls them. *)
Variable evaluateTranslation :
  jsstring -> jsstring -> UserSettings -> Exc TreasuryScreen.PracticeResult.
Variable evaluateAnswer :
  jsstring -> jsstring -> jsstring -> jsstring -> jsstring -> UserSettings
  -> Exc TreasuryScreen.PracticeResult.

(** Lines 180-209: the body of the [try]; [s0] is what the component was
    rendered with. *)
Definition submit_try (s0 : Screen) (currentItem : WrongAnswer) : M Screen unit :=
  let answer := trim (userAnswer (fst s0)) in
  (settings <- in_store (x <- Store.get ;; ret (Store.settings x)) ;;
   evalResult <-
     lift (if is_translate (wa_errorType currentItem)
           then evaluateTranslation answer (wa_sentence currentItem) settings
           else evaluateAnswer answer (wa_correctAnswer currentItem)
                  (wa_sentence currentItem) (wa_sentenceEn currentItem)
                  (wa_meaning currentItem) settings) ;;
   component (setResult (Some evalResult)) ;;;
   if TreasuryScreen.isCorrect evalResult
      || num_geb (TreasuryScreen.score evalResult) (Num 70)
   then
     component (setScore (score (fst s0) + 1)) ;;;
     TreasuryScreen.unawaited (in_store (Store.removeWrongAnswer (wa_id currentItem)))
   else ret tt)%M.

(** Lines 210-221: the [catch]. *)
Definition submit_catch (s0 : Screen) (currentItem : WrongAnswer) (error : JsError)
  : M Screen unit :=
  let isCorrect :=
    JsString.eqb (toLowerCase (trim (userAnswer (fst s0))))
      (toLowerCase (wa_correctAnswer currentItem)) in
  (component
     (setResult
        (Some (TreasuryScreen.mkPracticeResult isCorrect
                 (if isCorrect then Num 100 else Num 0)
                 (if isCorrect then js "Correct!" else js "Wrong answer")))) ;;;
   if isCorrect then
     component (setScore (score (fst s0) + 1)) ;;;
     TreasuryScreen.unawaited (in_store (Store.removeWrongAnswer (wa_id currentItem)))
   else ret tt)%M.

(** Lines 174-225. *)
Definition handleSubmitAnswer : M Screen unit :=
  fun s0 =>
    match practiceAnswers (fst s0) !! currentIndex (fst s0) with
    | None => (Returned tt, s0)
    | Some currentItem =>
        if negb (truthy (trim (userAnswer (fst s0)))) then (Returned tt, s0)
        else
          (component (setIsEvaluating true) ;;;
           finally (try_catch (submit_try s0 currentItem) (submit_catch s0 currentItem))
             (fun s => (setIsEvaluating false (fst s), snd s)))%M s0
    end.

End Practice.

(** Lines 230-238; the result tells whether the list is shown again. *)
Definition handleNext (st : State) : State * bool :=
  if (Z.of_nat (currentIndex st) <? Z.of_nat (length (practiceAnswers st)) - 1)%Z
  then (setResult None (setUserAnswer (js "") (setCurrentIndex (S (currentIndex st)) st)),
        false)
  else (st, true).

End ReviewScreen.

(* ===================================================================== *)
(** * services/gemini.ts: generatePracticeSentence *)
(* ===================================================================== *)

Module PracticeQuestion.

(** The object the function returns, by its properties: after the
    spread of the parsed object it has whatever properties the model
    wrote. *)
Definition question (sentence sentenceZh : jsstring) (options : list jsstring)
    (error : option jsstring) : gmap jsstring value :=
  let q : gmap jsstring value :=
    <[js "sentence" := JStr sentence]>
      (<[js "sentenceZh" := JStr sentenceZh]>
         (<[js "options" := JArr (map JStr options)]> ∅)) in
  match error with
  | Some e => <[js "error" := JStr e]> q
  | None => q
  end.

Section Generate.
Variable net : Network.
Variable toLowerCase : jsstring -> jsstring.
(** The prompt template, by its parameters [word] and [meaning]. *)
Variable practicePrompt : jsstring -> jsstring -> jsstring.
(** The two sorts with the comparator [() => Math.random() - 0.5]. *)
Variable shuffle_others : list jsstring -> list jsstring.
Variable shuffle_options : list jsstring -> list jsstring.

(** Lines 204-206. *)
Definition practice_options (word : jsstring) (existingWords : list jsstring)
  : list jsstring :=
  let otherWords :=
    filter (fun w => toLowerCase w <> toLowerCase word) existingWords in
  let shuffledOthers := take 3 (shuffle_others otherWords) in
  shuffle_options (word :: shuffledOthers).

(** Lines 196-238.  Line 208 computes a string from [replaceWord] and
    [meaning] that is not used afterwards. *)
Definition generatePracticeSentence (word meaning : jsstring)
    (existingWords : list jsstring) (settings : option UserSettings)
  : M (list Request) (gmap jsstring value) :=
  try_catch
    (let options := practice_options word existingWords in
     let prompt := practicePrompt word meaning in
     r <- callAI net prompt settings (mkAIOptions (Some (7 # 10)%Q) (Some 512%Z) None) ;;
     if truthy_opt (error r) then
       ret (question (js "____") meaning options (error r))
     else
       match js_match object_re (text r) with
       | None => ret (question (js "____") meaning options None)
       | Some jsonMatch =>
           data <- lift (JSON.parse (matched jsonMatch)) ;;
           ret (<[js "options" := JArr (map JStr options)]> (Store.own_properties data))
       end)%M
    (fun error =>
       let errorMessage := errorMessage error in
       ret (question (js "____") meaning [] (Some (js "API请求失败: " ++ errorMessage)))).

End Generate.

End PracticeQuestion.

(* ===================================================================== *)
(** * Properties of the gateway *)
(* ===================================================================== *)

Module AiClientSpec.

(** A network on which every request is refused. *)
Definition refusing : Network :=
  mkNetwork
    (fun _ _ _ => Thrown (mkJsError (Some (js "API key not valid")) None))
    (fun _ _ _ _ _ _ => Thrown (mkJsError (Some (js "401 Unauthorized")) None)).

(** A network that answers every request with the same text. *)
Definition answering (answer : jsstring) : Network :=
  mkNetwork (fun _ _ _ => Returned answer) (fun _ _ _ _ _ _ => Returned (Some answer)).

(** The providers the settings type lists. *)
Definition supported (provider : jsstring) : Prop :=
  provider = js "gemini" \/ provider = js "nvidia" \/ provider = js "opencode".

(** The key configured for the selected provider. *)
Definition selected_key (s : UserSettings) : jsstring :=
  if bool_decide (apiProvider s = js "nvidia") then nvidiaApiKey s
  else if bool_decide (apiProvider s = js "opencode") then opencodeApiKey s
  else geminiApiKey s.

Lemma is_provider_ne (p : jsstring) (name : string) :
  p <> js name -> is_provider (Some p) name = false.
Proof.
  intros Hne. unfold is_provider. rewrite bool_decide_eq_false. congruence.
Qed.

Lemma truthy_nonempty (s : jsstring) : s <> [] -> truthy s = true.
Proof. by destruct s. Qed.

(** With the provider [nvidia] or [opencode] and no key the dispatch
    returns before it builds a client. *)
Lemma callAI_try_missing_key (net : Network) (prompt : jsstring) (s : UserSettings)
    (options : AIOptions) (log : list Request) :
  (apiProvider s = js "nvidia" /\ nvidiaApiKey s = []) \/
  (apiProvider s = js "opencode" /\ opencodeApiKey s = []) ->
  exists msg,
    callAI_try net prompt (Some s) options log
    = (Returned (mkAIResponse [] (Some msg)), log).
Proof.
  intros [[Hp Hk] | [Hp Hk]]; unfold callAI_try; cbn [fmap option_fmap option_map];
    rewrite Hp, Hk; eexists; reflexivity.
Qed.

(** With the provider [gemini], or none, the request goes out whatever
    the key is: the branch has no test of the key. *)
Lemma callAI_gemini_requests (net : Network) (prompt : jsstring) (s : UserSettings)
    (options : AIOptions) (log : list Request) :
  apiProvider s = js "gemini" \/ apiProvider s = [] ->
  snd (callAI net prompt (Some s) options log)
  = log ++ [GenerateContent (geminiApiKey s)
              (or_else (Some (geminiModel s)) (js "gemini-2.5-flash-lite")) prompt].
Proof.
  intros Hp. unfold callAI, try_catch, callAI_try.
  cbn [fmap option_fmap option_map].
  assert (Hsel : negb (truthy_opt (Some (apiProvider s)))
                 || is_provider (Some (apiProvider s)) "gemini" = true).
  { destruct Hp as [-> | ->]; reflexivity. }
  rewrite Hsel. unfold bind, gemini_request.
  assert (Hkey : or_else (Some (geminiApiKey s)) (js "") = geminiApiKey s).
  { cbn. by destruct (geminiApiKey s). }
  rewrite Hkey.
  by destruct (generateContent net _ _ _).
Qed.

Definition nvidia_without_key : UserSettings :=
  mkUserSettings (js "nvidia") (js "") (js "") (js "")
    (js "moonshotai/kimi-k2.5") (js "gemini-2.5-flash-lite") (js "big-pickle") (js "lyric").

Definition unnamed_provider : UserSettings :=
  mkUserSettings (js "") (js "k1") (js "k2") (js "k3")
    (js "moonshotai/kimi-k2.5") (js "gemini-2.5-flash-lite") (js "big-pickle") (js "lyric").

Definition claude_provider : UserSettings :=
  mkUserSettings (js "claude") (js "k1") (js "k2") (js "k3")
    (js "moonshotai/kimi-k2.5") (js "gemini-2.5-flash-lite") (js "big-pickle") (js "lyric").

(** C1, as amended: for the providers [nvidia] and [opencode], a call of
    [callAI] with settings whose key for the selected provider is the
    empty string returns a result with the error field set and issues no
    request (the log of requests is as it was). *)
Theorem callAI_missing_key_no_request (net : Network) (prompt : jsstring)
    (s : UserSettings) (options : AIOptions) (log : list Request) :
  apiProvider s = js "nvidia" \/ apiProvider s = js "opencode" ->
  selected_key s = [] ->
  exists msg,
    callAI net prompt (Some s) options log
    = (Returned (mkAIResponse [] (Some msg)), log).
Proof.
  intros Hp Hk.
  destruct (callAI_try_missing_key net prompt s options log) as [msg Hmsg].
  - unfold selected_key in Hk. destruct Hp as [Hp | Hp]; rewrite Hp in Hk.
    + left. split; [done | exact Hk].
    + right. split; [done | exact Hk].
  - exists msg. unfold callAI, try_catch. by rewrite Hmsg.
Qed.

(** The provider [nvidia] without a key: the error comes back and the log
    of requests stays empty. *)
Lemma callAI_missing_key_no_request_witness :
  (apiProvider nvidia_without_key = js "nvidia"
   \/ apiProvider nvidia_without_key = js "opencode")
  /\ selected_key nvidia_without_key = []
  /\ exists msg,
       callAI (answering (js "[]")) (js "hello") (Some nvidia_without_key) no_options []
       = (Returned (mkAIResponse [] (Some msg)), []).
Proof.
  split; [left; reflexivity |]. split; [reflexivity |].
  apply callAI_missing_key_no_request; [left; reflexivity | reflexivity].
Defined.

(** C1 as the specification states it, for every supported provider,
    fails for [gemini]: with the default settings (provider [gemini],
    empty key) a generateContent request is issued. *)
Lemma callAI_gemini_empty_key_counterexample :
  ~ (forall (net : Network) (prompt : jsstring) (s : UserSettings) (options : AIOptions),
        supported (apiProvider s) -> selected_key s = [] ->
        exists r, callAI net prompt (Some s) options [] = (Returned r, [])
                  /\ is_Some (error r)).
Proof.
  intros H.
  destruct (H refusing (js "hello") DEFAULT_SETTINGS no_options) as (r & Hr & _).
  - left. reflexivity.
  - reflexivity.
  - pose proof (callAI_gemini_requests refusing (js "hello") DEFAULT_SETTINGS
                  no_options [] (or_introl eq_refl)) as Hlog.
    rewrite Hr in Hlog. discriminate Hlog.
Qed.

(** The promise of [callAI] is fulfilled, never rejected. *)
Lemma callAI_settles (net : Network) (prompt : jsstring)
    (settings : option UserSettings) (options : AIOptions) (log : list Request) :
  exists r log', callAI net prompt settings options log = (Returned r, log').
Proof.
  unfold callAI, try_catch.
  destruct (callAI_try net prompt settings options log) as [[r | e] log'].
  - by exists r, log'.
  - unfold callAI_catch, ret. eauto.
Qed.

(** C8: [callAI] settles to a returned result for every prompt, settings
    and options; whatever the dispatch inside the [try] throws comes back
    as a result with an empty text and the error message set. *)
Theorem callAI_never_throws (net : Network) (prompt : jsstring)
    (settings : option UserSettings) (options : AIOptions) (log : list Request) :
  (exists r log', callAI net prompt settings options log = (Returned r, log'))
  /\ callAI net prompt settings options log
     = match callAI_try net prompt settings options log with
       | (Returned r, log') => (Returned r, log')
       | (Thrown e, log') =>
           (Returned (mkAIResponse (js "")
                        (Some (js "API请求失败: " ++ errorMessage e))), log')
       end.
Proof.
  unfold callAI, try_catch.
  destruct (callAI_try net prompt settings options log) as [[r | e] log'] eqn:Htry.
  - split; [by exists r, log' | done].
  - split; [| done]. unfold callAI_catch, ret. eauto.
Qed.

(** The dispatch does throw when the provider refuses the request, and
    the gateway turns that into a result. *)
Example callAI_refused :
  fst (callAI_try refusing (js "hello") None no_options []) =
    Thrown (mkJsError (Some (js "API key not valid")) None)
  /\ fst (callAI refusing (js "hello") None no_options []) =
    Returned (mkAIResponse [] (Some (js "API请求失败: API key not valid"))).
Proof. split; reflexivity. Qed.

(** C10, as amended: with an [apiProvider] that is a non-empty string
    other than the three supported names, [callAI] returns the
    unknown-provider result and issues no request. *)
Theorem callAI_unknown_provider (net : Network) (prompt : jsstring)
    (s : UserSettings) (options : AIOptions) (log : list Request) :
  apiProvider s <> [] ->
  ~ supported (apiProvider s) ->
  callAI net prompt (Some s) options log
  = (Returned (mkAIResponse [] (Some (js "Unknown API provider"))), log).
Proof.
  intros Hne Hns. unfold supported in Hns.
  unfold callAI, try_catch, callAI_try. cbn [fmap option_fmap option_map].
  rewrite (is_provider_ne _ "gemini"), (is_provider_ne _ "nvidia"),
    (is_provider_ne _ "opencode") by tauto.
  cbn [truthy_opt]. by rewrite (truthy_nonempty _ Hne).
Qed.

(** The provider name [claude]. *)
Lemma callAI_unknown_provider_witness :
  apiProvider claude_provider <> []
  /\ ~ supported (apiProvider claude_provider)
  /\ callAI (answering (js "[]")) (js "hello") (Some claude_provider) no_options []
     = (Returned (mkAIResponse [] (Some (js "Unknown API provider"))), []).
Proof.
  assert (H1 : apiProvider claude_provider <> []) by discriminate.
  assert (H2 : ~ supported (apiProvider claude_provider)).
  { intros [H | [H | H]]; discriminate H. }
  split; [exact H1 |]. split; [exact H2 |].
  exact (callAI_unknown_provider (answering (js "[]")) (js "hello") claude_provider
           no_options [] H1 H2).
Defined.

(** C10 as the specification states it fails for the empty string: it is
    not one of the three names, and the gateway takes the Gemini branch
    and issues a request. *)
Lemma callAI_empty_provider_counterexample :
  ~ (forall (net : Network) (prompt : jsstring) (s : UserSettings)
            (options : AIOptions) (log : list Request),
        ~ supported (apiProvider s) ->
        callAI net prompt (Some s) options log
        = (Returned (mkAIResponse [] (Some (js "Unknown API provider"))), log)).
Proof.
  intros H.
  assert (Hns : ~ supported (apiProvider unnamed_provider)).
  { intros [Hs | [Hs | Hs]]; discriminate Hs. }
  specialize (H (answering (js "[]")) (js "hello") unnamed_provider no_options [] Hns).
  discriminate H.
Qed.

End AiClientSpec.

(* ===================================================================== *)
(** * Properties of the template parser *)
(* ===================================================================== *)

Module TemplateSpec.

(** The answer of the scenario: three lines, separated by line feeds. *)
Definition scenario_text : jsstring :=
  js "Score: 72/100" ++ [10] ++ js "Correct: " ++ [dquote] ++ js "the answer" ++ [dquote]
  ++ [10] ++ js "Reason: 语法正确".

(** The same answer with a backslash and the letter n, written out, in
    the place of each line feed. *)
Definition scenario_text_escaped : jsstring :=
  js "Score: 72/100\nCorrect: " ++ [dquote] ++ js "the answer" ++ [dquote]
  ++ js "\nReason: 语法正确".

(** A text none of the three patterns matches. *)
Definition unrelated_text : jsstring := js "I cannot grade this.".

(** C6: on the text of the scenario the parser yields
    [{isCorrect: true, score: 72, correctAnswer: 'the answer',
    feedback: '语法正确'}], and on every text [isCorrect] is true exactly
    when the parsed score is at least 70. *)
Theorem parseTranslationResponse_scenario (response userAnswer : jsstring) :
  parseTranslationResponse scenario_text userAnswer
  = mkTranslationEvaluation true (Num 72) (js "the answer") (js "语法正确")
  /\ (isCorrect (parseTranslationResponse response userAnswer) = true
      <-> num_geb (score (parseTranslationResponse response userAnswer)) (Num 70) = true).
Proof.
  split.
  - vm_compute. reflexivity.
  - unfold parseTranslationResponse, parseTranslationResponse_try. cbn. tauto.
Qed.

Example scenario_escaped_parses :
  parseTranslationResponse scenario_text_escaped []
  = mkTranslationEvaluation true (Num 72) (js "the answer") (js "语法正确").
Proof. vm_compute. reflexivity. Qed.

(** C7: the parser is total, and each field degrades on its own: without
    a match of the Score pattern the score is 0, without a match of the
    Correct pattern the correct answer is the empty string, without a
    match of the Reason pattern the feedback is the generic message; the
    body of the [try] returns, so the fallback of the [catch] is never
    the result. *)
Theorem parseTranslationResponse_degrades (response userAnswer : jsstring) :
  let r := parseTranslationResponse response userAnswer in
  parseTranslationResponse_try response userAnswer = Returned r
  /\ (js_match score_re response = None -> score r = Num 0 /\ isCorrect r = false)
  /\ (js_match correct_re response = None -> correctAnswer r = js "")
  /\ (js_match reason_re response = None -> feedback r = js "无法评估答案")
  /\ score r = match js_match score_re response with
               | Some mr => parseInt10 (group 1 mr)
               | None => Num 0
               end
  /\ correctAnswer r = match js_match correct_re response with
                       | Some mr => group 1 mr
                       | None => js ""
                       end
  /\ feedback r = match js_match reason_re response with
                  | Some mr => trim (group 1 mr)
                  | None => js "无法评估答案"
                  end.
Proof.
  unfold parseTranslationResponse, parseTranslationResponse_try. cbn zeta.
  cbn [score correctAnswer feedback isCorrect].
  split; [reflexivity |].
  split; [intros ->; split; reflexivity |].
  split; [intros ->; reflexivity |].
  split; [intros ->; reflexivity |].
  repeat split.
Qed.

(** The three defaults on a text none of the patterns matches. *)
Lemma parseTranslationResponse_degrades_witness :
  js_match score_re unrelated_text = None
  /\ js_match correct_re unrelated_text = None
  /\ js_match reason_re unrelated_text = None
  /\ score (parseTranslationResponse unrelated_text []) = Num 0
  /\ correctAnswer (parseTranslationResponse unrelated_text []) = js ""
  /\ feedback (parseTranslationResponse unrelated_text []) = js "无法评估答案".
Proof.
  assert (Hno1 : js_match score_re unrelated_text = None) by (vm_compute; reflexivity).
  assert (Hno2 : js_match correct_re unrelated_text = None) by (vm_compute; reflexivity).
  assert (Hno3 : js_match reason_re unrelated_text = None) by (vm_compute; reflexivity).
  pose proof (parseTranslationResponse_degrades unrelated_text []) as H.
  cbv zeta in H. destruct H as (_ & Hs & Hc & Hf & _).
  split; [exact Hno1 |]. split; [exact Hno2 |]. split; [exact Hno3 |].
  split; [exact (proj1 (Hs Hno1)) |]. split; [exact (Hc Hno2) | exact (Hf Hno3)].
Defined.

End TemplateSpec.

(* ===================================================================== *)
(** * Properties of the extraction loop *)
(* ===================================================================== *)

Module FactorySpec.
Import FactoryScreen.

Section Policy.
Variable toLowerCase : jsstring -> jsstring.
Variable extract : nat -> list VocabWord.

Local Abbreviation acc := (accumulated toLowerCase extract).

Lemma merge_nil (all : list VocabWord) : merge toLowerCase all [] = all.
Proof. reflexivity. Qed.

Lemma length_zero_nil (l : list VocabWord) : (length l =? 0)%nat = true -> l = [].
Proof. destruct l; [done | discriminate]. Qed.

(** One turn of the [while] loop. *)
Lemma extraction_loop_turn (fuel : nat) (all : list VocabWord) (n : nat) :
  (n < maxRequests)%nat ->
  extraction_loop toLowerCase extract (S fuel) all n
  = if (length (extract (S n)) =? 0)%nat then Some (all, S n)
    else if (length (extract (S n)) <? 10)%nat
         then Some (merge toLowerCase all (extract (S n)), S n)
         else if (25 <=? length (merge toLowerCase all (extract (S n))))%nat
              then Some (merge toLowerCase all (extract (S n)), S n)
              else extraction_loop toLowerCase extract fuel
                     (merge toLowerCase all (extract (S n))) (S n).
Proof.
  intros Hn. cbn [extraction_loop].
  apply Nat.ltb_lt in Hn. rewrite Hn. reflexivity.
Qed.

Lemma extraction_loop_exit (fuel : nat) (all : list VocabWord) :
  extraction_loop toLowerCase extract (S fuel) all 3 = Some (all, 3%nat).
Proof. reflexivity. Qed.

(** The loop as a whole: the number of calls and the words it leaves. *)
Lemma extraction_loop_calls :
  exists n,
    handleProcess_extract toLowerCase extract = Some (acc n, n)
    /\ (1 <= n <= 3)%nat
    /\ (forall i, (1 <= i < n)%nat ->
          (10 <= length (extract i))%nat /\ (length (acc i) < 25)%nat)
    /\ ((n < 3)%nat ->
          (length (extract n) < 10)%nat \/ (25 <= length (acc n))%nat).
Proof.
  unfold handleProcess_extract. change (S maxRequests) with 4%nat.
  rewrite extraction_loop_turn by (unfold maxRequests; lia).
  destruct (length (extract 1) =? 0)%nat eqn:E1.
  { exists 1%nat. cbn [accumulated]. rewrite (length_zero_nil _ E1), merge_nil.
    split; [reflexivity |]. split; [lia |]. split; [intros i Hi; lia |].
    intros _. left. cbn. lia. }
  destruct (length (extract 1) <? 10)%nat eqn:L1.
  { exists 1%nat. cbn [accumulated]. apply Nat.ltb_lt in L1.
    split; [reflexivity |]. split; [lia |]. split; [intros i Hi; lia |].
    intros _. by left. }
  apply Nat.ltb_ge in L1.
  destruct (25 <=? length (merge toLowerCase [] (extract 1)))%nat eqn:T1.
  { exists 1%nat. cbn [accumulated]. apply Nat.leb_le in T1.
    split; [reflexivity |]. split; [lia |]. split; [intros i Hi; lia |].
    intros _. by right. }
  apply Nat.leb_gt in T1.
  assert (H1 : forall i, (1 <= i < 2)%nat ->
            (10 <= length (extract i))%nat /\ (length (acc i) < 25)%nat).
  { intros i Hi. assert (i = 1%nat) as -> by lia. cbn [accumulated]. lia. }
  rewrite extraction_loop_turn by (unfold maxRequests; lia).
  destruct (length (extract 2) =? 0)%nat eqn:E2.
  { exists 2%nat. cbn [accumulated]. rewrite (length_zero_nil _ E2), merge_nil.
    split; [reflexivity |]. split; [lia |]. split; [exact H1 |].
    intros _. left. cbn. lia. }
  destruct (length (extract 2) <? 10)%nat eqn:L2.
  { exists 2%nat. cbn [accumulated]. apply Nat.ltb_lt in L2.
    split; [reflexivity |]. split; [lia |]. split; [exact H1 |].
    intros _. by left. }
  apply Nat.ltb_ge in L2.
  destruct (25 <=? length (merge toLowerCase (merge toLowerCase [] (extract 1))
                             (extract 2)))%nat eqn:T2.
  { exists 2%nat. cbn [accumulated]. apply Nat.leb_le in T2.
    split; [reflexivity |]. split; [lia |]. split; [exact H1 |].
    intros _. by right. }
  apply Nat.leb_gt in T2.
  assert (H2 : forall i, (1 <= i < 3)%nat ->
            (10 <= length (extract i))%nat /\ (length (acc i) < 25)%nat).
  { intros i Hi. assert (i = 1 \/ i = 2)%nat as [-> | ->] by lia;
      cbn [accumulated]; lia. }
  rewrite extraction_loop_turn by (unfold maxRequests; lia).
  exists 3%nat. cbn [accumulated].
  destruct (length (extract 3) =? 0)%nat eqn:E3.
  { rewrite (length_zero_nil _ E3), merge_nil.
    split; [reflexivity |]. split; [lia |]. split; [exact H2 | intros; lia]. }
  destruct (length (extract 3) <? 10)%nat eqn:L3.
  { split; [reflexivity |]. split; [lia |]. split; [exact H2 | intros; lia]. }
  destruct (25 <=? length (merge toLowerCase
                             (merge toLowerCase (merge toLowerCase [] (extract 1))
                                (extract 2)) (extract 3)))%nat eqn:T3.
  { split; [reflexivity |]. split; [lia |]. split; [exact H2 | intros; lia]. }
  rewrite extraction_loop_exit.
  split; [reflexivity |]. split; [lia |]. split; [exact H2 | intros; lia].
Qed.

End Policy.

(** The items of the [i]-th answer that were not accumulated before it,
    duplicates inside the answer counted once. *)
Definition new_items (toLowerCase : jsstring -> jsstring)
    (extract : nat -> list VocabWord) (i : nat) : nat :=
  length (accumulated toLowerCase extract i)
  - length (accumulated toLowerCase extract (i - 1)).

Definition vocab (w : string) : VocabWord :=
  mkVocabWord (js w) (js "") (js "B2") (js "") (js "") (js "") (js "") (js "").

(** Ten items that are one word, then nothing. *)
Definition echoing (i : nat) : list VocabWord :=
  if (i =? 1)%nat then repeat (vocab "serene") 10 else [].

(** Three words at the first call. *)
Definition few (i : nat) : list VocabWord :=
  if (i =? 1)%nat then [vocab "serene"; vocab "Wistful"; vocab "SERENE"]
  else repeat (vocab "other") 12.

(** C3, as amended: the loop makes at least 1 and at most 3 calls of
    [extractVocabulary]; it goes on after a call only if that call
    returned at least 10 items (counted as returned, duplicates and
    already accumulated words included) and fewer than 25 words are
    accumulated; it stops before the third call only after a call that
    returned fewer than 10 items or brought the accumulated words to 25;
    if the first call returns fewer than 10 items the loop ends after
    exactly 1 iteration.  What it leaves are the answers of its calls
    merged without case-insensitive duplicates. *)
Theorem extraction_loop_policy (toLowerCase : jsstring -> jsstring)
    (extract : nat -> list VocabWord) :
  exists n,
    handleProcess_extract toLowerCase extract
    = Some (accumulated toLowerCase extract n, n)
    /\ (1 <= n <= 3)%nat
    /\ (forall i, (1 <= i < n)%nat ->
          (10 <= length (extract i))%nat
          /\ (length (accumulated toLowerCase extract i) < 25)%nat)
    /\ ((n < 3)%nat ->
          (length (extract n) < 10)%nat
          \/ (25 <= length (accumulated toLowerCase extract n))%nat)
    /\ ((length (extract 1) < 10)%nat -> n = 1%nat).
Proof.
  destruct (extraction_loop_calls toLowerCase extract) as (n & Hrun & Hn & Hgo & Hstop).
  exists n. split; [exact Hrun |]. split; [exact Hn |]. split; [exact Hgo |].
  split; [exact Hstop |].
  intros Hfirst. destruct (decide (n = 1%nat)) as [-> | Hne]; [done |].
  destruct (Hgo 1%nat) as [Hlen _]; lia.
Qed.

(** Three words at the first call, one of them twice up to case: one
    call, two words. *)
Lemma extraction_loop_policy_witness :
  (length (few 1) < 10)%nat
  /\ handleProcess_extract toLowerCase_ascii few
     = Some ([vocab "serene"; vocab "Wistful"], 1%nat).
Proof.
  assert (Hfew : (length (few 1) < 10)%nat) by (cbn; lia).
  split; [exact Hfew |].
  destruct (extraction_loop_policy toLowerCase_ascii few) as (n & Hrun & _ & _ & _ & Hone).
  rewrite Hrun, (Hone Hfew). reflexivity.
Defined.

(** C3 as the specification states it, with the threshold on the new
    items of a call: ten copies of one word are one new item, yet the
    loop goes on to a second call. *)
Lemma extraction_loop_new_items_counterexample :
  ~ (forall (toLowerCase : jsstring -> jsstring) (extract : nat -> list VocabWord)
            (all : list VocabWord) (n : nat),
        handleProcess_extract toLowerCase extract = Some (all, n) ->
        (new_items toLowerCase extract 1 < 10)%nat -> n = 1%nat).
Proof.
  intros H.
  specialize (H toLowerCase_ascii echoing [vocab "serene"] 2%nat).
  assert (Hnew : (new_items toLowerCase_ascii echoing 1 < 10)%nat).
  { vm_compute. lia. }
  specialize (H eq_refl Hnew). discriminate H.
Qed.

End FactorySpec.

(* ===================================================================== *)
(** * Properties of the deletion of a song *)
(* ===================================================================== *)

Module HistorySpec.
Import HistoryScreen.

(** The word [id] has a source with the song title [title]. *)
Definition has_source_titled (title : jsstring) (srcs : list Source) (id : jsstring) : Prop :=
  exists s, s ∈ srcs /\ source_wordId s = id /\ source_songTitle s = title.

(** The word [id] has a source among [srcs]. *)
Definition has_source (srcs : list Source) (id : jsstring) : Prop :=
  exists s, s ∈ srcs /\ source_wordId s = id.

(** The collections [handleDeleteSong] computes. *)
Definition after_delete (song : Song) (st : Collections) : Collections :=
  let remaining :=
    filter (fun s => source_songTitle s <> song_title song) (sources st) in
  let wordsToDelete :=
    filter (fun id => id ∉ (list_to_set (map source_wordId remaining) : gset jsstring))
      (elements (list_to_set
                   (map source_wordId
                      (filter (fun s => source_songTitle s = song_title song)
                         (sources st))) : gset jsstring)) in
  mkCollections (filter (fun s => song_id s <> song_id song) (songs st)) remaining
    (filter (fun w => word_id w ∉ wordsToDelete) (words st)).

Lemma storage_keys_distinct :
  StorageService.SONGS_KEY <> StorageService.SOURCES_KEY
  /\ StorageService.SONGS_KEY <> StorageService.WORDS_KEY
  /\ StorageService.SOURCES_KEY <> StorageService.WORDS_KEY.
Proof. repeat split; discriminate. Qed.

(** The three writes succeed one after the other and the new
    collections are returned. *)
Lemma handleDeleteSong_run (song : Song) (st : Collections) (store : AsyncStorage) :
  handleDeleteSong song st store
  = (Returned (after_delete song st),
     <[StorageService.WORDS_KEY :=
         JSON.stringify (JArr (map Word_value (words (after_delete song st))))]>
       (<[StorageService.SOURCES_KEY :=
            JSON.stringify (JArr (map Source_value (sources (after_delete song st))))]>
          (<[StorageService.SONGS_KEY :=
               JSON.stringify (JArr (map Song_value (songs (after_delete song st))))]>
             store))).
Proof. reflexivity. Qed.

Lemma elem_of_wordsToDelete (title : jsstring) (srcs : list Source) (id : jsstring) :
  id ∈ filter (fun id => id ∉ (list_to_set
                  (map source_wordId
                     (filter (fun s => source_songTitle s <> title) srcs)) : gset jsstring))
         (elements (list_to_set
                      (map source_wordId
                         (filter (fun s => source_songTitle s = title) srcs))
                    : gset jsstring))
  <-> has_source_titled title srcs id
      /\ ~ has_source (filter (fun s => source_songTitle s <> title) srcs) id.
Proof.
  rewrite list_elem_of_filter, elem_of_elements, !elem_of_list_to_set,
    !list_elem_of_fmap.
  unfold has_source_titled, has_source. split.
  - intros [Hno (s & Hid & Hs)]. apply list_elem_of_filter in Hs as [Ht Hs]. split.
    + exists s. by repeat split.
    + intros (s' & Hs' & Hid'). apply Hno. by exists s'.
  - intros [(s & Hs & Hid & Ht) Hno]. split.
    + intros (s' & Hid' & Hs'). apply Hno. by exists s'.
    + exists s. split; [done |]. apply list_elem_of_filter. by split.
Qed.

(** The words that stay. *)
Lemma after_delete_words (song : Song) (st : Collections) (w : Word) :
  w ∈ words (after_delete song st)
  <-> w ∈ words st
      /\ ~ (has_source_titled (song_title song) (sources st) (word_id w)
            /\ ~ has_source (sources (after_delete song st)) (word_id w)).
Proof.
  unfold after_delete. cbn [words sources].
  rewrite list_elem_of_filter, elem_of_wordsToDelete. tauto.
Qed.

Definition song_a : Song :=
  mkSong (js "1") (js "Song A") (js "") (js "en") (js "la la") (js "completed") 1.

Definition orphan : Word :=
  mkWord (js "w0") (js "serene") (js "") (js "") (js "") (js "B2") false 1.

Definition shared : Word :=
  mkWord (js "w1") (js "wistful") (js "") (js "") (js "") (js "B2") false 2.

Definition only_a : Word :=
  mkWord (js "w2") (js "ember") (js "") (js "") (js "") (js "B2") false 3.

Definition source_of (id wordId title : string) : Source :=
  mkSource (js id) (js wordId) (js title) (js "") (js "") (js "") (js "") (js "").

(** A word without any source, and nothing else. *)
Definition orphan_state : Collections := mkCollections [song_a] [] [orphan].

(** [shared] occurs in Song A and in Song B, [only_a] in Song A alone. *)
Definition two_songs : Collections :=
  mkCollections [song_a]
    [source_of "s1" "w1" "Song A"; source_of "s2" "w1" "Song B";
     source_of "s3" "w2" "Song A"]
    [shared; only_a].

(** C4, as amended: deleting a song leaves the songs with another id,
    removes exactly the sources whose [songTitle] is the title of the
    song, and removes exactly the words that had a source with that title
    and have no source left; every word that still has a source
    survives, and so does a word that never had a source with that
    title.  The three collections are written to storage. *)
Theorem handleDeleteSong_cascade (song : Song) (st : Collections) (store : AsyncStorage) :
  exists st' store',
    handleDeleteSong song st store = (Returned st', store')
    /\ (forall s, s ∈ songs st' <-> s ∈ songs st /\ song_id s <> song_id song)
    /\ (forall s, s ∈ sources st'
                  <-> s ∈ sources st /\ source_songTitle s <> song_title song)
    /\ (forall w, w ∈ words st'
                  <-> w ∈ words st
                      /\ ~ (has_source_titled (song_title song) (sources st) (word_id w)
                            /\ ~ has_source (sources st') (word_id w)))
    /\ (forall w, w ∈ words st -> has_source (sources st') (word_id w) -> w ∈ words st')
    /\ store' !! StorageService.SONGS_KEY
       = Some (JSON.stringify (JArr (map Song_value (songs st'))))
    /\ store' !! StorageService.SOURCES_KEY
       = Some (JSON.stringify (JArr (map Source_value (sources st'))))
    /\ store' !! StorageService.WORDS_KEY
       = Some (JSON.stringify (JArr (map Word_value (words st')))).
Proof.
  eexists _, _. split; [apply handleDeleteSong_run |].
  destruct storage_keys_distinct as (Hk1 & Hk2 & Hk3).
  split; [| split; [| split; [| split; [| split; [| split]]]]].
  - intros s. unfold after_delete. cbn [songs]. rewrite list_elem_of_filter. tauto.
  - intros s. unfold after_delete. cbn [sources]. rewrite list_elem_of_filter. tauto.
  - apply after_delete_words.
  - intros w Hw Hsrc. apply after_delete_words. split; [done | tauto].
  - rewrite lookup_insert_ne, lookup_insert_ne, lookup_insert_eq by done. done.
  - rewrite lookup_insert_ne, lookup_insert_eq by done. done.
  - by rewrite lookup_insert_eq.
Qed.

(** Deleting Song A keeps the word that Song B shares and removes the
    word of Song A alone. *)
Lemma handleDeleteSong_cascade_witness :
  shared ∈ words two_songs
  /\ exists st', fst (handleDeleteSong song_a two_songs ∅) = Returned st'
                 /\ shared ∈ words st' /\ only_a ∉ words st'.
Proof.
  assert (Hin : shared ∈ words two_songs) by apply list_elem_of_here.
  split; [exact Hin |].
  destruct (handleDeleteSong_cascade song_a two_songs ∅)
    as (st' & store' & Hrun & _ & Hsrc & Hwords & Hkeep & _).
  exists st'. split; [by rewrite Hrun |]. split.
  - apply Hkeep; [exact Hin |].
    exists (source_of "s2" "w1" "Song B"). split; [| reflexivity].
    apply Hsrc. split; [cbn; by repeat constructor | discriminate].
  - intros Hw. apply Hwords in Hw as [_ Hw]. apply Hw. split.
    + exists (source_of "s3" "w2" "Song A"). repeat split. cbn. by repeat constructor.
    + intros (s & Hs & Hid). apply Hsrc in Hs as [Hs Ht].
      apply list_elem_of_In in Hs. cbn in Hs.
      destruct Hs as [<- | [<- | [<- | []]]];
        first [discriminate Hid | by apply Ht].
Defined.

(** C4 as the specification states it, with the words without a
    remaining source as the ones removed: a word that has no source at
    all has none left after the deletion, and it stays. *)
Lemma handleDeleteSong_orphan_counterexample :
  ~ (forall (song : Song) (st st' : Collections) (store : AsyncStorage) (w : Word),
        fst (handleDeleteSong song st store) = Returned st' ->
        w ∈ words st ->
        (w ∈ words st' <-> has_source (sources st') (word_id w))).
Proof.
  intros H.
  specialize (H song_a orphan_state (after_delete song_a orphan_state) ∅ orphan).
  rewrite handleDeleteSong_run in H.
  assert (Hin : orphan ∈ words orphan_state) by apply list_elem_of_here.
  specialize (H eq_refl Hin).
  assert (Hstays : orphan ∈ words (after_delete song_a orphan_state)).
  { apply after_delete_words. split; [exact Hin |].
    intros [(s & Hs & _) _]. cbn in Hs. inversion Hs. }
  apply H in Hstays as (s & Hs & _).
  unfold after_delete in Hs. cbn [sources orphan_state] in Hs.
  apply list_elem_of_filter in Hs as [_ Hs]. inversion Hs.
Qed.

End HistorySpec.

(* ===================================================================== *)
(** * Properties of the practice submission *)
(* ===================================================================== *)

Module TreasurySpec.
Import TreasuryScreen.

Section Submission.
Variable toLowerCase : jsstring -> jsstring.
Variable evaluateTranslation :
  jsstring -> jsstring -> jsstring -> UserSettings -> Exc PracticeResult.
Variable evaluateAnswer :
  jsstring -> jsstring -> jsstring -> jsstring -> jsstring -> UserSettings
  -> Exc PracticeResult.
Variable settings : UserSettings.
Variable now_id now_createdAt : Z.
Variable random : jsstring.

Local Abbreviation submit :=
  (submitPracticeAnswer toLowerCase evaluateTranslation evaluateAnswer settings
     now_id now_createdAt random).
Local Abbreviation result_of :=
  (evaluation_result toLowerCase evaluateTranslation evaluateAnswer settings).

Lemma num_geb_ltb (a b : number) : num_geb a b = true -> num_ltb a b = false.
Proof.
  destruct a, b; cbn; try done. intros H. apply Z.leb_le in H. apply Z.ltb_ge. lia.
Qed.

Ltac run_submit :=
  cbv beta iota zeta delta [bind modify finally try_catch lift ret throw currentWord_get].

(** C5: a submission whose evaluation has a score of 70 or more appends
    no wrong answer and adds 1 to the running score; a submission whose
    evaluation has a score below 70 and is not correct appends one wrong
    answer with that score, the submitted answer and the correct answer,
    and leaves the running score as it is. *)
Theorem submitPracticeAnswer_scores (st : State) (w : Word) (r : PracticeResult) :
  submit_refused st = false ->
  practiceWords st !! practiceIndex st = Some w ->
  result_of st w = Returned r ->
  exists st',
    submit st = (Returned tt, st')
    /\ practiceResult st' = Some r
    /\ (num_geb (score r) (Num 70) = true ->
          wrongAnswers st' = wrongAnswers st
          /\ practiceScore st' = (practiceScore st + 1)%Z)
    /\ (num_ltb (score r) (Num 70) = true -> isCorrect r = false ->
          practiceScore st' = practiceScore st
          /\ exists wa,
               wrongAnswers st' = wrongAnswers st ++ [wa]
               /\ wa_score wa = score r
               /\ wa_userAnswer wa = trim (userAnswer st)
               /\ wa_correctAnswer wa = expected_answer st w
               /\ wa_wordId wa = word_id w).
Proof.
  intros Hguard Hw Hr.
  unfold submitPracticeAnswer. rewrite Hguard, Hw.
  unfold evaluation_result in Hr. unfold expected_answer, submit_try.
  destruct (if is_translate (practiceMode st) then translateQuestion st else None)
    as [question |] eqn:Hq.
  - run_submit. rewrite Hr.
    destruct (isCorrect r || num_geb (score r) (Num 70)) eqn:Hpass; cbn.
    + eexists. split; [reflexivity |]. split; [reflexivity |]. split; [done |].
      intros Hlt Hc. rewrite Hc in Hpass. cbn in Hpass.
      apply num_geb_ltb in Hpass. congruence.
    + apply orb_false_iff in Hpass as [Hc Hge].
      eexists. split; [reflexivity |]. split; [reflexivity |]. split; [congruence |].
      intros _ _. split; [reflexivity |]. eexists. by repeat split.
  - destruct (is_fill (practiceMode st)) eqn:Hfill.
    + destruct (practiceSentence st) as [ps |] eqn:Hps; [| discriminate Hr].
      run_submit.
      rewrite Hr.
      destruct (isCorrect r || num_geb (score r) (Num 70)) eqn:Hpass; cbn.
      * eexists. split; [reflexivity |]. split; [reflexivity |]. split; [done |].
        intros Hlt Hc. rewrite Hc in Hpass. cbn in Hpass.
        apply num_geb_ltb in Hpass. congruence.
      * apply orb_false_iff in Hpass as [Hc Hge].
        eexists. split; [reflexivity |]. split; [reflexivity |]. split; [congruence |].
        intros _ _. split; [reflexivity |]. eexists. by repeat split.
    + run_submit.
      apply (f_equal (fun e => match e with Returned x => x | Thrown _ => r end)) in Hr.
      cbv beta iota in Hr. rewrite Hr.
      assert (Hc : isCorrect r
                   = JsString.eqb (toLowerCase (trim (userAnswer st)))
                       (toLowerCase (word_word w))) by (by rewrite <- Hr).
      assert (Hs : score r
                   = if JsString.eqb (toLowerCase (trim (userAnswer st)))
                          (toLowerCase (word_word w))
                     then Num 100 else Num 0) by (by rewrite <- Hr).
      destruct (JsString.eqb _ _) eqn:Hcmp; cbv beta iota.
      * eexists. split; [reflexivity |]. split; [reflexivity |].
        split; [intros _; split; reflexivity |].
        intros Hlt. rewrite Hs in Hlt. discriminate Hlt.
      * eexists. split; [reflexivity |]. split; [reflexivity |].
        split; [intros Hge; rewrite Hs in Hge; discriminate Hge |].
        intros _ _. split; [reflexivity |]. eexists.
        split; [reflexivity |]. split; [by rewrite Hs |]. repeat split.
Qed.

End Submission.

(** The scenarios: a fill-in-blank answer the evaluator scores at 85,
    and one it scores at 40. *)
Definition practice_word : Word :=
  mkWord (js "w1") (js "serene") (js "宁静") (js "") (js "") (js "B2") false 1.

Definition fill_state : State :=
  mkState Mfill [practice_word] 0
    (Some (mkPracticeSentence (js "The lake was ____.") (js "湖面很宁静。") []))
    None (js " serine ") false None 2 [].

Definition scoring (n : Z) (correct : bool)
  : jsstring -> jsstring -> jsstring -> jsstring -> jsstring -> UserSettings
    -> Exc PracticeResult :=
  fun _ _ _ _ _ _ => Returned (mkPracticeResult correct (Num n) (js "ok")).

Definition no_translation
  : jsstring -> jsstring -> jsstring -> UserSettings -> Exc PracticeResult :=
  fun _ _ _ _ => Thrown TypeError.

(** The two scenarios on [fill_state], whose running score is 2. *)
Lemma submitPracticeAnswer_scores_witness :
  (let st' := snd (submitPracticeAnswer toLowerCase_ascii no_translation
                     (scoring 85 true) DEFAULT_SETTINGS 1700000000000 1700000000001
                     (js "0.5") fill_state) in
   wrongAnswers st' = [] /\ practiceScore st' = 3%Z)
  /\ (let st' := snd (submitPracticeAnswer toLowerCase_ascii no_translation
                        (scoring 40 false) DEFAULT_SETTINGS 1700000000000 1700000000001
                        (js "0.5") fill_state) in
      practiceScore st' = 2%Z
      /\ exists wa, wrongAnswers st' = [wa] /\ wa_score wa = Num 40
                    /\ wa_userAnswer wa = js "serine"
                    /\ wa_correctAnswer wa = js "serene").
Proof.
  assert (Hguard : submit_refused fill_state = false) by (vm_compute; reflexivity).
  split.
  - destruct (submitPracticeAnswer_scores toLowerCase_ascii no_translation
                (scoring 85 true) DEFAULT_SETTINGS 1700000000000 1700000000001 (js "0.5")
                fill_state practice_word (mkPracticeResult true (Num 85) (js "ok"))
                Hguard eq_refl eq_refl)
      as (st' & Hrun & _ & Hpass & _).
    rewrite Hrun. cbn [snd]. exact (Hpass eq_refl).
  - destruct (submitPracticeAnswer_scores toLowerCase_ascii no_translation
                (scoring 40 false) DEFAULT_SETTINGS 1700000000000 1700000000001 (js "0.5")
                fill_state practice_word (mkPracticeResult false (Num 40) (js "ok"))
                Hguard eq_refl eq_refl)
      as (st' & Hrun & _ & _ & Hfail).
    rewrite Hrun. cbn [snd].
    destruct (Hfail eq_refl eq_refl) as (Hscore & wa & Hlog & Hs & Hu & Hc & _).
    split; [exact Hscore |]. exists wa.
    split; [exact Hlog |]. split; [exact Hs |]. split.
    + rewrite Hu. vm_compute. reflexivity.
    + rewrite Hc. vm_compute. reflexivity.
Defined.

End TreasurySpec.

(* ===================================================================== *)
(** * Properties of the response interpreter *)
(* ===================================================================== *)

Module InterpreterSpec.

(** ** What the bracket patterns match *)

(** [greedy p k s caps]: the longest run of [p] at the head of [s] after
    which [k] succeeds. *)
Fixpoint greedy (p : N -> bool) (k : cont) (s : jsstring) (caps : captures)
  : option (jsstring * captures) :=
  match s with
  | c :: s' =>
      if p c then
        match greedy p k s' caps with
        | Some res => Some res
        | None => k s caps
        end
      else k s caps
  | [] => k s caps
  end.

Lemma star_loop_class (p : N -> bool) (k : cont) (n : nat) :
  forall (s : jsstring) (caps : captures),
    (length s <= n)%nat ->
    star_loop (m (RChar p)) k n s caps = greedy p k s caps.
Proof.
  induction n as [| n IH]; intros s caps Hlen.
  - destruct s; [reflexivity | cbn in Hlen; lia].
  - destruct s as [| c s']; [reflexivity |].
    cbn [star_loop m greedy]. destruct (p c); [| reflexivity].
    assert (Hlt : (length s' <? length (c :: s'))%nat = true).
    { apply Nat.ltb_lt. cbn. lia. }
    rewrite Hlt, IH by (cbn in Hlen; lia). reflexivity.
Qed.

(** The two patterns are an opening character, any characters, a
    closing character. *)
Definition bracket_re (o c : N) : regex :=
  seq [RChar (N.eqb o); RStar (RChar cls_sS); RChar (N.eqb c)].

Lemma array_re_brackets : array_re = bracket_re 91 93.
Proof. reflexivity. Qed.

Lemma object_re_brackets : object_re = bracket_re 123 125.
Proof. reflexivity. Qed.

(** The continuation of the star in a bracket pattern: the closing
    character, then the end of the pattern. *)
Definition closing (c : N) : cont :=
  fun s caps => m (RChar (N.eqb c)) s caps (fun s1 caps1 => Some (s1, caps1)).

Lemma cls_sS_any (c : N) : cls_sS c = true.
Proof. unfold cls_sS. apply orb_negb_r. Qed.

Lemma greedy_no_closing (c : N) (s : jsstring) (caps : captures) :
  c ∉ s -> greedy cls_sS (closing c) s caps = None.
Proof.
  induction s as [| x s IH]; intros Hnot; [reflexivity |].
  cbn [greedy]. rewrite cls_sS_any, IH by set_solver.
  cbn. destruct (N.eqb_spec c x) as [-> | Hne]; [set_solver | reflexivity].
Qed.

Lemma greedy_last_closing (c : N) (body suffix : jsstring) (caps : captures) :
  c ∉ suffix ->
  greedy cls_sS (closing c) (body ++ c :: suffix) caps = Some (suffix, caps).
Proof.
  intros Hnot. induction body as [| b body IH]; cbn [app greedy]; rewrite cls_sS_any.
  - rewrite greedy_no_closing by done. cbn. by rewrite N.eqb_refl.
  - by rewrite IH.
Qed.

(** The pattern at the head of a text. *)
Lemma bracket_re_head (o c x : N) (s : jsstring) :
  m (bracket_re o c) (x :: s) [] (fun s1 caps1 => Some (s1, caps1))
  = if o =? x then greedy cls_sS (closing c) s [] else None.
Proof.
  cbn [bracket_re seq m]. destruct (o =? x); [| reflexivity].
  apply star_loop_class. lia.
Qed.

Lemma take_payload (o c : N) (body suffix : jsstring) :
  take (length (o :: body ++ c :: suffix) - length suffix) (o :: body ++ c :: suffix)
  = o :: body ++ [c].
Proof.
  replace (o :: body ++ c :: suffix) with ((o :: body ++ [c]) ++ suffix)
    by (cbn; by rewrite <- app_assoc).
  rewrite length_app, Nat.add_sub. apply take_app_length.
Qed.

(** A text with the opening character first at the end of [prefix] and
    the closing character last before [suffix]: the match is what lies
    between them, both included. *)
Lemma search_bracket_span (o c : N) (prefix body suffix : jsstring) (idx : nat) :
  o ∉ prefix -> c ∉ suffix ->
  search (bracket_re o c) (prefix ++ o :: body ++ c :: suffix) idx
  = Some (mkMatch (idx + length prefix) (o :: body ++ [c]) []).
Proof.
  intros Ho Hc. revert idx.
  induction prefix as [| x prefix IH]; intros idx; cbn [app search].
  - rewrite bracket_re_head, N.eqb_refl, greedy_last_closing by done.
    rewrite take_payload. cbn. by rewrite Nat.add_0_r.
  - rewrite bracket_re_head.
    destruct (N.eqb_spec o x) as [-> | Hne]; [set_solver |].
    rewrite IH by set_solver. cbn. do 2 f_equal. lia.
Qed.

(** [text] has an opening character with a closing character somewhere
    after it. *)
Definition has_span (o c : N) (text : jsstring) : Prop :=
  exists a b d, text = a ++ o :: b ++ c :: d.

Lemma search_no_span (o c : N) (text : jsstring) (idx : nat) :
  ~ has_span o c text -> search (bracket_re o c) text idx = None.
Proof.
  revert idx. induction text as [| x text IH]; intros idx Hno; [reflexivity |].
  cbn [search]. rewrite bracket_re_head.
  assert (Htail : ~ has_span o c text).
  { intros (a & b & d & ->). apply Hno. by exists (x :: a), b, d. }
  destruct (N.eqb_spec o x) as [<- | Hne].
  - rewrite greedy_no_closing, IH; [done | done |].
    intros Hin. apply list_elem_of_split in Hin as (b & d & ->).
    apply Hno. by exists [], b, d.
  - by rewrite IH.
Qed.

(** A span starts at a first opening character and ends at a last
    closing character. *)
Lemma span_decompose (o c : N) (text : jsstring) :
  has_span o c text ->
  exists prefix body suffix,
    text = prefix ++ o :: body ++ c :: suffix /\ (o ∉ prefix) /\ (c ∉ suffix).
Proof.
  intros (a & b & d & ->).
  destruct (list_elem_of_split_l (a ++ [o]) o) as (prefix & q & Hpq & Hp).
  { apply elem_of_app. right. apply list_elem_of_here. }
  destruct (list_elem_of_split_r (q ++ b ++ c :: d) c) as (body & suffix & Hbs & Hs).
  { apply elem_of_app. right. apply elem_of_app. right. apply list_elem_of_here. }
  exists prefix, body, suffix. split; [| by split].
  rewrite <- Hbs.
  change (a ++ o :: b ++ c :: d) with (a ++ [o] ++ b ++ c :: d).
  rewrite (app_assoc a [o]), Hpq, <- app_assoc. reflexivity.
Qed.

(** The match of a bracket pattern, in full: there is one exactly when
    the text has a span, and it is the slice from the first opening to
    the last closing character. *)
Lemma js_match_bracket (o c : N) (text : jsstring) :
  (js_match (bracket_re o c) text = None <-> ~ has_span o c text)
  /\ (has_span o c text ->
      exists prefix body suffix,
        text = prefix ++ o :: body ++ c :: suffix /\ (o ∉ prefix) /\ (c ∉ suffix)
        /\ js_match (bracket_re o c) text
           = Some (mkMatch (length prefix) (o :: body ++ [c]) [])).
Proof.
  assert (Hsome : has_span o c text ->
            exists prefix body suffix,
              text = prefix ++ o :: body ++ c :: suffix /\ (o ∉ prefix) /\ (c ∉ suffix)
              /\ js_match (bracket_re o c) text
                 = Some (mkMatch (length prefix) (o :: body ++ [c]) [])).
  { intros Hspan.
    destruct (span_decompose o c text Hspan) as (prefix & body & suffix & -> & Ho & Hc).
    exists prefix, body, suffix. repeat split; try done.
    unfold js_match. by rewrite search_bracket_span. }
  split; [| exact Hsome]. split.
  - intros Hnone Hspan. destruct (Hsome Hspan) as (? & ? & ? & _ & _ & _ & Hm).
    rewrite Hm in Hnone. discriminate Hnone.
  - apply search_no_span.
Qed.

(** ** The interpreter on a payload inside prose *)

Lemma extractVocabulary_parse_span (prefix body suffix : jsstring) :
  91 ∉ prefix -> 93 ∉ suffix ->
  extractVocabulary_parse (prefix ++ 91 :: body ++ 93 :: suffix)
  = extractVocabulary_parse (91 :: body ++ [93]).
Proof.
  intros Ho Hc. unfold extractVocabulary_parse, js_match.
  rewrite array_re_brackets, search_bracket_span by done.
  pose proof (search_bracket_span 91 93 [] body [] 0) as Hself.
  cbn [app] in Hself. rewrite Hself by set_solver. reflexivity.
Qed.

Lemma evaluateAnswer_parse_span (prefix body suffix : jsstring) :
  123 ∉ prefix -> 125 ∉ suffix ->
  evaluateAnswer_parse (prefix ++ 123 :: body ++ 125 :: suffix)
  = JSON.parse (123 :: body ++ [125]).
Proof.
  intros Ho Hc. unfold evaluateAnswer_parse, js_match.
  rewrite object_re_brackets, search_bracket_span by done. reflexivity.
Qed.

Lemma extractVocabulary_parse_self (body : jsstring) :
  extractVocabulary_parse (91 :: body ++ [93])
  = match JSON.parse (91 :: body ++ [93]) with
    | Returned words =>
        Returned (mkVocabularyResult (match words with JArr vs => vs | _ => [] end) None)
    | Thrown e => Thrown e
    end.
Proof.
  unfold extractVocabulary_parse, js_match. rewrite array_re_brackets.
  pose proof (search_bracket_span 91 93 [] body [] 0) as Hself.
  cbn [app] in Hself. rewrite Hself by set_solver. reflexivity.
Qed.

(** A character is not in a text when a search does not find it. *)
Lemma absent_check (c : N) (s : jsstring) :
  forallb (fun x => negb (x =? c)) s = true -> c ∉ s.
Proof.
  intros Hall Hin. apply list_elem_of_In in Hin.
  rewrite forallb_forall in Hall. specialize (Hall c Hin).
  by rewrite N.eqb_refl in Hall.
Qed.

(** [extractVocabulary] and [evaluateAnswer] as wholes: the gateway
    answers, and the result is the interpretation of its answer; nothing
    is thrown. *)
Lemma extractVocabulary_run (net : Network) (getSystemPrompt : jsstring -> jsstring)
    (lyrics songTitle : jsstring) (blacklist : list jsstring)
    (settings : option UserSettings) (log : list Request) :
  exists r log',
    callAI net (extractVocabulary_prompt getSystemPrompt lyrics songTitle blacklist
                  settings)
      settings (mkAIOptions (Some 1%Q) (Some 16384%Z) None) log
    = (Returned r, log')
    /\ extractVocabulary net getSystemPrompt lyrics songTitle blacklist settings log
       = (Returned (extractVocabulary_interpret r), log').
Proof.
  unfold extractVocabulary, try_catch, bind, lift, ret.
  destruct (AiClientSpec.callAI_settles net
              (extractVocabulary_prompt getSystemPrompt lyrics songTitle blacklist
                 settings)
              settings (mkAIOptions (Some 1%Q) (Some 16384%Z) None) log)
    as (r & log' & Hcall).
  exists r, log'. split; [exact Hcall |]. rewrite Hcall.
  unfold extractVocabulary_interpret. by destruct (extractVocabulary_try r).
Qed.

Lemma evaluateAnswer_run (net : Network)
    (answerPrompt : jsstring -> jsstring -> jsstring -> jsstring -> jsstring -> jsstring)
    (userAnswer correctAnswer sentence sentenceEn meaning : jsstring)
    (settings : option UserSettings) (log : list Request) :
  exists r log',
    callAI net (answerPrompt userAnswer correctAnswer sentence sentenceEn meaning)
      settings (mkAIOptions (Some (3 # 10)%Q) (Some 512%Z) None) log
    = (Returned r, log')
    /\ evaluateAnswer net answerPrompt userAnswer correctAnswer sentence sentenceEn
         meaning settings log
       = (Returned (evaluateAnswer_interpret r), log').
Proof.
  unfold evaluateAnswer, try_catch, bind, lift, ret.
  destruct (AiClientSpec.callAI_settles net
              (answerPrompt userAnswer correctAnswer sentence sentenceEn meaning)
              settings (mkAIOptions (Some (3 # 10)%Q) (Some 512%Z) None) log)
    as (r & log' & Hcall).
  exists r, log'. split; [exact Hcall |]. rewrite Hcall.
  unfold evaluateAnswer_interpret. by destruct (evaluateAnswer_try r).
Qed.

(** The non-empty contiguous pieces of a text. *)
Fixpoint prefixes (s : jsstring) : list jsstring :=
  match s with
  | [] => []
  | c :: s' => [c] :: map (cons c) (prefixes s')
  end.

Fixpoint substrings (s : jsstring) : list jsstring :=
  match s with
  | [] => []
  | _ :: s' => prefixes s ++ substrings s'
  end.

(** A piece that is a JSON array: it starts with the opening bracket,
    ends with the closing one and parses to an array. *)
Definition is_json_array (b : jsstring) : bool :=
  match b, last b, JSON.parse b with
  | 91 :: _, Some 93, Returned (JArr _) => true
  | _, _, _ => false
  end.

Definition json_arrays_in (text : jsstring) : list jsstring :=
  filter (fun b => is_json_array b = true) (substrings text).

(** An answer with prose on both sides of the array. *)
Definition prose_before : jsstring := js "Here are the words: ".
Definition prose_after : jsstring := js " (2 words, done)".
Definition array_body : jsstring :=
  [123; 34] ++ js "word" ++ [34; 58; 34] ++ js "serene" ++ [34; 125; 44]
  ++ [123; 34] ++ js "word" ++ [34; 58; 34] ++ js "wistful" ++ [34; 125].

(** C2, as amended.  For a completion [prefix ++ payload ++ suffix] where
    the payload goes from an opening to a closing bracket, the prose
    before it has no opening bracket and the prose after it no closing
    bracket, the interpreter parses exactly the payload: for square
    brackets, [extractVocabulary] returns the parsed array as [words];
    for braces, [evaluateAnswer] returns the parsed object as it is.
    For a text without an opening bracket that has a closing bracket
    somewhere after it, it returns the fallback, an empty [words] array
    or the default evaluation, and does not throw. *)
Theorem response_interpreter_extracts (prefix body suffix raw : jsstring)
    (vs : list value) (v : value) :
  (91 ∉ prefix -> 93 ∉ suffix ->
   JSON.parse (91 :: body ++ [93]) = Returned (JArr vs) ->
   extractVocabulary_interpret
     (mkAIResponse (prefix ++ 91 :: body ++ 93 :: suffix) None)
   = mkVocabularyResult vs None)
  /\ (123 ∉ prefix -> 125 ∉ suffix ->
      JSON.parse (123 :: body ++ [125]) = Returned v ->
      evaluateAnswer_interpret
        (mkAIResponse (prefix ++ 123 :: body ++ 125 :: suffix) None)
      = v)
  /\ (~ has_span 91 93 raw ->
      extractVocabulary_try (mkAIResponse raw None)
      = Returned (mkVocabularyResult [] None)
      /\ extractVocabulary_interpret (mkAIResponse raw None)
         = mkVocabularyResult [] None)
  /\ (~ has_span 123 125 raw ->
      evaluateAnswer_try (mkAIResponse raw None)
      = Returned (evaluation_object false 0 (js "无法评估答案"))
      /\ evaluateAnswer_interpret (mkAIResponse raw None)
         = evaluation_object false 0 (js "无法评估答案")).
Proof.
  split; [| split; [| split]].
  - intros Ho Hc Hparse.
    unfold extractVocabulary_interpret, extractVocabulary_try. cbn [error text truthy_opt].
    assert (Htruthy : truthy (prefix ++ 91 :: body ++ 93 :: suffix) = true).
    { by destruct prefix. }
    rewrite Htruthy. cbn [negb orb].
    rewrite extractVocabulary_parse_span, extractVocabulary_parse_self, Hparse by done.
    reflexivity.
  - intros Ho Hc Hparse.
    unfold evaluateAnswer_interpret, evaluateAnswer_try. cbn [error text truthy_opt].
    by rewrite evaluateAnswer_parse_span, Hparse.
  - intros Hno.
    assert (Htry : extractVocabulary_try (mkAIResponse raw None)
                   = Returned (mkVocabularyResult [] None)).
    { unfold extractVocabulary_try. cbn [error text truthy_opt orb].
      destruct (truthy raw); [| reflexivity]. cbn [negb].
      unfold extractVocabulary_parse, js_match.
      by rewrite array_re_brackets, search_no_span. }
    split; [exact Htry |]. unfold extractVocabulary_interpret. by rewrite Htry.
  - intros Hno.
    assert (Htry : evaluateAnswer_try (mkAIResponse raw None)
                   = Returned (evaluation_object false 0 (js "无法评估答案"))).
    { unfold evaluateAnswer_try. cbn [error text truthy_opt].
      unfold evaluateAnswer_parse, js_match.
      by rewrite object_re_brackets, search_no_span. }
    split; [exact Htry |]. unfold evaluateAnswer_interpret. by rewrite Htry.
Qed.

(** An array of two words between two pieces of prose, and an answer
    without any bracket. *)
Lemma response_interpreter_extracts_witness :
  words (extractVocabulary_interpret
           (mkAIResponse (prose_before ++ 91 :: array_body ++ 93 :: prose_after) None))
  = [JObj [(js "word", JStr (js "serene"))]; JObj [(js "word", JStr (js "wistful"))]]
  /\ extractVocabulary_interpret (mkAIResponse (js "Sorry, no words.") None)
     = mkVocabularyResult [] None.
Proof.
  pose proof (response_interpreter_extracts prose_before array_body prose_after
                (js "Sorry, no words.")
                [JObj [(js "word", JStr (js "serene"))];
                 JObj [(js "word", JStr (js "wistful"))]] JNull)
    as (Harr & _ & Hnone & _).
  split.
  - rewrite Harr; [reflexivity | | |].
    + apply absent_check. vm_compute. reflexivity.
    + apply absent_check. vm_compute. reflexivity.
    + vm_compute. reflexivity.
  - apply Hnone. intros (a & b & d & Heq).
    assert (Hin : 91 ∈ a ++ 91 :: b ++ 93 :: d).
    { apply elem_of_app. right. apply list_elem_of_here. }
    rewrite <- Heq in Hin. revert Hin. apply absent_check. vm_compute. reflexivity.
Defined.

(** C2 as the specification states it, for arbitrary prose around the
    payload: in the text [[1]]] the only JSON array is [[1]], and the
    slice runs on to the last closing bracket, so the parse fails and
    the words are lost. *)
Lemma response_interpreter_prose_counterexample :
  ~ (forall (prefix payload suffix : jsstring) (vs : list value),
        json_arrays_in (prefix ++ payload ++ suffix) = [payload] ->
        JSON.parse payload = Returned (JArr vs) ->
        extractVocabulary_interpret (mkAIResponse (prefix ++ payload ++ suffix) None)
        = mkVocabularyResult vs None).
Proof.
  intros H.
  specialize (H [] (js "[1]") (js "]") [JNum 1]).
  assert (Hsingle : json_arrays_in ([] ++ js "[1]" ++ js "]") = [js "[1]"]).
  { vm_compute. reflexivity. }
  specialize (H Hsingle eq_refl).
  vm_compute in H. discriminate H.
Qed.

End InterpreterSpec.

(* ===================================================================== *)
(** * [JSON.parse] after [JSON.stringify] *)
(* ===================================================================== *)

Module JsonSpec.

(** ** Numbers *)

Lemma digits_value_app (ds : jsstring) (d : N) :
  digits_value (ds ++ [d]) = digits_value ds * 10 + (d - 48).
Proof. unfold digits_value. by rewrite fold_left_app. Qed.

Lemma digits_fuel_S (fuel : nat) (n : N) (acc : jsstring) :
  digits_fuel (S fuel) n acc
  = if n <? 10 then (48 + n mod 10) :: acc
    else digits_fuel fuel (n / 10) ((48 + n mod 10) :: acc).
Proof. reflexivity. Qed.

(** With enough fuel [digits_fuel] puts the digits of [n] before [acc]:
    digits only, of value [n], without a leading zero. *)
Lemma digits_fuel_spec (f : nat) :
  forall (n : N) (acc : jsstring),
    n < 2 ^ N.of_nat (S f) ->
    exists d ds,
      digits_fuel (S f) n acc = (d :: ds) ++ acc
      /\ Forall (fun c => is_digit c = true) (d :: ds)
      /\ digits_value (d :: ds) = n
      /\ (n <> 0 -> d <> 48).
Proof.
  assert (Hone : forall (n : N) (acc : jsstring), n < 10 ->
            exists d ds,
              (48 + n mod 10) :: acc = (d :: ds) ++ acc
              /\ Forall (fun c => is_digit c = true) (d :: ds)
              /\ digits_value (d :: ds) = n
              /\ (n <> 0 -> d <> 48)).
  { intros n acc Hlt. exists (48 + n mod 10), [].
    rewrite N.mod_small by lia. split; [reflexivity |]. split; [| split].
    - repeat constructor. unfold is_digit. apply andb_true_iff.
      split; apply N.leb_le; lia.
    - unfold digits_value. cbn. lia.
    - lia. }
  induction f as [| f IH]; intros n acc Hn.
  - change (2 ^ N.of_nat 1) with 2 in Hn.
    assert (Hlt : (n <? 10) = true) by (apply N.ltb_lt; lia).
    rewrite digits_fuel_S, Hlt. apply Hone. lia.
  - rewrite digits_fuel_S. destruct (n <? 10) eqn:Hlt.
    + apply N.ltb_lt in Hlt. by apply Hone.
    + apply N.ltb_ge in Hlt.
      assert (Hdiv : n / 10 < 2 ^ N.of_nat (S f)).
      { apply N.Div0.div_lt_upper_bound.
        replace (N.of_nat (S (S f))) with (N.succ (N.of_nat (S f))) in Hn by lia.
        rewrite N.pow_succ_r' in Hn.
        set (p := 2 ^ N.of_nat (S f)) in *. clearbody p. lia. }
      destruct (IH (n / 10) ((48 + n mod 10) :: acc) Hdiv)
        as (d & ds & Hrun & Hall & Hval & Hlead).
      exists d, (ds ++ [48 + n mod 10]).
      assert (Hmod : n mod 10 < 10) by (apply N.mod_lt; lia).
      pose proof (N.div_mod n 10 ltac:(lia)) as Hdm.
      clear Hn Hdiv IH Hone.
      set (q := n / 10) in *. set (r := n mod 10) in *. clearbody q r.
      split; [| split; [| split]].
      * rewrite Hrun. cbn. by rewrite <- app_assoc.
      * change (d :: ds ++ [48 + r]) with ((d :: ds) ++ [48 + r]).
        apply Forall_app. split; [done |]. repeat constructor.
        unfold is_digit. apply andb_true_iff. split; apply N.leb_le; lia.
      * change (d :: ds ++ [48 + r]) with ((d :: ds) ++ [48 + r]).
        rewrite digits_value_app, Hval. lia.
      * intros _. apply Hlead. lia.
Qed.

Lemma digits_spec (n : N) :
  exists d ds,
    digits n = d :: ds
    /\ Forall (fun c => is_digit c = true) (d :: ds)
    /\ digits_value (d :: ds) = n
    /\ (n <> 0 -> d <> 48).
Proof.
  unfold digits.
  destruct (digits_fuel_spec (N.to_nat (N.log2 n)) n []) as (d & ds & Hrun & H).
  - destruct (N.eq_dec n 0) as [-> | Hne]; [done |].
    replace (N.of_nat (S (N.to_nat (N.log2 n)))) with (N.succ (N.log2 n)).
    + apply N.log2_spec. lia.
    + rewrite Nat2N.inj_succ, N2Nat.id. reflexivity.
  - exists d, ds. rewrite Hrun, app_nil_r. by split.
Qed.

(** What follows a value inside a text: nothing, a comma or a closing
    bracket. *)
Definition at_delimiter (rest : jsstring) : Prop :=
  match rest with
  | [] => True
  | c :: _ => c = 44 \/ c = 93 \/ c = 125
  end.

Lemma span_digits_app (ds rest : jsstring) :
  Forall (fun c => is_digit c = true) ds -> at_delimiter rest ->
  span_digits (ds ++ rest) = (ds, rest).
Proof.
  intros Hds Hrest. induction Hds as [| d ds Hd _ IH]; cbn [app span_digits].
  - destruct rest as [| c r]; [reflexivity |].
    cbn in Hrest. cbn [span_digits].
    destruct Hrest as [-> | [-> | ->]]; reflexivity.
  - by rewrite Hd, IH.
Qed.

Lemma is_digit_range (c : N) : is_digit c = true -> 48 <= c <= 57.
Proof.
  unfold is_digit. intros H. apply andb_true_iff in H as [H1 H2].
  apply N.leb_le in H1, H2. lia.
Qed.

Lemma eqb_ne (a b : N) : a <> b -> (a =? b) = false.
Proof. apply N.eqb_neq. Qed.

(** The tail of [parse_number] once the integer part is read. *)
Lemma parse_number_digits (d : N) (ds rest : jsstring) :
  Forall (fun c => is_digit c = true) (d :: ds) ->
  (ds <> [] -> d <> 48) ->
  at_delimiter rest ->
  parse_number (d :: ds ++ rest) = Some (JNum (Z.of_N (digits_value (d :: ds))), rest)
  /\ parse_number (45 :: d :: ds ++ rest)
     = Some (JNum (- Z.of_N (digits_value (d :: ds))), rest).
Proof.
  intros Hall Hlead Hrest.
  pose proof (is_digit_range d (Forall_inv Hall)) as Hd.
  assert (Hspan : span_digits (d :: ds ++ rest) = (d :: ds, rest)).
  { by apply (span_digits_app (d :: ds)). }
  assert (Hzero : (d =? 48) && match ds with [] => false | _ :: _ => true end = false).
  { destruct ds as [| d' ds']; [by rewrite andb_false_r |].
    rewrite eqb_ne by (apply Hlead; discriminate). reflexivity. }
  assert (Hrest' : rest = [] \/ exists c r, rest = c :: r /\ (c = 44 \/ c = 93 \/ c = 125)).
  { destruct rest as [| c r]; [by left | right; by exists c, r]. }
  split.
  - unfold parse_number. rewrite (eqb_ne d 45) by lia. cbv beta iota zeta.
    rewrite Hspan. cbv beta iota zeta. rewrite Hzero.
    destruct Hrest' as [-> | (c & r & -> & [-> | [-> | ->]])]; reflexivity.
  - unfold parse_number. rewrite N.eqb_refl. cbv beta iota zeta.
    rewrite Hspan. cbv beta iota zeta. rewrite Hzero.
    destruct Hrest' as [-> | (c & r & -> & [-> | [-> | ->]])]; reflexivity.
Qed.

Lemma parse_number_toString (z : Z) (rest : jsstring) :
  at_delimiter rest ->
  parse_number (Z_toString z ++ rest) = Some (JNum z, rest).
Proof.
  intros Hrest. destruct z as [| p | p]; cbn [Z_toString].
  - destruct (parse_number_digits 48 [] rest) as [H _]; try done.
    repeat constructor.
  - destruct (digits_spec (Npos p)) as (d & ds & -> & Hall & Hval & Hlead).
    destruct (parse_number_digits d ds rest) as [H _]; try done.
    { intros _. by apply Hlead. }
    cbn [app]. rewrite H, Hval. reflexivity.
  - destruct (digits_spec (Npos p)) as (d & ds & -> & Hall & Hval & Hlead).
    destruct (parse_number_digits d ds rest) as [_ H]; try done.
    { intros _. by apply Hlead. }
    cbn [app]. rewrite H, Hval. reflexivity.
Qed.

(** The first character of a printed integer. *)
Lemma Z_toString_head (z : Z) :
  exists c r, Z_toString z = c :: r /\ (is_digit c = true \/ c = 45).
Proof.
  destruct z as [| p | p]; cbn [Z_toString].
  - exists 48, []. split; [done | by left].
  - destruct (digits_spec (Npos p)) as (d & ds & -> & Hall & _).
    exists d, ds. split; [done |]. left. apply (Forall_inv Hall).
  - eexists 45, _. split; [done | by right].
Qed.

(** ** Strings *)

Lemma hex_value_digit (d : N) : d < 16 -> hex_value (hex_digit d) = Some d.
Proof.
  intros Hd. unfold hex_digit, hex_value, is_digit.
  destruct (d <? 10) eqn:Hlt.
  - apply N.ltb_lt in Hlt.
    assert (H1 : (48 <=? 48 + d) = true) by (apply N.leb_le; lia).
    assert (H2 : (48 + d <=? 57) = true) by (apply N.leb_le; lia).
    rewrite H1, H2. cbn. f_equal. lia.
  - apply N.ltb_ge in Hlt.
    assert (H1 : (87 + d <=? 57) = false) by (apply N.leb_gt; lia).
    assert (H2 : (97 <=? 87 + d) = true) by (apply N.leb_le; lia).
    assert (H3 : (87 + d <=? 102) = true) by (apply N.leb_le; lia).
    rewrite H1, H2, H3, andb_false_r. cbn. f_equal. lia.
Qed.

Lemma hex4_escape (c : N) :
  c < 65536 ->
  hex4 (hex_digit (c / 4096)) (hex_digit ((c / 256) mod 16))
       (hex_digit ((c / 16) mod 16)) (hex_digit (c mod 16)) = Some c.
Proof.
  intros Hc. unfold hex4.
  assert (E1 : c / 256 = c / 16 / 16) by (by rewrite N.Div0.div_div).
  assert (E2 : c / 4096 = c / 16 / 16 / 16) by (by rewrite !N.Div0.div_div).
  rewrite E1, E2.
  pose proof (N.div_mod c 16 ltac:(lia)) as D0.
  pose proof (N.div_mod (c / 16) 16 ltac:(lia)) as D1.
  pose proof (N.div_mod (c / 16 / 16) 16 ltac:(lia)) as D2.
  assert (H0 : c mod 16 < 16) by (apply N.mod_lt; lia).
  assert (H1 : (c / 16) mod 16 < 16) by (apply N.mod_lt; lia).
  assert (H2 : (c / 16 / 16) mod 16 < 16) by (apply N.mod_lt; lia).
  clear E1 E2.
  set (r0 := c mod 16) in *. set (r1 := (c / 16) mod 16) in *.
  set (r2 := (c / 16 / 16) mod 16) in *. set (q3 := c / 16 / 16 / 16) in *.
  set (q2 := c / 16 / 16) in *. set (q1 := c / 16) in *.
  clearbody r0 r1 r2 q3 q2 q1.
  rewrite !hex_value_digit by lia. f_equal. lia.
Qed.

Lemma parse_chars_escape_u (c : N) (rest : jsstring) :
  c < 65536 ->
  parse_chars (escape_u c ++ rest) = cons_char c (parse_chars rest).
Proof.
  intros Hc. unfold escape_u. cbn [app parse_chars].
  change (92 =? 34) with false. change (92 =? 92) with true.
  change (117 =? 117) with true. cbv iota.
  by rewrite hex4_escape.
Qed.

Lemma parse_chars_raw (c : N) (rest : jsstring) :
  c <> 34 -> c <> 92 -> 32 <= c ->
  parse_chars (c :: rest) = cons_char c (parse_chars rest).
Proof.
  intros H1 H2 H3. cbn [parse_chars].
  rewrite (eqb_ne c 34), (eqb_ne c 92) by done.
  assert (Hlt : (c <? 32) = false) by (apply N.ltb_ge; lia).
  by rewrite Hlt.
Qed.

Lemma parse_chars_quote_cu (c : N) (rest : jsstring) :
  parse_chars (quote_cu c ++ rest) = cons_char c (parse_chars rest).
Proof.
  unfold quote_cu.
  destruct (N.eqb_spec c 34) as [-> | H34]; [reflexivity |].
  destruct (N.eqb_spec c 92) as [-> | H92]; [reflexivity |].
  destruct (N.eqb_spec c 8) as [-> | H8]; [reflexivity |].
  destruct (N.eqb_spec c 12) as [-> | H12]; [reflexivity |].
  destruct (N.eqb_spec c 10) as [-> | H10]; [reflexivity |].
  destruct (N.eqb_spec c 13) as [-> | H13]; [reflexivity |].
  destruct (N.eqb_spec c 9) as [-> | H9]; [reflexivity |].
  destruct (c <? 32) eqn:Hlt.
  - apply N.ltb_lt in Hlt. apply parse_chars_escape_u. lia.
  - apply N.ltb_ge in Hlt. by apply parse_chars_raw.
Qed.

Lemma surrogate_range (c : N) :
  is_high_surrogate c = true \/ is_low_surrogate c = true -> 55296 <= c <= 57343.
Proof.
  unfold is_high_surrogate, is_low_surrogate.
  intros [H | H]; apply andb_true_iff in H as [H1 H2];
    apply N.leb_le in H1, H2; lia.
Qed.

(** A quoted string reads back as the string. *)
Lemma parse_chars_quote_chars (n : nat) :
  forall (s rest : jsstring),
    (length s <= n)%nat ->
    parse_chars (quote_chars s ++ 34 :: rest) = Some (s, rest).
Proof.
  induction n as [| n IH]; intros s rest Hlen.
  - destruct s; [reflexivity | cbn in Hlen; lia].
  - destruct s as [| c s']; [reflexivity |].
    cbn in Hlen. cbn [quote_chars].
    destruct (is_high_surrogate c) eqn:Hhigh.
    + pose proof (surrogate_range c (or_introl Hhigh)) as Hc.
      destruct s' as [| d s''].
      * rewrite parse_chars_escape_u by lia. reflexivity.
      * destruct (is_low_surrogate d) eqn:Hlow.
        -- pose proof (surrogate_range d (or_intror Hlow)) as Hd.
           cbn [app]. rewrite !parse_chars_raw by lia.
           rewrite IH by (cbn in Hlen; lia). reflexivity.
        -- rewrite <- app_assoc, parse_chars_escape_u by lia.
           rewrite IH by lia. reflexivity.
    + destruct (is_low_surrogate c) eqn:Hlow.
      * pose proof (surrogate_range c (or_intror Hlow)) as Hc.
        rewrite <- app_assoc, parse_chars_escape_u by lia.
        rewrite IH by lia. reflexivity.
      * rewrite <- app_assoc, parse_chars_quote_cu, IH by lia. reflexivity.
Qed.

Lemma parse_chars_quote (s rest : jsstring) :
  parse_chars (quote_chars s ++ 34 :: rest) = Some (s, rest).
Proof. by apply (parse_chars_quote_chars (length s)). Qed.

(** ** Values *)

(** Induction on a value with the hypothesis for the elements of an
    array and for the members of an object. *)
Section ValueInduction.
Variable P : value -> Prop.
Hypothesis Pnull : P JNull.
Hypothesis Pbool : forall b, P (JBool b).
Hypothesis Pnum : forall z, P (JNum z).
Hypothesis Preal : forall l, P (JReal l).
Hypothesis Pstr : forall s, P (JStr s).
Hypothesis Parr : forall vs, Forall P vs -> P (JArr vs).
Hypothesis Pobj : forall ms, Forall (fun kv => P (snd kv)) ms -> P (JObj ms).

Fixpoint value_induction (v : value) : P v :=
  match v with
  | JNull => Pnull
  | JBool b => Pbool b
  | JNum z => Pnum z
  | JReal l => Preal l
  | JStr s => Pstr s
  | JArr vs =>
      Parr vs ((fix all (vs : list value) : Forall P vs :=
                  match vs with
                  | [] => ltac:(constructor)
                  | v :: vs' =>
                      ltac:(constructor; [exact (value_induction v) | exact (all vs')])
                  end) vs)
  | JObj ms =>
      Pobj ms ((fix all (ms : list (jsstring * value))
                  : Forall (fun kv => P (snd kv)) ms :=
                  match ms with
                  | [] => ltac:(constructor)
                  | kv :: ms' =>
                      ltac:(constructor;
                            [exact (value_induction (snd kv)) | exact (all ms')])
                  end) ms)
  end.

End ValueInduction.

(** The values that are written to storage: integers for numbers, and
    objects without a repeated property. *)
Fixpoint storable (v : value) : Prop :=
  match v with
  | JNull | JBool _ | JNum _ | JStr _ => True
  | JReal _ => False
  | JArr vs =>
      (fix all (vs : list value) : Prop :=
         match vs with
         | [] => True
         | v :: vs' => storable v /\ all vs'
         end) vs
  | JObj ms =>
      NoDup (map fst ms)
      /\ (fix all (ms : list (jsstring * value)) : Prop :=
            match ms with
            | [] => True
            | kv :: ms' => storable (snd kv) /\ all ms'
            end) ms
  end.

Lemma storable_arr (vs : list value) : storable (JArr vs) <-> Forall storable vs.
Proof.
  cbn [storable]. induction vs as [| v vs IH]; [by split |].
  rewrite Forall_cons. tauto.
Qed.

Lemma storable_obj (ms : list (jsstring * value)) :
  storable (JObj ms)
  <-> NoDup (map fst ms) /\ Forall (fun kv => storable (snd kv)) ms.
Proof.
  cbn [storable]. apply and_iff_compat_l.
  induction ms as [| kv ms IH]; [by split |].
  rewrite Forall_cons. tauto.
Qed.

(** The text of the elements of an array and of the members of an
    object, between the brackets. *)
Fixpoint stringify_elements (vs : list value) : jsstring :=
  match vs with
  | [] => []
  | [v] => stringify v
  | v :: vs' => stringify v ++ 44 :: stringify_elements vs'
  end.

Fixpoint stringify_members (ms : list (jsstring * value)) : jsstring :=
  match ms with
  | [] => []
  | [(k, v)] => quote k ++ 58 :: stringify v
  | (k, v) :: ms' => quote k ++ 58 :: stringify v ++ 44 :: stringify_members ms'
  end.

Lemma stringify_arr (vs : list value) :
  stringify (JArr vs) = 91 :: stringify_elements vs ++ [93].
Proof. reflexivity. Qed.

Lemma stringify_obj (ms : list (jsstring * value)) :
  stringify (JObj ms) = 123 :: stringify_members ms ++ [125].
Proof. reflexivity. Qed.

(** A property that is set for the first time goes to the end. *)
Lemma obj_set_fresh (k : jsstring) (v : value) (ms : list (jsstring * value)) :
  k ∉ map fst ms -> obj_set k v ms = ms ++ [(k, v)].
Proof.
  induction ms as [| [k' v'] ms IH]; intros Hk; [reflexivity |].
  cbn [obj_set app]. unfold JsString.eqb. cbn [map fst] in Hk.
  case_bool_decide as Heq.
  - exfalso. apply Hk. rewrite Heq. apply list_elem_of_here.
  - rewrite IH; [reflexivity |]. intros Hin. apply Hk. by apply list_elem_of_further.
Qed.

Lemma obj_of_members_from (ms acc : list (jsstring * value)) :
  NoDup (map fst (acc ++ ms)) ->
  fold_left (fun acc kv => obj_set (fst kv) (snd kv) acc) ms acc = acc ++ ms.
Proof.
  revert acc. induction ms as [| [k v] ms IH]; intros acc Hnd.
  - by rewrite app_nil_r.
  - cbn [fold_left fst snd]. rewrite obj_set_fresh.
    + rewrite IH; rewrite <- app_assoc; [reflexivity | exact Hnd].
    + rewrite map_app in Hnd. apply NoDup_app in Hnd as (_ & Hdisj & _).
      intros Hin. apply (Hdisj k Hin). cbn. apply list_elem_of_here.
Qed.

Lemma obj_of_members_nodup (ms : list (jsstring * value)) :
  NoDup (map fst ms) -> obj_of_members ms = ms.
Proof. intros Hnd. by apply (obj_of_members_from ms []). Qed.

(** The first character of a printed value: not white space and not a
    closing bracket. *)
Definition starts_value (s : jsstring) : Prop :=
  exists c r, s = c :: r /\ is_json_ws c = false /\ c <> 93 /\ c <> 125.

Lemma starts_value_digit (c : N) (r : jsstring) :
  is_digit c = true \/ c = 45 -> starts_value (c :: r).
Proof.
  intros Hc. exists c, r. split; [done |].
  assert (Hr : 45 <= c <= 57).
  { destruct Hc as [Hc | ->]; [apply is_digit_range in Hc |]; lia. }
  unfold is_json_ws. rewrite !eqb_ne by lia. repeat split; lia.
Qed.

Lemma stringify_starts (v : value) : storable v -> starts_value (stringify v).
Proof.
  destruct v as [| [|] | z | l | s | vs | ms]; intros Hst;
    try (eexists _, _; split; [reflexivity |]; by repeat split).
  - cbn [stringify]. destruct (Z_toString_head z) as (c & r & -> & Hc).
    by apply starts_value_digit.
  - destruct Hst.
Qed.

Lemma skip_ws_starts (s rest : jsstring) :
  starts_value s -> skip_ws (s ++ rest) = s ++ rest.
Proof. intros (c & r & -> & Hws & _). cbn. by rewrite Hws. Qed.

Lemma skip_ws_head (c : N) (s : jsstring) :
  is_json_ws c = false -> skip_ws (c :: s) = c :: s.
Proof. intros Hws. cbn. by rewrite Hws. Qed.

(** A text that starts with a digit or a minus sign is read as a number. *)
Lemma parse_value_number (fuel : nat) (c : N) (s : jsstring) :
  is_digit c = true \/ c = 45 ->
  parse_value (S fuel) (c :: s) = parse_number (c :: s).
Proof.
  intros Hc.
  assert (Hr : 45 <= c <= 57).
  { destruct Hc as [Hc | ->]; [apply is_digit_range in Hc |]; lia. }
  cbn [parse_value]. rewrite skip_ws_head.
  - rewrite !eqb_ne by lia. reflexivity.
  - unfold is_json_ws. by rewrite !eqb_ne by lia.
Qed.

(** What the round trip needs of a value [v]: with enough fuel the
    parser reads [v] back from its text, before any [rest] that starts
    with a delimiter. *)
Definition reads_back (v : value) : Prop :=
  storable v ->
  forall (fuel : nat) (rest : jsstring),
    (2 * length (stringify v) <= fuel)%nat ->
    at_delimiter rest ->
    parse_value fuel (stringify v ++ rest) = Some (v, rest).

Lemma reads_back_scalar (v : value) (fuel : nat) (rest : jsstring) :
  v = JNull \/ v = JBool true \/ v = JBool false ->
  (2 * length (stringify v) <= fuel)%nat ->
  parse_value fuel (stringify v ++ rest) = Some (v, rest).
Proof.
  intros Hv Hfuel.
  destruct fuel as [| fuel].
  { destruct Hv as [-> | [-> | ->]]; vm_compute in Hfuel; lia. }
  destruct Hv as [-> | [-> | ->]]; reflexivity.
Qed.

Lemma stringify_elements_cons (v v' : value) (vs : list value) :
  stringify_elements (v :: v' :: vs)
  = stringify v ++ 44 :: stringify_elements (v' :: vs).
Proof. reflexivity. Qed.

Lemma stringify_members_cons (k : jsstring) (v : value) (kv : jsstring * value)
    (ms : list (jsstring * value)) :
  stringify_members ((k, v) :: kv :: ms)
  = quote k ++ 58 :: stringify v ++ 44 :: stringify_members (kv :: ms).
Proof. reflexivity. Qed.

Lemma reads_back_elements (vs : list value) :
  Forall reads_back vs -> Forall storable vs -> vs <> [] ->
  forall (fuel : nat) (rest : jsstring),
    (2 * length (stringify_elements vs) + 1 <= fuel)%nat ->
    parse_elements fuel (stringify_elements vs ++ 93 :: rest) = Some (vs, rest).
Proof.
  intros Hall Hst. induction Hall as [| v vs Hv Hvs IH]; intros Hne fuel rest Hfuel;
    [done |].
  apply Forall_cons in Hst as [Hstv Hstvs].
  destruct fuel as [| fuel]; [lia |].
  destruct vs as [| v' vs'].
  - cbn [stringify_elements] in *. cbn [parse_elements].
    rewrite (Hv Hstv fuel (93 :: rest)); [| lia | cbn; tauto].
    reflexivity.
  - rewrite stringify_elements_cons in *.
    rewrite length_app in Hfuel. cbn [length] in Hfuel.
    rewrite <- app_assoc. cbn [app parse_elements].
    rewrite (Hv Hstv fuel (44 :: stringify_elements (v' :: vs') ++ 93 :: rest));
      [| lia | cbn; tauto].
    cbn [skip_ws is_json_ws]. change (is_json_ws 44) with false. cbv iota.
    change (44 =? 44) with true. cbv iota.
    rewrite IH; [reflexivity | done | done | lia].
Qed.

(** One member of an object: the key, the colon, the value and what
    follows it. *)
Lemma parse_members_member (fuel : nat) (k : jsstring) (v : value) (rest : jsstring) :
  parse_members (S fuel) (quote k ++ 58 :: stringify v ++ rest)
  = match parse_value fuel (stringify v ++ rest) with
    | Some (v', r3) =>
        match skip_ws r3 with
        | c :: r4 =>
            if c =? 44 then
              match parse_members fuel r4 with
              | Some (ms, r5) => Some ((k, v') :: ms, r5)
              | None => None
              end
            else if c =? 125 then Some ([(k, v')], r4)
            else None
        | [] => None
        end
    | None => None
    end.
Proof.
  unfold quote. cbn [app]. rewrite <- app_assoc. cbn [app parse_members].
  rewrite skip_ws_head by reflexivity. change (34 =? 34) with true. cbv iota.
  rewrite parse_chars_quote. rewrite skip_ws_head by reflexivity.
  change (58 =? 58) with true. cbv iota. reflexivity.
Qed.

Lemma reads_back_members (ms : list (jsstring * value)) :
  Forall (fun kv => reads_back (snd kv)) ms ->
  Forall (fun kv => storable (snd kv)) ms -> ms <> [] ->
  forall (fuel : nat) (rest : jsstring),
    (2 * length (stringify_members ms) + 1 <= fuel)%nat ->
    parse_members fuel (stringify_members ms ++ 125 :: rest) = Some (ms, rest).
Proof.
  intros Hall Hst.
  induction Hall as [| [k v] ms Hv Hms IH]; intros Hne fuel rest Hfuel; [done |].
  apply Forall_cons in Hst as [Hstv Hstms]. cbn [snd] in Hv, Hstv.
  destruct fuel as [| fuel]; [lia |].
  destruct ms as [| kv' ms'].
  - cbn [stringify_members] in *.
    rewrite length_app in Hfuel. cbn [length] in Hfuel.
    rewrite <- app_assoc. cbn [app].
    rewrite parse_members_member.
    rewrite (Hv Hstv fuel (125 :: rest)); [| lia | cbn; tauto].
    reflexivity.
  - rewrite stringify_members_cons in *.
    rewrite !length_app in Hfuel. cbn [length] in Hfuel.
    rewrite length_app in Hfuel. cbn [length] in Hfuel.
    rewrite <- app_assoc. cbn [app]. rewrite <- app_assoc. cbn [app].
    rewrite parse_members_member.
    rewrite (Hv Hstv fuel (44 :: stringify_members (kv' :: ms') ++ 125 :: rest));
      [| lia | cbn; tauto].
    rewrite skip_ws_head by reflexivity. change (44 =? 44) with true. cbv iota.
    rewrite IH; [reflexivity | done | done | lia].
Qed.

Lemma stringify_elements_starts (v : value) (vs : list value) :
  storable v -> starts_value (stringify_elements (v :: vs)).
Proof.
  intros Hst. destruct (stringify_starts v Hst) as (c & r & Heq & H).
  destruct vs as [| v' vs'].
  - exists c, r. by split.
  - rewrite stringify_elements_cons, Heq. eexists c, _. by split.
Qed.

Lemma closes_starts (c0 : N) (s rest : jsstring) :
  starts_value s -> c0 = 93 \/ c0 = 125 -> closes c0 (s ++ rest) = false.
Proof.
  intros (c & r & -> & _ & H93 & H125) Hc0. cbn.
  destruct Hc0 as [-> | ->]; by apply eqb_ne.
Qed.

(** Every storable value reads back. *)
Lemma reads_back_all (v : value) : reads_back v.
Proof.
  induction v as [| b | z | l | s | vs IH | ms IH] using value_induction;
    intros Hst fuel rest Hfuel Hrest.
  - apply reads_back_scalar; auto.
  - destruct b; apply reads_back_scalar; auto.
  - destruct (Z_toString_head z) as (c & r & Heq & Hc). cbn [stringify] in *.
    destruct fuel as [| fuel]; [rewrite Heq in Hfuel; cbn [length] in Hfuel; lia |].
    rewrite <- (parse_number_toString z rest Hrest). rewrite Heq. cbn [app].
    by apply parse_value_number.
  - destruct Hst.
  - cbn [stringify] in *. unfold quote in *.
    destruct fuel as [| fuel]; [cbn [length] in Hfuel; lia |].
    cbn [app]. rewrite <- app_assoc. cbn [app parse_value].
    rewrite skip_ws_head by reflexivity.
    change (34 =? 123) with false. change (34 =? 91) with false.
    change (34 =? 34) with true. cbv iota.
    by rewrite parse_chars_quote.
  - rewrite stringify_arr in *. apply storable_arr in Hst.
    destruct fuel as [| fuel]; [cbn [length] in Hfuel; lia |].
    cbn [length] in Hfuel. rewrite length_app in Hfuel. cbn [length] in Hfuel.
    cbn [app]. rewrite <- app_assoc. cbn [app parse_value].
    rewrite skip_ws_head by reflexivity.
    change (91 =? 123) with false. change (91 =? 91) with true. cbv iota.
    destruct vs as [| v vs'].
    + cbn [stringify_elements app]. rewrite skip_ws_head by reflexivity. reflexivity.
    + pose proof (stringify_elements_starts v vs' (Forall_inv Hst)) as Hstart.
      rewrite skip_ws_starts, closes_starts by auto.
      rewrite reads_back_elements; [reflexivity | done | done | done | lia].
  - rewrite stringify_obj in *. apply storable_obj in Hst as [Hnd Hst].
    destruct fuel as [| fuel]; [cbn [length] in Hfuel; lia |].
    cbn [length] in Hfuel. rewrite length_app in Hfuel. cbn [length] in Hfuel.
    cbn [app]. rewrite <- app_assoc. cbn [app parse_value].
    rewrite skip_ws_head by reflexivity.
    change (123 =? 123) with true. cbv iota.
    destruct ms as [| [k v] ms'].
    + cbn [stringify_members app]. rewrite skip_ws_head by reflexivity. reflexivity.
    + assert (Hstart : starts_value (stringify_members ((k, v) :: ms'))).
      { destruct ms' as [| kv' ms''];
          [cbn [stringify_members] | rewrite stringify_members_cons];
          unfold quote; eexists 34, _; by repeat split. }
      rewrite skip_ws_starts, closes_starts by auto.
      rewrite reads_back_members; [| done | done | done | lia].
      by rewrite obj_of_members_nodup.
Qed.

(** [JSON.parse(JSON.stringify(v))] is [v]. *)
Lemma parse_stringify (v : value) :
  storable v -> JSON.parse (JSON.stringify v) = Returned v.
Proof.
  intros Hst. unfold parse.
  pose proof (reads_back_all v Hst (2 * length (stringify v) + 2)%nat []) as Hread.
  rewrite app_nil_r in Hread. rewrite Hread; [reflexivity | lia | exact I].
Qed.

End JsonSpec.

(* ===================================================================== *)
(** * Properties of the storage service *)
(* ===================================================================== *)

Module StorageSpec.
Import JsonSpec.

Lemma Word_value_storable (w : Word) : storable (Word_value w).
Proof.
  apply storable_obj. split.
  - apply (bool_decide_unpack _). vm_compute. reflexivity.
  - repeat constructor.
Qed.

Lemma words_storable (ws : list Word) : storable (JArr (map Word_value ws)).
Proof.
  apply storable_arr. induction ws as [| w ws IH]; constructor;
    [apply Word_value_storable | exact IH].
Qed.

(** Two words with the same object are the same word: equality of the
    objects is deep equality of the records. *)
Lemma Word_value_inj (w1 w2 : Word) : Word_value w1 = Word_value w2 -> w1 = w2.
Proof.
  destruct w1, w2. unfold Word_value. cbn [word_id word_word word_meaning
    word_example word_exampleZh word_level word_isMastered word_createdAt].
  intros H. injection H as -> -> -> -> -> -> -> ->. reflexivity.
Qed.

(** A printed array is not the empty string. *)
Lemma stringify_arr_truthy (vs : list value) : truthy (JSON.stringify (JArr vs)) = true.
Proof. by rewrite stringify_arr. Qed.

(** Writing a storable collection under a key and reading the key back. *)
Lemma save_get_collection (key : jsstring) (vs : list value) (store : AsyncStorage) :
  storable (JArr vs) ->
  fst (StorageService.get_collection key
         (snd (StorageService.save_collection key (JArr vs) store)))
  = Returned (JArr vs).
Proof.
  intros Hst.
  unfold StorageService.save_collection, StorageService.get_collection,
    try_catch, bind, AsyncStorage_setItem, AsyncStorage_getItem, lift, ret.
  cbn [fst snd]. rewrite lookup_insert_eq. cbn [truthy_opt default from_option].
  unfold id. rewrite stringify_arr_truthy.
  by rewrite parse_stringify.
Qed.

Lemma sources_storable (l : list Source) : storable (JArr (map Source_value l)).
Proof.
  apply storable_arr. induction l as [| x l IH]; constructor; [| exact IH].
  apply storable_obj. split; [| repeat constructor].
  apply (bool_decide_unpack _). vm_compute. reflexivity.
Qed.

Lemma songs_storable (l : list Song) : storable (JArr (map Song_value l)).
Proof.
  apply storable_arr. induction l as [| x l IH]; constructor; [| exact IH].
  apply storable_obj. split; [| repeat constructor].
  apply (bool_decide_unpack _). vm_compute. reflexivity.
Qed.

(** The other two collections of the service read back in the same way. *)
Lemma saveSources_getSources (sources : list Source) (store : AsyncStorage) :
  fst (StorageService.getSources (snd (StorageService.saveSources sources store)))
  = Returned (JArr (map Source_value sources)).
Proof. apply save_get_collection, sources_storable. Qed.

Lemma saveSongs_getSongs (songs : list Song) (store : AsyncStorage) :
  fst (StorageService.getSongs (snd (StorageService.saveSongs songs store)))
  = Returned (JArr (map Song_value songs)).
Proof. apply save_get_collection, songs_storable. Qed.

(** A key that was never written reads as the empty array. *)
Lemma get_collection_missing (key : jsstring) (store : AsyncStorage) :
  store !! key = None ->
  StorageService.get_collection key store = (Returned (JArr []), store).
Proof.
  intros Hnone. unfold StorageService.get_collection, try_catch, bind,
    AsyncStorage_getItem, ret. by rewrite Hnone.
Qed.

Definition two_words : list Word :=
  [mkWord (js "1700000000000.123") (js "serene") (js "宁静:平和安宁的状态")
     (js "A serene lake.") (js "宁静的湖。") (js "B2") false 1700000000000;
   mkWord (js "w2") ([34] ++ js "quoted\" ++ [10; 55357; 56832; 55357]) (js "") (js "")
     (js "") (js "C1") true 0].

(** C9: after [saveWords(words)], [getWords()] on the same storage
    returns the array of the objects of [words]: a value deep-equal to
    the list that was written, whatever the storage held before. *)
Theorem saveWords_getWords (words : list Word) (store : AsyncStorage) :
  fst (StorageService.getWords (snd (StorageService.saveWords words store)))
  = Returned (JArr (map Word_value words)).
Proof.
  unfold StorageService.getWords, StorageService.saveWords.
  apply save_get_collection, words_storable.
Qed.

(** Two words with quotes, a line feed, an emoji and a lone surrogate in
    their strings: the text that is written parses back to them. *)
Example two_words_round_trip :
  JSON.parse (JSON.stringify (JArr (map Word_value two_words)))
  = Returned (JArr (map Word_value two_words)).
Proof. vm_compute. reflexivity. Qed.

End StorageSpec.

(* ===================================================================== *)
(** * The requests of the gateway *)
(* ===================================================================== *)

Module GatewaySpec.

(** [settings?.field || ''] *)
Definition configured (settings : option UserSettings) (field : UserSettings -> jsstring)
  : jsstring :=
  or_else (field <$> settings) (js "").

(** A request that fits the settings: a Gemini request is issued only
    when no provider or [gemini] is selected, and carries the Gemini key;
    a chat request goes to the endpoint of the selected provider with a
    non-empty key, the one configured for that provider.  In both the
    prompt is passed on as it is, in a chat request as the last message. *)
Definition addressed (prompt : jsstring) (settings : option UserSettings) (req : Request)
  : Prop :=
  match req with
  | GenerateContent key _ p =>
      (apiProvider <$> settings = None \/ apiProvider <$> settings = Some []
       \/ apiProvider <$> settings = Some (js "gemini"))
      /\ key = configured settings geminiApiKey /\ p = prompt
  | ChatCompletionsCreate url key _ msgs _ _ =>
      key <> [] /\ last msgs = Some (mkMessage user prompt)
      /\ ((apiProvider <$> settings = Some (js "nvidia")
           /\ url = nvidia_baseURL /\ key = configured settings nvidiaApiKey)
          \/ (apiProvider <$> settings = Some (js "opencode")
              /\ url = opencode_baseURL /\ key = configured settings opencodeApiKey))
  end.

Lemma truthy_true (s : jsstring) : truthy s = true -> s <> [].
Proof. by destruct s. Qed.

Lemma chat_messages_last (systemPrompt : option jsstring) (prompt : jsstring) :
  last (chat_messages systemPrompt prompt) = Some (mkMessage user prompt).
Proof. unfold chat_messages. by destruct (truthy_opt systemPrompt). Qed.

Lemma unselected (p : option jsstring) :
  negb (truthy_opt p) || is_provider p "gemini" = true ->
  p = None \/ p = Some [] \/ p = Some (js "gemini").
Proof.
  destruct p as [[| c p] |]; cbn [truthy_opt truthy negb orb]; [tauto | | tauto].
  unfold is_provider. intros H%bool_decide_eq_true. tauto.
Qed.

(** The requests one call adds to the log. *)
Lemma callAI_log (net : Network) (prompt : jsstring) (settings : option UserSettings)
    (options : AIOptions) (log : list Request) :
  exists reqs,
    snd (callAI net prompt settings options log) = log ++ reqs
    /\ (length reqs <= 1)%nat
    /\ Forall (addressed prompt settings) reqs.
Proof.
  unfold callAI, try_catch, callAI_try.
  destruct (negb (truthy_opt (apiProvider <$> settings))
            || is_provider (apiProvider <$> settings) "gemini") eqn:Hsel.
  { eexists [_]. unfold bind, gemini_request, callAI_catch, ret.
    destruct (generateContent net _ _ _); cbn [snd];
      (split; [reflexivity | split; [cbn; lia |]]);
      (constructor; [| constructor]); (split; [by apply unselected | done]). }
  destruct (is_provider (apiProvider <$> settings) "nvidia") eqn:Hnv.
  { apply bool_decide_eq_true in Hnv.
    destruct (truthy (or_else (nvidiaApiKey <$> settings) (js ""))) eqn:Hkey;
      cbn [negb].
    - eexists [_]. unfold bind, chat_request, callAI_catch, ret.
      destruct (chatCompletionsCreate net _ _ _ _ _ _); cbn [snd];
        (split; [reflexivity | split; [cbn; lia |]]);
        (constructor; [| constructor]);
        (split; [by apply truthy_true | split; [apply chat_messages_last | by left]]).
    - exists []. cbn [ret snd]. rewrite app_nil_r.
      split; [reflexivity | split; [cbn; lia | constructor]]. }
  destruct (is_provider (apiProvider <$> settings) "opencode") eqn:Hoc.
  { apply bool_decide_eq_true in Hoc.
    destruct (truthy (or_else (opencodeApiKey <$> settings) (js ""))) eqn:Hkey;
      cbn [negb].
    - eexists [_]. unfold bind, chat_request, callAI_catch, ret.
      destruct (chatCompletionsCreate net _ _ _ _ _ _); cbn [snd];
        (split; [reflexivity | split; [cbn; lia |]]);
        (constructor; [| constructor]);
        (split; [by apply truthy_true | split; [apply chat_messages_last | by right]]).
    - exists []. cbn [ret snd]. rewrite app_nil_r.
      split; [reflexivity | split; [cbn; lia | constructor]]. }
  exists []. cbn [ret snd]. rewrite app_nil_r.
  split; [reflexivity | split; [cbn; lia | constructor]].
Qed.


(** Every request a call of [callAI] issues fits the settings: a key is
    sent only to the provider it is configured for (the NVIDIA key to
    the NVIDIA endpoint when [nvidia] is selected, the OpenCode key to
    the OpenCode endpoint when [opencode] is selected, the Gemini key in
    a Gemini request when [gemini] or nothing is selected), a chat
    request never carries an empty key, and the prompt is passed on
    unchanged. *)
Theorem callAI_requests_addressed (net : Network) (prompt : jsstring)
    (settings : option UserSettings) (options : AIOptions) (log : list Request) :
  Forall (addressed prompt settings)
    (drop (length log) (snd (callAI net prompt settings options log))).
Proof.
  destruct (callAI_log net prompt settings options log) as (reqs & Hlog & _ & Hall).
  by rewrite Hlog, drop_app_length.
Qed.

Lemma failure_message (e : JsError) : js "API请求失败: " ++ errorMessage e <> [].
Proof. vm_compute (js _). discriminate. Qed.

(** A result of [callAI] never has both a text and an error: when
    [error] is set it is a non-empty message and [text] is the empty
    string, so that the test [if (error)] of the callers is the test
    for a failure. *)
Theorem callAI_error_excludes_text (net : Network) (prompt : jsstring)
    (settings : option UserSettings) (options : AIOptions) (log : list Request) :
  exists r,
    fst (callAI net prompt settings options log) = Returned r
    /\ match error r with
       | None => True
       | Some msg => msg <> [] /\ text r = []
       end.
Proof.
  unfold callAI, try_catch, callAI_try.
  destruct (negb (truthy_opt (apiProvider <$> settings))
            || is_provider (apiProvider <$> settings) "gemini").
  { unfold bind, gemini_request, callAI_catch, ret.
    destruct (generateContent net _ _ _); eexists; (split; [reflexivity |]);
      cbn [error text]; [done | split; [apply failure_message | done]]. }
  destruct (is_provider (apiProvider <$> settings) "nvidia").
  { destruct (truthy (or_else (nvidiaApiKey <$> settings) (js ""))); cbn [negb].
    - unfold bind, chat_request, callAI_catch, ret.
      destruct (chatCompletionsCreate net _ _ _ _ _ _); eexists;
        (split; [reflexivity |]); cbn [error text];
        [done | split; [apply failure_message | done]].
    - eexists. split; [reflexivity |]. cbn [error text]. by split. }
  destruct (is_provider (apiProvider <$> settings) "opencode").
  { destruct (truthy (or_else (opencodeApiKey <$> settings) (js ""))); cbn [negb].
    - unfold bind, chat_request, callAI_catch, ret.
      destruct (chatCompletionsCreate net _ _ _ _ _ _); eexists;
        (split; [reflexivity |]); cbn [error text];
        [done | split; [apply failure_message | done]].
    - eexists. split; [reflexivity |]. cbn [error text]. by split. }
  eexists. split; [reflexivity |]. cbn [error text]. by split.
Qed.

End GatewaySpec.

(* ===================================================================== *)
(** * What a match of the matcher is *)
(* ===================================================================== *)

Module RegexSpec.

(** [matches r s caps s1 caps1]: the pattern [r] matches a prefix of [s]
    and leaves [s1], the captures going from [caps] to [caps1]. *)
Inductive matches : regex -> jsstring -> captures -> jsstring -> captures -> Prop :=
| matches_char p c s caps :
    p c = true -> matches (RChar p) (c :: s) caps s caps
| matches_seq r1 r2 s caps s1 caps1 s2 caps2 :
    matches r1 s caps s1 caps1 -> matches r2 s1 caps1 s2 caps2 ->
    matches (RSeq r1 r2) s caps s2 caps2
| matches_star_stop r s caps :
    matches (RStar r) s caps s caps
| matches_star_step r s caps s1 caps1 s2 caps2 :
    matches r s caps s1 caps1 -> (length s1 < length s)%nat ->
    matches (RStar r) s1 caps1 s2 caps2 ->
    matches (RStar r) s caps s2 caps2
| matches_group i r s caps s1 caps1 :
    matches r s caps s1 caps1 ->
    matches (RGroup i r) s caps s1 ((i, take (length s - length s1)%nat s) :: caps1)
| matches_empty s caps :
    matches REmpty s caps s caps.

(** A pattern without capturing parentheses. *)
Fixpoint groupless (r : regex) : bool :=
  match r with
  | RChar _ | REmpty => true
  | RSeq r1 r2 => groupless r1 && groupless r2
  | RStar r' => groupless r'
  | RGroup _ _ => false
  end.

Lemma star_loop_sound (r : regex) (k : cont) :
  (forall s caps k' res,
      m r s caps k' = Some res ->
      exists s1 caps1, matches r s caps s1 caps1 /\ k' s1 caps1 = Some res) ->
  forall n s caps res,
    star_loop (m r) k n s caps = Some res ->
    exists s1 caps1, matches (RStar r) s caps s1 caps1 /\ k s1 caps1 = Some res.
Proof.
  intros Hstep n. induction n as [| n IH]; intros s caps res; cbn [star_loop].
  - intros Hk. exists s, caps. split; [constructor | exact Hk].
  - destruct (m r s caps _) as [res' |] eqn:Hbody.
    + intros [= <-]. apply Hstep in Hbody as (s1 & caps1 & Hm & Hrest).
      destruct (length s1 <? length s)%nat eqn:Hlt; [| discriminate Hrest].
      apply Nat.ltb_lt in Hlt.
      apply IH in Hrest as (s2 & caps2 & Hstar & Hk).
      exists s2, caps2. split; [by eapply matches_star_step | exact Hk].
    + intros Hk. exists s, caps. split; [constructor | exact Hk].
Qed.

(** The matcher finds only matches: when [m] succeeds, the continuation
    was given what a match of the pattern leaves. *)
Lemma m_sound (r : regex) (s : jsstring) (caps : captures) (k : cont)
    (res : jsstring * captures) :
  m r s caps k = Some res ->
  exists s1 caps1, matches r s caps s1 caps1 /\ k s1 caps1 = Some res.
Proof.
  revert s caps k res.
  induction r as [p | r1 IH1 r2 IH2 | r IH | i r IH |]; intros s caps k res; cbn [m].
  - destruct s as [| c s]; [discriminate |].
    destruct (p c) eqn:Hp; [| discriminate].
    intros Hk. exists s, caps. split; [by constructor | exact Hk].
  - intros H. apply IH1 in H as (s1 & caps1 & Hm1 & H).
    apply IH2 in H as (s2 & caps2 & Hm2 & Hk).
    exists s2, caps2. split; [by econstructor | exact Hk].
  - apply star_loop_sound, IH.
  - intros H. apply IH in H as (s1 & caps1 & Hm & Hk).
    eexists _, _. split; [constructor; exact Hm | exact Hk].
  - intros Hk. exists s, caps. split; [constructor | exact Hk].
Qed.

(** What [text.match(r)] returns comes from a match of [r] somewhere in
    the text, and its groups are the captures of that match. *)
Lemma js_match_sound (r : regex) (text : jsstring) (mr : match_result) :
  js_match r text = Some mr ->
  exists s s1, matches r s [] s1 (groups mr).
Proof.
  unfold js_match. generalize 0%nat.
  induction text as [| c text IH]; intros idx; cbn [search].
  - destruct (m r [] [] _) as [[s1 caps1] |] eqn:Hm; [| discriminate].
    intros [= <-]. apply m_sound in Hm as (s1' & caps1' & Hm & [= -> ->]).
    by exists [], s1.
  - destruct (m r (c :: text) [] _) as [[s1 caps1] |] eqn:Hm.
    + intros [= <-]. apply m_sound in Hm as (s1' & caps1' & Hm & [= -> ->]).
      by exists (c :: text), s1.
    + apply IH.
Qed.

Lemma matches_groupless (r : regex) (s : jsstring) (caps : captures)
    (s1 : jsstring) (caps1 : captures) :
  matches r s caps s1 caps1 -> groupless r = true -> caps1 = caps.
Proof.
  induction 1 as [| r1 r2 s caps s1 caps1 s2 caps2 _ IH1 _ IH2 | |
                  r s caps s1 caps1 s2 caps2 _ IH1 _ _ IH2 | |];
    cbn [groupless]; intros Hg; try done.
  - apply andb_true_iff in Hg as [Hg1 Hg2]. by rewrite IH2, IH1.
  - by rewrite IH2, IH1.
Qed.

(** A starred class takes characters of the class. *)
Lemma matches_class_star (p : N -> bool) (s : jsstring) (caps : captures)
    (s1 : jsstring) (caps1 : captures) :
  matches (RStar (RChar p)) s caps s1 caps1 ->
  caps1 = caps /\ exists pre, s = pre ++ s1 /\ forallb p pre = true.
Proof.
  intros H. remember (RStar (RChar p)) as r eqn:Hr.
  induction H as [| | r0 s caps | r0 s caps s1 caps1 s2 caps2 Hbody _ _ _ IH | |];
    try discriminate Hr.
  - split; [done |]. by exists [].
  - injection Hr as ->. inversion Hbody as [p' c s' caps' Hp | | | | |]; subst.
    destruct (IH eq_refl) as (-> & pre & -> & Hall).
    split; [done |]. exists (c :: pre). split; [done |]. cbn. by rewrite Hp.
Qed.

(** A group around a class repeated once or more captures a non-empty
    run of characters of the class. *)
Lemma matches_group_plus (i : nat) (p : N -> bool) (s : jsstring) (caps : captures)
    (s1 : jsstring) (caps1 : captures) :
  matches (RGroup i (plus (RChar p))) s caps s1 caps1 ->
  exists pre, pre <> [] /\ forallb p pre = true /\ s = pre ++ s1
              /\ caps1 = (i, pre) :: caps.
Proof.
  intros H. inversion H as [| | | | i' r' s' caps' s1' caps1' Hplus |]; subst.
  unfold plus in Hplus.
  inversion Hplus as [| r1 r2 s' caps' s2 caps2 s3 caps3 Hc Hstar | | | |]; subst.
  inversion Hc as [p' c s' caps' Hp | | | | |]; subst.
  apply matches_class_star in Hstar as (-> & pre & -> & Hall).
  exists (c :: pre). split; [done |]. split; [cbn; by rewrite Hp |]. split; [done |].
  f_equal. f_equal.
  replace (length (c :: pre ++ s1) - length s1)%nat with (length (c :: pre))
    by (cbn [length]; rewrite length_app; lia).
  change (c :: pre ++ s1) with ((c :: pre) ++ s1). apply take_app_length.
Qed.

Lemma matches_seq_inv (r1 r2 : regex) (s : jsstring) (caps : captures)
    (s2 : jsstring) (caps2 : captures) :
  matches (RSeq r1 r2) s caps s2 caps2 ->
  exists s1 caps1, matches r1 s caps s1 caps1 /\ matches r2 s1 caps1 s2 caps2.
Proof. intros H. inversion H; subst. eauto. Qed.

End RegexSpec.

(* ===================================================================== *)
(** * The fields the template parser returns *)
(* ===================================================================== *)

Module ParserSpec.
Import RegexSpec.

(** The string does not start with white space. *)
Definition no_space_at_head (s : jsstring) : Prop :=
  match s with
  | c :: _ => is_space c = false
  | [] => True
  end.



Lemma lit_groupless (s : string) : groupless (lit_i s) = true.
Proof.
  unfold lit_i. induction (list_ascii_of_string s) as [| a [| b l] IH]; [done | done |].
  change (seq (map chr_i (a :: b :: l)))
    with (RSeq (chr_i a) (seq (map chr_i (b :: l)))).
  cbn [groupless]. exact IH.
Qed.




Lemma correct_re_group (response : jsstring) (mr : match_result) :
  js_match correct_re response = Some mr ->
  exists a, a <> [] /\ forallb (cls_not dquote) a = true /\ group 1 mr = a.
Proof.
  intros Hm. apply js_match_sound in Hm as (s & s' & Hm).
  unfold correct_re in Hm. cbn [seq] in Hm.
  apply matches_seq_inv in Hm as (s1 & c1 & H1 & Hm).
  apply matches_groupless in H1 as ->; [| apply lit_groupless].
  apply matches_seq_inv in Hm as (s2 & c2 & H2 & Hm).
  apply matches_groupless in H2 as ->; [| done].
  apply matches_seq_inv in Hm as (s3 & c3 & H3 & Hm).
  apply matches_groupless in H3 as ->; [| done].
  apply matches_seq_inv in Hm as (s4 & c4 & H4 & Hm).
  apply matches_group_plus in H4 as (a & Hne & Hall & _ & ->).
  apply matches_groupless in Hm; [| done].
  exists a. split; [done |]. split; [done |].
  unfold group. by rewrite Hm.
Qed.

(** The correct answer the parser returns never contains a double quote:
    it is the empty string when the Correct pattern does not match, and
    otherwise a non-empty text that stops before the first closing
    quote, so that an answer with a quoted word inside is cut there. *)
Theorem parseTranslationResponse_correctAnswer_unquoted (response userAnswer : jsstring) :
  let r := parseTranslationResponse response userAnswer in
  (dquote ∉ correctAnswer r)
  /\ match js_match correct_re response with
     | Some _ => correctAnswer r <> []
     | None => correctAnswer r = []
     end.
Proof.
  unfold parseTranslationResponse, parseTranslationResponse_try. cbn zeta.
  cbn [correctAnswer].
  destruct (js_match correct_re response) as [mr |] eqn:Hm.
  - apply correct_re_group in Hm as (a & Hne & Hall & ->).
    split; [| done]. intros Hin. apply list_elem_of_In in Hin.
    rewrite forallb_forall in Hall. specialize (Hall _ Hin).
    unfold cls_not in Hall. by rewrite N.eqb_refl in Hall.
  - split; [| done]. cbn. inversion 1.
Qed.

Lemma reason_re_group (response : jsstring) (mr : match_result) :
  js_match reason_re response = Some mr ->
  exists a, a <> [] /\ forallb cls_dot a = true /\ group 1 mr = a.
Proof.
  intros Hm. apply js_match_sound in Hm as (s & s' & Hm).
  unfold reason_re in Hm. cbn [seq] in Hm.
  apply matches_seq_inv in Hm as (s1 & c1 & H1 & Hm).
  apply matches_groupless in H1 as ->; [| apply lit_groupless].
  apply matches_seq_inv in Hm as (s2 & c2 & H2 & Hm).
  apply matches_groupless in H2 as ->; [| done].
  apply matches_group_plus in Hm as (a & Hne & Hall & _ & Hcaps).
  exists a. split; [done |]. split; [done |].
  unfold group. by rewrite Hcaps.
Qed.

(** *** [trim] *)

Lemma trimStart_head (s : jsstring) : no_space_at_head (trimStart s).
Proof.
  induction s as [| c s IH]; [exact I |]. cbn [trimStart].
  destruct (is_space c) eqn:Hc; [exact IH | exact Hc].
Qed.

Lemma trimStart_snoc (l : jsstring) (c : N) :
  is_space c = false -> trimStart (l ++ [c]) = trimStart l ++ [c].
Proof.
  intros Hc. induction l as [| x l IH]; cbn [app trimStart].
  - by rewrite Hc.
  - by destruct (is_space x).
Qed.

Lemma trimEnd_head (s : jsstring) : no_space_at_head s -> no_space_at_head (trimEnd s).
Proof.
  destruct s as [| c s]; [done |]. cbn [no_space_at_head]. intros Hc.
  unfold trimEnd. cbn [rev]. rewrite trimStart_snoc by done.
  rewrite rev_app_distr. exact Hc.
Qed.

Lemma trim_clean (s : jsstring) :
  no_space_at_head (trim s) /\ no_space_at_head (rev (trim s)).
Proof.
  unfold trim. split.
  - apply trimEnd_head, trimStart_head.
  - unfold trimEnd. rewrite rev_involutive. apply trimStart_head.
Qed.

Lemma trimStart_Forall (P : N -> Prop) (s : jsstring) :
  Forall P s -> Forall P (trimStart s).
Proof.
  induction 1 as [| c s Hc Hs IH]; [constructor |]. cbn [trimStart].
  destruct (is_space c); [exact IH | by constructor].
Qed.

Lemma trim_Forall (P : N -> Prop) (s : jsstring) : Forall P s -> Forall P (trim s).
Proof.
  intros H. unfold trim, trimEnd.
  by apply Forall_rev, trimStart_Forall, Forall_rev, trimStart_Forall.
Qed.

(** The feedback the parser returns is trimmed and is one line: it has
    no white space at either end and no line terminator inside, since
    the Reason pattern reads up to the end of the line only.  What the
    model wrote on the following lines is not part of the feedback. *)
Theorem parseTranslationResponse_feedback_one_line (response userAnswer : jsstring) :
  let fb := feedback (parseTranslationResponse response userAnswer) in
  no_space_at_head fb /\ no_space_at_head (rev fb)
  /\ Forall (fun c => c <> 10 /\ c <> 13 /\ c <> 8232 /\ c <> 8233) fb.
Proof.
  unfold parseTranslationResponse, parseTranslationResponse_try. cbn zeta.
  cbn [feedback].
  destruct (js_match reason_re response) as [mr |] eqn:Hm.
  - apply reason_re_group in Hm as (a & _ & Hall & ->).
    split; [apply trim_clean |]. split; [apply trim_clean |].
    apply trim_Forall, Forall_forall. intros c Hc.
    rewrite forallb_forall in Hall. apply list_elem_of_In, Hall in Hc.
    unfold cls_dot in Hc. apply negb_true_iff in Hc.
    repeat (apply orb_false_iff in Hc as [Hc ?]).
    repeat split; by apply N.eqb_neq.
  - vm_compute. split; [reflexivity |]. split; [reflexivity |].
    repeat constructor; discriminate.
Qed.

End ParserSpec.

(* ===================================================================== *)
(** * The service functions around the gateway *)
(* ===================================================================== *)

Module ServiceSpec.





End ServiceSpec.

(* ===================================================================== *)
(** * The storage service as a whole *)
(* ===================================================================== *)

Module PersistenceSpec.
Import StorageService.

(** What a getter of the service returns for the text stored under its
    key: the parsed text, and the empty array for no text, the empty
    text and a text that does not parse. *)
Definition read_back (data : option jsstring) : value :=
  match data with
  | Some (c :: t) =>
      match JSON.parse (c :: t) with
      | Returned v => v
      | Thrown _ => JArr []
      end
  | _ => JArr []
  end.

Lemma get_collection_run (key : jsstring) (store : AsyncStorage) :
  get_collection key store = (Returned (read_back (store !! key)), store).
Proof.
  unfold get_collection, try_catch, bind, AsyncStorage_getItem, lift, ret, read_back.
  destruct (store !! key) as [[| c t] |]; cbn [truthy_opt truthy]; try reflexivity.
  cbn [default from_option]. unfold id. by destruct (JSON.parse (c :: t)).
Qed.


Lemma save_collection_run (key : jsstring) (v : value) (store : AsyncStorage) :
  save_collection key v store = (Returned tt, <[key := JSON.stringify v]> store).
Proof. reflexivity. Qed.

Lemma read_back_stringify (vs : list value) :
  JsonSpec.storable (JArr vs) -> read_back (Some (JSON.stringify (JArr vs))) = JArr vs.
Proof.
  intros Hst. unfold read_back.
  pose proof (StorageSpec.stringify_arr_truthy vs) as Ht.
  destruct (JSON.stringify (JArr vs)) as [| c t] eqn:Hs; [discriminate Ht |].
  rewrite <- Hs. by rewrite JsonSpec.parse_stringify.
Qed.

(** The three collections are stored side by side: after the words, the
    sources and the songs have been saved, in a storage that held
    anything, each getter returns the collection that was saved under
    its key; no save overwrites what another one wrote. *)
Theorem saves_then_reads (ws : list Word) (ss : list Source) (gs : list Song)
    (store : AsyncStorage) :
  let store' := snd (saveSongs gs (snd (saveSources ss (snd (saveWords ws store))))) in
  fst (getWords store') = Returned (JArr (map Word_value ws))
  /\ fst (getSources store') = Returned (JArr (map Source_value ss))
  /\ fst (getSongs store') = Returned (JArr (map Song_value gs)).
Proof.
  destruct HistorySpec.storage_keys_distinct as (Hk1 & Hk2 & Hk3).
  unfold getWords, getSources, getSongs, saveWords, saveSources, saveSongs.
  rewrite !save_collection_run. cbn [snd]. rewrite !get_collection_run. cbn [fst].
  rewrite lookup_insert_ne, lookup_insert_ne, lookup_insert_eq by done.
  rewrite lookup_insert_ne, lookup_insert_eq by done.
  rewrite lookup_insert_eq.
  rewrite !read_back_stringify;
    [done | apply StorageSpec.songs_storable | apply StorageSpec.sources_storable
     | apply StorageSpec.words_storable].
Qed.

(** After [clearAll] the three getters return the empty array, whatever
    was stored, and every other key of the storage (the settings, the
    blacklist, the statistics, the wrong answers) is left as it was. *)
Theorem clearAll_empties (store : AsyncStorage) (key : jsstring) :
  let store' := snd (clearAll store) in
  fst (getWords store') = Returned (JArr [])
  /\ fst (getSources store') = Returned (JArr [])
  /\ fst (getSongs store') = Returned (JArr [])
  /\ (key = WORDS_KEY \/ key = SOURCES_KEY \/ key = SONGS_KEY
      \/ store' !! key = store !! key).
Proof.
  destruct HistorySpec.storage_keys_distinct as (Hk1 & Hk2 & Hk3).
  cbn zeta. unfold getWords, getSources, getSongs. rewrite !get_collection_run.
  unfold clearAll, try_catch, AsyncStorage_multiRemove. cbn [fst snd fold_left].
  split; [| split; [| split]].
  - by rewrite lookup_delete_ne, lookup_delete_ne, lookup_delete_eq.
  - by rewrite lookup_delete_ne, lookup_delete_eq.
  - by rewrite lookup_delete_eq.
  - destruct (decide (key = WORDS_KEY)) as [| Hw]; [by left |].
    destruct (decide (key = SOURCES_KEY)) as [| Hs]; [by right; left |].
    destruct (decide (key = SONGS_KEY)) as [| Hg]; [by right; right; left |].
    right; right; right. by rewrite !lookup_delete_ne.
Qed.

End PersistenceSpec.

(* ===================================================================== *)
(** * The song list after a deletion *)
(* ===================================================================== *)

Module SongListSpec.
Import HistoryScreen HistorySpec.

Lemma filter_all {A} (P : A -> Prop) `{!forall x, Decision (P x)} (l : list A) :
  Forall P l -> filter P l = l.
Proof.
  induction 1 as [| x l Hx _ IH]; [done |].
  rewrite filter_cons. destruct (decide (P x)); [by rewrite IH | done].
Qed.

Lemma filter_none {A} (P : A -> Prop) `{!forall x, Decision (P x)} (l : list A) :
  Forall (fun x => ~ P x) l -> filter P l = [].
Proof.
  induction 1 as [| x l Hx _ IH]; [done |].
  rewrite filter_cons. destruct (decide (P x)); [done | exact IH].
Qed.

Lemma filter_holds {A} (P : A -> Prop) `{!forall x, Decision (P x)} (l : list A) :
  Forall P (filter P l).
Proof.
  apply Forall_forall. intros x Hx. by apply list_elem_of_filter in Hx as [Hx _].
Qed.

(** Deleting a song from collections it was deleted from changes
    nothing. *)
Lemma after_delete_again (song : Song) (st : Collections) :
  after_delete song (after_delete song st) = after_delete song st.
Proof.
  unfold after_delete. cbn [songs sources words].
  rewrite (filter_all _ (filter _ (songs st))) by apply filter_holds.
  rewrite (filter_all (fun s => source_songTitle s <> song_title song)
             (filter _ (sources st))) by apply filter_holds.
  rewrite (filter_none (fun s => source_songTitle s = song_title song)
             (filter _ (sources st))).
  - cbn [map list_to_set]. rewrite elements_empty. cbn [filter list_filter].
    f_equal. apply filter_all, Forall_forall. intros w _. apply not_elem_of_nil.
  - eapply Forall_impl; [apply filter_holds |]. cbn. tauto.
Qed.

(** Deleting a song is idempotent: a second deletion of the same song,
    on the collections and the storage the first one left, returns the
    same collections and leaves the storage as it is. *)
Theorem handleDeleteSong_idempotent (song : Song) (st : Collections)
    (store : AsyncStorage) :
  exists st1 store1,
    handleDeleteSong song st store = (Returned st1, store1)
    /\ handleDeleteSong song st1 store1 = (Returned st1, store1).
Proof.
  eexists _, _. split; [apply handleDeleteSong_run |].
  destruct storage_keys_distinct as (Hk1 & Hk2 & Hk3).
  rewrite handleDeleteSong_run, after_delete_again. f_equal.
  rewrite (insert_id _ StorageService.SONGS_KEY).
  - rewrite (insert_id _ StorageService.SOURCES_KEY).
    + apply insert_id. by rewrite lookup_insert_eq.
    + by rewrite lookup_insert_ne, lookup_insert_eq.
  - by rewrite lookup_insert_ne, lookup_insert_ne, lookup_insert_eq.
Qed.

Lemma filter_ext_in {A} (P Q : A -> Prop) `{!forall x, Decision (P x)}
    `{!forall x, Decision (Q x)} (l : list A) :
  (forall x, x ∈ l -> (P x <-> Q x)) -> filter P l = filter Q l.
Proof.
  induction l as [| x l IH]; intros Hext; [done |].
  rewrite !filter_cons.
  assert (Hx : P x <-> Q x) by (apply Hext; left).
  rewrite IH by (intros y Hy; apply Hext; by right).
  destruct (decide (P x)), (decide (Q x)); tauto.
Qed.

(** The sources whose word is not in the word list. *)
Definition dangling (st : Collections) : list Source :=
  filter (fun s => source_wordId s ∉ map word_id (words st)) (sources st).

(** A deletion creates no dangling source: the sources without a word
    after it are the sources of the other titles that were without a
    word before.  A word is removed only with its last source, so when
    every source had its word before the deletion, every source has its
    word after it. *)
Theorem handleDeleteSong_no_new_dangling (song : Song) (st : Collections)
    (store : AsyncStorage) :
  exists st' store',
    handleDeleteSong song st store = (Returned st', store')
    /\ dangling st'
       = filter (fun s => source_songTitle s <> song_title song) (dangling st).
Proof.
  eexists _, _. split; [apply handleDeleteSong_run |].
  unfold dangling. rewrite !list_filter_filter.
  change (sources (after_delete song st))
    with (filter (fun s => source_songTitle s <> song_title song) (sources st)).
  rewrite list_filter_filter.
  apply filter_ext_in. intros s Hs. split.
  - intros [Hno Ht]. split; [exact Ht |].
    intros Hin. apply Hno.
    apply list_elem_of_fmap in Hin as (w & Hid & Hw).
    apply list_elem_of_fmap. exists w. split; [exact Hid |].
    apply after_delete_words. split; [exact Hw |]. intros [_ Hgone]. apply Hgone.
    exists s. split; [| done].
    unfold after_delete. cbn [sources]. apply list_elem_of_filter. by split.
  - intros [Ht Hno]. split; [| exact Ht].
    intros Hin. apply Hno.
    apply list_elem_of_fmap in Hin as (w & Hid & Hw).
    apply list_elem_of_fmap. exists w. split; [exact Hid |].
    by apply after_delete_words in Hw as [Hw _].
Qed.

Lemma find_filter_other (songId : jsstring) (song : Song) (l : list Song) :
  songId <> song_id song ->
  find (fun s => bool_decide (song_id s = songId))
    (filter (fun s => song_id s <> song_id song) l)
  = find (fun s => bool_decide (song_id s = songId)) l.
Proof.
  intros Hne. induction l as [| x l IH]; [done |].
  rewrite filter_cons. destruct (decide (song_id x <> song_id song)) as [Hx | Hx].
  - cbn [find]. by rewrite IH.
  - cbn [find]. rewrite IH. rewrite bool_decide_eq_false_2; [done |].
    intros Heq. apply Hx. by rewrite Heq.
Qed.

Lemma find_filter_self (song : Song) (l : list Song) :
  find (fun s => bool_decide (song_id s = song_id song))
    (filter (fun s => song_id s <> song_id song) l)
  = None.
Proof.
  induction l as [| x l IH]; [done |].
  rewrite filter_cons. destruct (decide (song_id x <> song_id song)) as [Hx | Hx].
  - cbn [find]. by rewrite bool_decide_eq_false_2.
  - exact IH.
Qed.

Lemma find_song_id (songId : jsstring) (l : list Song) (s : Song) :
  find (fun s => bool_decide (song_id s = songId)) l = Some s -> song_id s = songId.
Proof.
  intros H. apply find_some in H as [_ H]. by apply bool_decide_eq_true in H.
Qed.

(** The word count of every song card after a deletion: the deleted
    song is gone and counts 0; a song with another id and another title
    keeps its count; a song with another id and the title of the deleted
    song drops to 0, since the sources are removed by title. *)
Theorem getWordCountForSong_after_delete (song : Song) (st : Collections)
    (store : AsyncStorage) (songId : jsstring) :
  exists st' store',
    handleDeleteSong song st store = (Returned st', store')
    /\ getWordCountForSong st' songId
       = match find (fun s => bool_decide (song_id s = songId)) (songs st) with
         | Some other =>
             if bool_decide (song_id other = song_id song
                             \/ song_title other = song_title song)
             then 0%nat
             else getWordCountForSong st songId
         | None => 0%nat
         end.
Proof.
  eexists _, _. split; [apply handleDeleteSong_run |].
  unfold getWordCountForSong at 1. unfold after_delete. cbn [songs sources].
  destruct (decide (songId = song_id song)) as [-> | Hne].
  - rewrite find_filter_self.
    destruct (find _ (songs st)) as [other |] eqn:Hfind; [| done].
    apply find_song_id in Hfind. rewrite bool_decide_eq_true_2; [done | by left].
  - rewrite find_filter_other by done. unfold getWordCountForSong.
    destruct (find _ (songs st)) as [other |] eqn:Hfind; [| done].
    apply find_song_id in Hfind.
    destruct (decide (song_title other = song_title song)) as [Ht | Ht].
    + rewrite bool_decide_eq_true_2 by (by right).
      rewrite Ht, filter_none; [done |].
      eapply Forall_impl; [apply filter_holds |]. cbn. tauto.
    + rewrite bool_decide_eq_false_2 by (rewrite Hfind; tauto).
      rewrite list_filter_filter. do 3 f_equal.
      apply filter_ext_in. intros s _. split; [tauto |].
      intros Hs. split; [exact Hs |]. by rewrite Hs.
Qed.

End SongListSpec.

(* ===================================================================== *)
(** * The word bank after a song is processed *)
(* ===================================================================== *)

Module WordBankSpec.
Import FactoryScreen.

Section Bank.
Variable toLowerCase : jsstring -> jsstring.
Variable Date_now : nat -> Z.
Variable Math_random : nat -> jsstring.
Variable songTitle : jsstring.

Local Abbreviation step := (store_word toLowerCase Date_now Math_random songTitle).
Local Abbreviation run := (store_words toLowerCase Date_now Math_random songTitle).

(** The form under which two spellings count as the same word. *)
Definition folded (w : Word) : jsstring := toLowerCase (word_word w).

Lemma find_existing_some (ws : list Word) (v : VocabWord) (w : Word) :
  find_existing toLowerCase ws v = Some w ->
  w ∈ ws /\ folded w = toLowerCase (word v).
Proof.
  intros H. apply find_some in H as [Hin Heq].
  split; [by apply list_elem_of_In |]. by apply bool_decide_eq_true in Heq.
Qed.

Lemma find_existing_none (ws : list Word) (v : VocabWord) :
  find_existing toLowerCase ws v = None ->
  toLowerCase (word v) ∉ map folded ws.
Proof.
  intros H Hin. apply list_elem_of_fmap in Hin as (w & Heq & Hw).
  apply list_elem_of_In in Hw.
  pose proof (find_none _ _ H w Hw) as Hno. cbn in Hno.
  apply bool_decide_eq_false in Hno. by apply Hno.
Qed.

Lemma run_cons (b : Bank) (v : VocabWord) (all : list VocabWord) :
  run b (v :: all) = run (step b v) all.
Proof. reflexivity. Qed.

(** The words only grow, at the end. *)
Lemma step_words (b : Bank) (v : VocabWord) :
  exists nw, existingWords (step b v) = existingWords b ++ nw.
Proof.
  unfold store_word. destruct (find_existing _ _ _); cbn [existingWords].
  - exists []. by rewrite app_nil_r.
  - by eexists [_].
Qed.

Lemma run_words (b : Bank) (all : list VocabWord) :
  exists nw, existingWords (run b all) = existingWords b ++ nw.
Proof.
  revert b. induction all as [| v all IH]; intros b.
  - exists []. by rewrite app_nil_r.
  - rewrite run_cons. destruct (IH (step b v)) as (nw2 & ->).
    destruct (step_words b v) as (nw1 & ->).
    exists (nw1 ++ nw2). by rewrite app_assoc.
Qed.

Lemma step_distinct (b : Bank) (v : VocabWord) :
  NoDup (map folded (existingWords b)) ->
  NoDup (map folded (existingWords (step b v))).
Proof.
  intros Hnd. unfold store_word.
  destruct (find_existing _ _ _) eqn:Hfind; cbn [existingWords]; [exact Hnd |].
  rewrite map_app. apply NoDup_app. split; [exact Hnd |].
  split; [| apply NoDup_singleton].
  intros x Hx Hx'. apply list_elem_of_singleton in Hx'. subst x.
  by apply find_existing_none in Hfind.
Qed.

(** The loop never stores a second spelling of a word: when no two of
    the existing words are equal up to case, no two of the words after
    the loop are, whatever the vocabulary list holds (a word that comes
    twice in it, or in another case, is found the second time). *)
Theorem store_words_distinct (b : Bank) (allWords : list VocabWord) :
  NoDup (map folded (existingWords b)) ->
  NoDup (map folded (existingWords (run b allWords))).
Proof.
  revert b. induction allWords as [| v all IH]; intros b Hnd; [exact Hnd |].
  rewrite run_cons. by apply IH, step_distinct.
Qed.

(** The source [s] was made for the vocabulary word [v]: it carries the
    title of the song and the meaning of [v], and its [wordId] is the id
    of a word of [ws] that is [v] up to case. *)
Definition attached (ws : list Word) (v : VocabWord) (s : Source) : Prop :=
  source_songTitle s = songTitle
  /\ source_lyricTranslated s = meaning v
  /\ exists w, w ∈ ws /\ word_id w = source_wordId s
               /\ folded w = toLowerCase (word v).

Lemma attached_grows (ws nw : list Word) (v : VocabWord) (s : Source) :
  attached ws v s -> attached (ws ++ nw) v s.
Proof.
  intros (Ht & Hm & w & Hw & Hid & Hf). split; [done |]. split; [done |].
  exists w. split; [| done]. apply elem_of_app. by left.
Qed.

Lemma step_source (b : Bank) (v : VocabWord) :
  exists s,
    existingSources (step b v) = existingSources b ++ [s]
    /\ attached (existingWords (step b v)) v s.
Proof.
  unfold store_word. destruct (find_existing _ _ _) as [w |] eqn:Hfind;
    cbn [existingWords existingSources]; eexists; (split; [reflexivity |]).
  - apply find_existing_some in Hfind as [Hw Hf].
    split; [done |]. split; [done |]. by exists w.
  - split; [done |]. split; [done |].
    eexists. split; [apply elem_of_app; right; apply list_elem_of_here |].
    by split.
Qed.

(** Every vocabulary word gets one source, in order: the loop appends
    to the sources one source per word of the list, with the title of
    the song, attached to a word of the resulting word list that equals
    it up to case.  No source is attached to a word that is not
    stored. *)
Theorem store_words_sources (b : Bank) (allWords : list VocabWord) :
  exists news,
    existingSources (run b allWords) = existingSources b ++ news
    /\ Forall2 (attached (existingWords (run b allWords))) allWords news.
Proof.
  revert b. induction allWords as [| v all IH]; intros b.
  - exists []. split; [by rewrite app_nil_r | constructor].
  - rewrite run_cons. destruct (IH (step b v)) as (news & Hsrc & Hall).
    destruct (step_source b v) as (s & Hs & Hatt).
    exists (s :: news). split.
    + rewrite Hsrc, Hs. by rewrite <- app_assoc.
    + constructor; [| exact Hall].
      destruct (run_words (step b v) all) as (nw & ->). by apply attached_grows.
Qed.

Lemma step_mirror (b : Bank) (v : VocabWord) :
  exists nw ns,
    existingWords (step b v) = existingWords b ++ nw
    /\ storeWords (step b v) = storeWords b ++ nw
    /\ existingSources (step b v) = existingSources b ++ ns
    /\ storeSources (step b v) = storeSources b ++ ns
    /\ Forall (fun w => word_isMastered w = false /\ word_level w <> []) nw.
Proof.
  unfold store_word. destruct (find_existing _ _ _) as [w |];
    cbn [existingWords existingSources storeWords storeSources].
  - exists []. eexists [_]. rewrite !app_nil_r. repeat split; constructor.
  - eexists [_], [_]. repeat split. constructor; [| constructor].
    cbn [word_isMastered word_level]. split; [done |].
    cbn [or_else]. by destruct (level v).
Qed.

(** The store and the arrays saved to storage receive the same
    additions: the words and sources the loop hands to [addWord] and
    [addSource] are, in the same order, the ones it pushes on the arrays
    it saves afterwards; the words and sources that were there are kept
    as they are, and a new word is not mastered and has a level (B2 when
    the model gave none). *)
Theorem store_words_mirror (b : Bank) (allWords : list VocabWord) :
  exists nw ns,
    existingWords (run b allWords) = existingWords b ++ nw
    /\ storeWords (run b allWords) = storeWords b ++ nw
    /\ existingSources (run b allWords) = existingSources b ++ ns
    /\ storeSources (run b allWords) = storeSources b ++ ns
    /\ Forall (fun w => word_isMastered w = false /\ word_level w <> []) nw.
Proof.
  revert b. induction allWords as [| v all IH]; intros b.
  - exists [], []. rewrite !app_nil_r. repeat split. constructor.
  - rewrite run_cons.
    destruct (IH (step b v)) as (nw2 & ns2 & -> & -> & -> & -> & Hnew2).
    destruct (step_mirror b v) as (nw1 & ns1 & -> & -> & -> & -> & Hnew1).
    exists (nw1 ++ nw2), (ns1 ++ ns2). rewrite !app_assoc.
    repeat split. by apply Forall_app.
Qed.

End Bank.

(** A bank with one word, and a vocabulary list with that word in
    another case and a new word twice. *)
Definition bank0 : Bank :=
  mkBank [mkWord (js "w1") (js "Serene") (js "") (js "") (js "") (js "B2") false 1]
    [] [] [] 2 0.

Definition vocab3 : list VocabWord :=
  [FactorySpec.vocab "serene"; FactorySpec.vocab "ember"; FactorySpec.vocab "EMBER"].

Definition clock (n : nat) : Z := 1700000000000 + Z.of_nat n.

Definition dice (n : nat) : jsstring := js "0.25".

(** The bank with [Serene] and the list with [serene], [ember] and
    [EMBER]: no two words of the result are equal up to case. *)
Lemma store_words_distinct_witness :
  NoDup (map (folded toLowerCase_ascii) (existingWords bank0))
  /\ NoDup (map (folded toLowerCase_ascii)
              (existingWords
                 (store_words toLowerCase_ascii clock dice (js "Song A") bank0 vocab3))).
Proof.
  assert (H : NoDup (map (folded toLowerCase_ascii) (existingWords bank0))).
  { apply (bool_decide_unpack _). vm_compute. reflexivity. }
  split; [exact H |].
  exact (store_words_distinct toLowerCase_ascii clock dice (js "Song A") bank0 vocab3 H).
Defined.

(** On that list the loop stores one new word and three sources. *)
Example store_words_bank0 :
  map word_word
    (existingWords (store_words toLowerCase_ascii clock dice (js "Song A") bank0 vocab3))
  = [js "Serene"; js "ember"]
  /\ map source_wordId
       (existingSources
          (store_words toLowerCase_ascii clock dice (js "Song A") bank0 vocab3))
     = [js "w1"; js "17000000000030.25"; js "17000000000030.25"].
Proof. split; vm_compute; reflexivity. Qed.

End WordBankSpec.

(* ===================================================================== *)
(** * The words the extraction loop accumulates *)
(* ===================================================================== *)

Module AccumulationSpec.
Import FactoryScreen.

Section Accumulation.
Variable toLowerCase : jsstring -> jsstring.
Variable extract : nat -> list VocabWord.

Local Abbreviation acc := (accumulated toLowerCase extract).
Local Abbreviation mrg := (merge toLowerCase).
Local Abbreviation knw := (known toLowerCase).

Definition caseless (w : VocabWord) : jsstring := toLowerCase (word w).

Lemma known_spec (all : list VocabWord) (w : VocabWord) :
  knw all w = true <-> caseless w ∈ map caseless all.
Proof.
  unfold known. rewrite existsb_exists, list_elem_of_fmap. split.
  - intros (x & Hx & Heq). apply bool_decide_eq_true in Heq.
    exists x. split; [done |]. by apply list_elem_of_In.
  - intros (x & Heq & Hx). exists x. split; [by apply list_elem_of_In |].
    by apply bool_decide_eq_true.
Qed.

Lemma merge_cons (all : list VocabWord) (w : VocabWord) (r : list VocabWord) :
  mrg all (w :: r) = mrg (if knw all w then all else all ++ [w]) r.
Proof. reflexivity. Qed.


Lemma merge_grows (all r : list VocabWord) :
  exists nw, mrg all r = all ++ nw /\ Forall (fun w => w ∈ r) nw.
Proof.
  revert all. induction r as [| w r IH]; intros all.
  - exists []. split; [by rewrite app_nil_r | constructor].
  - rewrite merge_cons. destruct (knw all w).
    + destruct (IH all) as (nw & -> & Hnw). exists nw. split; [done |].
      eapply Forall_impl; [exact Hnw |]. intros x Hx. by right.
    + destruct (IH (all ++ [w])) as (nw & -> & Hnw). exists (w :: nw).
      split; [by rewrite <- app_assoc |].
      constructor; [by left |].
      eapply Forall_impl; [exact Hnw |]. intros x Hx. by right.
Qed.

Lemma known_grows (all nw : list VocabWord) (w : VocabWord) :
  knw all w = true -> knw (all ++ nw) w = true.
Proof.
  rewrite !known_spec, map_app, elem_of_app. tauto.
Qed.

Lemma merge_covers (all r : list VocabWord) :
  Forall (fun w => knw (mrg all r) w = true) r.
Proof.
  revert all. induction r as [| w r IH]; intros all; [constructor |].
  rewrite merge_cons. constructor; [| apply IH].
  destruct (merge_grows (if knw all w then all else all ++ [w]) r) as (nw & -> & _).
  apply known_grows. destruct (knw all w) eqn:Hk; [exact Hk |].
  apply known_spec. rewrite map_app, elem_of_app. right. apply list_elem_of_here.
Qed.


Lemma acc_from (n : nat) :
  Forall (fun w => exists i, (1 <= i <= n)%nat /\ w ∈ extract i) (acc n).
Proof.
  induction n as [| n IH]; [constructor |]. cbn [accumulated].
  destruct (merge_grows (acc n) (extract (S n))) as (nw & -> & Hnw).
  apply Forall_app. split.
  - eapply Forall_impl; [exact IH |]. intros w (i & Hi & Hw). exists i. split; [lia | done].
  - eapply Forall_impl; [exact Hnw |]. intros w Hw. exists (S n). split; [lia | done].
Qed.

Lemma acc_covers (n i : nat) :
  (1 <= i <= n)%nat -> Forall (fun w => knw (acc n) w = true) (extract i).
Proof.
  induction n as [| n IH]; intros Hi; [lia |]. cbn [accumulated].
  destruct (decide (i = S n)) as [-> | Hne]; [apply merge_covers |].
  destruct (merge_grows (acc n) (extract (S n))) as (nw & -> & _).
  eapply Forall_impl; [apply IH; lia |]. intros w Hw. by apply known_grows.
Qed.


(** The list the loop leaves holds the answers it received and nothing
    else: every word of it is an item of one of the [n] answers, and
    every item of each of the [n] answers is in the list, itself or in
    another spelling that was answered before it. *)
Theorem extraction_loop_covers :
  exists all n,
    handleProcess_extract toLowerCase extract = Some (all, n)
    /\ Forall (fun w => exists i, (1 <= i <= n)%nat /\ w ∈ extract i) all
    /\ Forall (fun i => Forall (fun w => knw all w = true) (extract i)) (List.seq 1 n).
Proof.
  destruct (FactorySpec.extraction_loop_calls toLowerCase extract) as (n & Hrun & _).
  exists (acc n), n. split; [exact Hrun |]. split; [apply acc_from |].
  apply Forall_forall. intros i Hi. apply list_elem_of_In, in_seq in Hi.
  apply acc_covers. lia.
Qed.

End Accumulation.

End AccumulationSpec.

(* ===================================================================== *)
(** * The store and what a restart reads back *)
(* ===================================================================== *)

Module StoreSpec.
Import Store JsonSpec.


Section Ops.
Variable toLowerCase : jsstring -> jsstring.










Lemma key_ne (a b : jsstring) : JsString.eqb a b = false -> a <> b.
Proof. unfold JsString.eqb. by intros H%bool_decide_eq_false. Qed.




(** *** What [loadData] reads from a storage that holds the data *)

Lemma stringify_obj_truthy (ms : list (jsstring * value)) :
  truthy (JSON.stringify (JObj ms)) = true.
Proof. by rewrite stringify_obj. Qed.









End Ops.


(** The keys [loadData] reads. *)
Definition loaded_keys : list jsstring :=
  [STATS_KEY; WORDS_KEY; SOURCES_KEY; SONGS_KEY; BLACKLIST_KEY; SETTINGS_KEY;
   WRONG_ANSWERS_KEY].

Lemma parse_or_corrupted (data : jsstring) (e : JsError) (fallback : value) :
  data <> [] -> JSON.parse data = Thrown e ->
  parse_or (Some data) fallback = Thrown e.
Proof.
  intros Hne Hbad. unfold parse_or. cbn [truthy_opt].
  rewrite (AiClientSpec.truthy_nonempty _ Hne). exact Hbad.
Qed.

(** One text that does not parse spoils the whole load: when the text
    under any one of the seven keys is not JSON, [loadData] puts nothing
    into the store, whatever the other six keys hold; it only turns
    [isLoading] off, returns, and leaves the storage as it is. *)
Theorem loadData_corrupted (st : Loaded) (store : AsyncStorage) (key data : jsstring)
    (e : JsError) :
  key ∈ loaded_keys -> store !! key = Some data -> data <> [] ->
  JSON.parse data = Thrown e ->
  loadData st store = (Returned (set_isLoading false st), store).
Proof.
  intros Hkey Hdata Hne Hbad.
  pose proof (fun fb => parse_or_corrupted data e fb Hne Hbad) as Hor.
  cbv beta iota zeta delta [loadData try_catch bind AsyncStorage_getItem lift ret].
  destruct (parse_or (store !! STATS_KEY) _) as [v1 | e1] eqn:E1; [| reflexivity].
  destruct (parse_or (store !! WORDS_KEY) _) as [v2 | e2] eqn:E2; [| reflexivity].
  destruct (parse_or (store !! SOURCES_KEY) _) as [v3 | e3] eqn:E3; [| reflexivity].
  destruct (parse_or (store !! SONGS_KEY) _) as [v4 | e4] eqn:E4; [| reflexivity].
  destruct (parse_or (store !! BLACKLIST_KEY) _) as [v5 | e5] eqn:E5; [| reflexivity].
  destruct (parse_or (store !! WRONG_ANSWERS_KEY) _) as [v6 | e6] eqn:E6;
    [| reflexivity].
  destruct (truthy_opt (store !! SETTINGS_KEY)) eqn:E7;
    [match goal with
     | |- context [JSON.parse ?x] => destruct (JSON.parse x) as [v7 | e7] eqn:E8
     end; [| reflexivity] |];
    exfalso; unfold loaded_keys in Hkey;
    repeat (apply elem_of_cons in Hkey as [-> | Hkey]);
    try (by apply elem_of_nil in Hkey);
    rewrite Hdata in *;
    first [ rewrite Hor in E1; discriminate E1 | rewrite Hor in E2; discriminate E2
          | rewrite Hor in E3; discriminate E3 | rewrite Hor in E4; discriminate E4
          | rewrite Hor in E5; discriminate E5 | rewrite Hor in E6; discriminate E6
          | idtac ].
  - cbn [default from_option] in E8. unfold id in E8. rewrite Hbad in E8.
    discriminate E8.
  - cbn [truthy_opt] in E7. by rewrite (AiClientSpec.truthy_nonempty _ Hne) in E7.
Qed.

(** Settings that were stored without some of the fields are completed
    from the defaults, field by field: when only a settings object is in
    storage, [loadData] gives every property the stored object has the
    stored value, whatever it is, and every other property of the
    defaults its default value. *)
Theorem loadData_settings_defaults (st : Loaded) (ms : list (jsstring * value))
    (k : jsstring) :
  storable (JObj ms) ->
  exists l,
    fst (loadData st (<[SETTINGS_KEY := JSON.stringify (JObj ms)]> ∅)) = Returned l
    /\ l_settings l !! k
       = match (list_to_map ms : gmap jsstring value) !! k with
         | Some v => Some v
         | None =>
             (list_to_map (UserSettings_members DEFAULT_SETTINGS)
              : gmap jsstring value) !! k
         end.
Proof.
  intros Hst.
  cbv beta iota zeta delta [loadData try_catch bind AsyncStorage_getItem lift ret].
  rewrite !lookup_insert_ne by (apply key_ne; vm_compute; reflexivity).
  rewrite lookup_insert_eq, !lookup_empty.
  cbn [parse_or truthy_opt]. rewrite stringify_obj_truthy.
  cbn [default from_option]. unfold id. rewrite (parse_stringify _ Hst).
  eexists. split; [reflexivity |]. cbn [l_settings own_properties].
  destruct ((list_to_map ms : gmap jsstring value) !! k) as [v |] eqn:Hk.
  - by apply lookup_union_Some_l.
  - by rewrite lookup_union_r.
Qed.

(** Settings saved before the OpenCode fields existed. *)
Definition old_settings : list (jsstring * value) :=
  [(js "apiProvider", JStr (js "nvidia")); (js "nvidiaApiKey", JStr (js "nvapi-1"))].

(** The model of OpenCode comes from the defaults. *)
Lemma loadData_settings_defaults_witness :
  exists l,
    fst (loadData (loaded_of initial)
           (<[SETTINGS_KEY := JSON.stringify (JObj old_settings)]> ∅))
    = Returned l
    /\ l_settings l !! js "opencodeModel" = Some (JStr (js "big-pickle")).
Proof.
  assert (Hst : storable (JObj old_settings)).
  { apply storable_obj. split; [| repeat constructor].
    apply (bool_decide_unpack _). vm_compute. reflexivity. }
  destruct (loadData_settings_defaults (loaded_of initial) old_settings
              (js "opencodeModel") Hst) as (l & Hrun & Hk).
  exists l. split; [exact Hrun |]. rewrite Hk. vm_compute. reflexivity.
Defined.

(** A storage in which the words are not JSON and the settings are. *)
Definition spoiled : AsyncStorage :=
  <[WORDS_KEY := js "[{oops"]>
    (<[SETTINGS_KEY := JSON.stringify (UserSettings_value DEFAULT_SETTINGS)]> ∅).

(** With the spoiled words the stored settings are not loaded either. *)
Lemma loadData_corrupted_witness :
  WORDS_KEY ∈ loaded_keys /\ spoiled !! WORDS_KEY = Some (js "[{oops")
  /\ js "[{oops" <> [] /\ JSON.parse (js "[{oops") = Thrown SyntaxError
  /\ loadData (loaded_of initial) spoiled
     = (Returned (set_isLoading false (loaded_of initial)), spoiled).
Proof.
  assert (H1 : WORDS_KEY ∈ loaded_keys) by (right; left).
  assert (H2 : spoiled !! WORDS_KEY = Some (js "[{oops")) by apply lookup_insert_eq.
  assert (H3 : js "[{oops" <> []) by discriminate.
  assert (H4 : JSON.parse (js "[{oops") = Thrown SyntaxError)
    by (vm_compute; reflexivity).
  split; [exact H1 |]. split; [exact H2 |]. split; [exact H3 |]. split; [exact H4 |].
  exact (loadData_corrupted (loaded_of initial) spoiled WORDS_KEY (js "[{oops")
           SyntaxError H1 H2 H3 H4).
Defined.

End StoreSpec.

(* ===================================================================== *)
(** * A practice session of the word list screen *)
(* ===================================================================== *)

Module SessionSpec.
Import TreasuryScreen.

Section Session.
Variable toLowerCase : jsstring -> jsstring.
Variable evaluateTranslation :
  jsstring -> jsstring -> jsstring -> UserSettings -> Exc PracticeResult.
Variable evaluateAnswer :
  jsstring -> jsstring -> jsstring -> jsstring -> jsstring -> UserSettings
  -> Exc PracticeResult.
Variable settings : UserSettings.
Variable now_id now_createdAt : Z.
Variable random : jsstring.
Variable generateTranslateQuestion : jsstring -> jsstring -> UserSettings -> TranslateQuestion.
Variable generatePracticeSentence :
  jsstring -> jsstring -> list jsstring -> UserSettings -> PracticeSentence.
Variable shuffle : list Word -> list Word.

Local Abbreviation submit :=
  (submitPracticeAnswer toLowerCase evaluateTranslation evaluateAnswer settings
     now_id now_createdAt random).
Local Abbreviation next :=
  (nextPractice generateTranslateQuestion generatePracticeSentence settings).
Local Abbreviation start :=
  (startPractice generateTranslateQuestion generatePracticeSentence settings shuffle).

Ltac run :=
  cbv beta iota zeta delta
    [bind modify finally try_catch lift ret throw currentWord_get unawaited
     submit_try submit_catch loadTranslateQuestion loadPracticeSentence].

(** Case analysis on the tests of a submission, as they come up. *)
Ltac pick :=
  match goal with
  | |- context [evaluateTranslation ?a ?b ?c ?d] =>
      destruct (evaluateTranslation a b c d) as [? | ?]
  | |- context [evaluateAnswer ?a ?b ?c ?d ?e ?f] =>
      destruct (evaluateAnswer a b c d e f) as [? | ?]
  | |- context [isCorrect ?r || num_geb (score ?r) (Num 70)] =>
      destruct (isCorrect r || num_geb (score r) (Num 70))
  | |- context [JsString.eqb ?a ?b] => destruct (JsString.eqb a b)
  end.

Ltac project :=
  cbn [fst snd practiceMode practiceWords practiceIndex practiceSentence
       translateQuestion userAnswer isEvaluating practiceResult practiceScore
       wrongAnswers setPracticeResult setPracticeScore setIsEvaluating addWrongAnswer
       setPracticeMode setPracticeWords setPracticeIndex setPracticeSentence
       setTranslateQuestion setUserAnswer resetPracticeResult].

(** What a submission may change: the result, the flag, and either the
    score by one point or the log by at most one entry. *)
Definition submitted (st st' : State) : Prop :=
  practiceMode st' = practiceMode st
  /\ practiceWords st' = practiceWords st
  /\ practiceIndex st' = practiceIndex st
  /\ practiceSentence st' = practiceSentence st
  /\ translateQuestion st' = translateQuestion st
  /\ userAnswer st' = userAnswer st
  /\ isEvaluating st' = submit_refused st && isEvaluating st
  /\ ((practiceScore st' = practiceScore st
       /\ exists l, wrongAnswers st' = wrongAnswers st ++ l /\ (length l <= 1)%nat)
      \/ (practiceScore st' = (practiceScore st + 1)%Z
          /\ wrongAnswers st' = wrongAnswers st)).

(** A submission keeps the practice list and the index. *)
Lemma submit_keeps_words (st : State) :
  practiceWords (snd (submit st)) = practiceWords st
  /\ practiceIndex (snd (submit st)) = practiceIndex st.
Proof.
  unfold submitPracticeAnswer.
  destruct (submit_refused st); [done |].
  unfold submit_try, submit_catch.
  destruct (practiceWords st !! practiceIndex st) as [w |];
    destruct (if is_translate (practiceMode st) then translateQuestion st else None)
      as [q |];
    destruct (is_fill (practiceMode st));
    destruct (practiceSentence st) as [ps |];
    run; repeat (pick; run); project; by split.
Qed.

(** A submission never does both and never undoes anything: whatever
    the mode, the evaluator's answer or failure, and whether the current
    word exists, the handler leaves the words, the index, the question
    and the typed answer as they are, turns [isEvaluating] off unless it
    refused the submission, and either adds one point and logs nothing,
    or adds no point and appends at most one wrong answer to the log. *)
Theorem submitPracticeAnswer_frame (st : State) : submitted st (snd (submit st)).
Proof.
  unfold submitted, submitPracticeAnswer.
  destruct (submit_refused st) eqn:Hguard.
  { cbn [snd andb]. repeat split. left. split; [done |]. exists [].
    split; [by rewrite app_nil_r | cbn; lia]. }
  unfold submit_try, submit_catch.
  destruct (practiceWords st !! practiceIndex st) as [w |];
    destruct (if is_translate (practiceMode st) then translateQuestion st else None)
      as [q |];
    destruct (is_fill (practiceMode st));
    destruct (practiceSentence st) as [ps |] eqn:Hps;
    run; repeat (pick; run); project; rewrite ?Hps; repeat split;
    first [ right; split; reflexivity
          | left; split; [reflexivity |]; eexists [_]; split; [reflexivity | cbn; lia]
          | left; split; [reflexivity |]; exists []; split;
            [by rewrite app_nil_r | cbn; lia] ].
Qed.

(** With a current word the handler returns: the only throw that leaves
    it is the read of a property of a missing current word. *)
Lemma submit_returns (st : State) :
  (practiceIndex st < length (practiceWords st))%nat ->
  exists st', submit st = (Returned tt, st').
Proof.
  intros Hin. apply lookup_lt_is_Some_2 in Hin as [w Hw].
  unfold submitPracticeAnswer. rewrite Hw.
  destruct (submit_refused st); [by eexists |].
  unfold submit_try, submit_catch.
  destruct (if is_translate (practiceMode st) then translateQuestion st else None)
    as [q |];
    destruct (is_fill (practiceMode st));
    destruct (practiceSentence st) as [ps |];
    run; repeat (pick; run); by eexists.
Qed.

Local Abbreviation result_of :=
  (evaluation_result toLowerCase evaluateTranslation evaluateAnswer settings).

(** The answer typed and the word asked for are the same up to case. *)
Definition same_word (st : State) (w : Word) : bool :=
  JsString.eqb (toLowerCase (trim (userAnswer st))) (toLowerCase (word_word w)).

(** When the evaluator of the mode throws, the answer is compared with
    the word itself: equal up to case it gives a point, and otherwise it
    is shown as wrong but no wrong answer is logged, unlike an answer
    the evaluator scored below 70. *)
Theorem submitPracticeAnswer_evaluator_fails (st : State) (w : Word) (e : JsError) :
  submit_refused st = false ->
  practiceWords st !! practiceIndex st = Some w ->
  result_of st w = Thrown e ->
  exists st',
    submit st = (Returned tt, st')
    /\ practiceResult st'
       = Some (mkPracticeResult (same_word st w)
                 (if same_word st w then Num 100 else Num 0)
                 (if same_word st w then js "Correct!" else js "Wrong"))
    /\ practiceScore st' = (practiceScore st + (if same_word st w then 1 else 0))%Z
    /\ wrongAnswers st' = wrongAnswers st
    /\ isEvaluating st' = false.
Proof.
  intros Hguard Hw Hr.
  unfold submitPracticeAnswer. rewrite Hguard, Hw.
  unfold evaluation_result in Hr. unfold submit_try, submit_catch, same_word.
  destruct (if is_translate (practiceMode st) then translateQuestion st else None)
    as [question |] eqn:Hq.
  - run. rewrite Hr. destruct (JsString.eqb _ _);
      (eexists; split; [reflexivity |]); project; repeat split; lia.
  - destruct (is_fill (practiceMode st)) eqn:Hfill; [| discriminate Hr].
    destruct (practiceSentence st) as [ps |] eqn:Hps.
    + run. rewrite Hr. destruct (JsString.eqb _ _);
        (eexists; split; [reflexivity |]); project; repeat split; lia.
    + unfold submit_refused in Hguard. rewrite Hps in Hguard.
      rewrite bool_decide_eq_false_2 in Hguard by (intros [? ?]; discriminate).
      destruct (practiceMode st); try discriminate Hfill. discriminate Hguard.
Qed.

(** A submission that passes: the result is stored and the score has
    one point more. *)
Lemma submit_passes (st : State) (w : Word) (r : PracticeResult) :
  submit_refused st = false ->
  practiceWords st !! practiceIndex st = Some w ->
  result_of st w = Returned r ->
  isCorrect r || num_geb (score r) (Num 70) = true ->
  exists st',
    submit st = (Returned tt, st')
    /\ practiceResult st' = Some r
    /\ practiceScore st' = (practiceScore st + 1)%Z
    /\ practiceWords st' = practiceWords st
    /\ practiceIndex st' = practiceIndex st.
Proof.
  intros Hguard Hw Hr Hpass.
  unfold submitPracticeAnswer. rewrite Hguard, Hw.
  unfold evaluation_result in Hr. unfold submit_try, submit_catch.
  destruct (if is_translate (practiceMode st) then translateQuestion st else None)
    as [question |] eqn:Hq.
  - run. rewrite Hr, Hpass. eexists. split; [reflexivity |]. project. by repeat split.
  - destruct (is_fill (practiceMode st)) eqn:Hfill.
    + destruct (practiceSentence st) as [ps |] eqn:Hps; [| discriminate Hr].
      run. rewrite Hr, Hpass. eexists. split; [reflexivity |]. project.
      by repeat split.
    + run.
      apply (f_equal (fun e => match e with Returned x => x | Thrown _ => r end)) in Hr.
      cbv beta iota in Hr. rewrite <- Hr in Hpass. cbn [isCorrect score] in Hpass.
      destruct (JsString.eqb _ _) eqn:Hcmp; [| discriminate Hpass].
      eexists. split; [reflexivity |]. project. rewrite <- Hr. by repeat split.
Qed.

(** The completion alert counts a passed last answer twice: the point
    the submission added is in [practiceScore] when the alert is made,
    and the alert adds one more for a stored result that passed.  After
    a passing answer to the last word it reports the score before that
    answer plus two. *)
Theorem completion_counts_last_answer_twice (st : State) (w : Word)
    (r : PracticeResult) :
  submit_refused st = false ->
  practiceWords st !! practiceIndex st = Some w ->
  S (practiceIndex st) = length (practiceWords st) ->
  result_of st w = Returned r ->
  isCorrect r || num_geb (score r) (Num 70) = true ->
  exists st',
    submit st = (Returned tt, st')
    /\ next st'
       = (Returned (PracticeComplete (practiceScore st + 2) (length (practiceWords st))),
          st').
Proof.
  intros Hguard Hw Hlast Hr Hpass.
  destruct (submit_passes st w r Hguard Hw Hr Hpass)
    as (st' & Hrun & Hres & Hscore & Hwords & Hidx).
  exists st'. split; [exact Hrun |].
  unfold nextPractice. rewrite Hwords, Hidx.
  assert (Hend : (Z.of_nat (practiceIndex st)
                  <? Z.of_nat (length (practiceWords st)) - 1)%Z = false)
    by (apply Z.ltb_ge; lia).
  rewrite Hend. unfold completion_count. rewrite Hres, Hscore, Hpass.
  do 3 f_equal. lia.
Qed.

(** *** The handlers of a session, one after the other *)

Inductive Event : Type :=
| Typed (answer : jsstring)
| Submit
| Next.

Definition handle (ev : Event) : M State unit :=
  match ev with
  | Typed answer => modify (setUserAnswer answer)
  | Submit => submit
  | Next => (next ;;; ret tt)%M
  end.

Fixpoint handle_all (evs : list Event) : M State unit :=
  match evs with
  | [] => ret tt
  | ev :: evs' => (handle ev ;;; handle_all evs')%M
  end.

(** There is a current word. *)
Definition in_range (st : State) : Prop :=
  (practiceIndex st < length (practiceWords st))%nat.

Lemma next_in_range (st : State) :
  in_range st -> exists shown st', next st = (Returned shown, st') /\ in_range st'.
Proof.
  unfold in_range, nextPractice. intros Hin.
  destruct (Z.of_nat (practiceIndex st) <? Z.of_nat (length (practiceWords st)) - 1)%Z
    eqn:Hmore; [| by eexists _, _].
  apply Z.ltb_lt in Hmore.
  destruct (is_translate (practiceMode st));
    destruct (practiceWords st !! S (practiceIndex st)) as [w |];
    run; (eexists _, _; split; [reflexivity |]); project; lia.
Qed.

Lemma handle_in_range (ev : Event) (st : State) :
  in_range st -> exists st', handle ev st = (Returned tt, st') /\ in_range st'.
Proof.
  intros Hin. destruct ev as [answer | |]; cbn [handle].
  - eexists. split; [reflexivity |]. exact Hin.
  - destruct (submit_returns st Hin) as (st' & Hrun). exists st'. split; [exact Hrun |].
    pose proof (submit_keeps_words st) as Hframe. rewrite Hrun in Hframe.
    destruct Hframe as (Hwords & Hidx). cbn [snd] in *.
    unfold in_range. by rewrite Hwords, Hidx.
  - destruct (next_in_range st Hin) as (shown & st' & Hrun & Hin').
    exists st'. split; [| exact Hin']. unfold bind. by rewrite Hrun.
Qed.

Lemma handle_all_in_range (evs : list Event) (st : State) :
  in_range st -> exists st', handle_all evs st = (Returned tt, st') /\ in_range st'.
Proof.
  revert st. induction evs as [| ev evs IH]; intros st Hin; [by exists st |].
  destruct (handle_in_range ev st Hin) as (st1 & Hrun & Hin1).
  destruct (IH st1 Hin1) as (st2 & Hrun2 & Hin2).
  exists st2. split; [| exact Hin2]. cbn [handle_all]. unfold bind. by rewrite Hrun.
Qed.

Lemma start_in_range (words : list Word) (filterMode : FilterMode) (mode : PracticeMode)
    (st : State) :
  (forall l, length (shuffle l) = length l) ->
  (4 <= length (availableWords words filterMode))%nat ->
  exists st', start words filterMode mode st = (Returned Practising, st')
              /\ in_range st'.
Proof.
  intros Hshuffle Hfour. unfold startPractice.
  assert (Hlt : (length (availableWords words filterMode) <? 4)%nat = false)
    by (apply Nat.ltb_ge; lia).
  rewrite Hlt. unfold in_range.
  destruct (is_translate mode);
    destruct (shuffle (availableWords words filterMode) !! 0%nat) as [w |];
    run; (eexists; split; [reflexivity |]); project; rewrite Hshuffle; lia.
Qed.

(** In a session that was started, no handler fails: with at least four
    words to practise and a shuffle that keeps the length of the list,
    [startPractice] starts the session, and after it every sequence of
    typing, submitting and going to the next word returns, because the
    index stays inside the practice list and the current word
    exists. *)
Theorem session_handlers_return (words : list Word) (filterMode : FilterMode)
    (mode : PracticeMode) (st : State) (events : list Event) :
  (forall l, length (shuffle l) = length l) ->
  (4 <= length (availableWords words filterMode))%nat ->
  exists st1 st',
    start words filterMode mode st = (Returned Practising, st1)
    /\ handle_all events st1 = (Returned tt, st')
    /\ in_range st'.
Proof.
  intros Hshuffle Hfour.
  destruct (start_in_range words filterMode mode st Hshuffle Hfour) as (st1 & Hrun & Hin).
  destruct (handle_all_in_range events st1 Hin) as (st' & Hrun' & Hin').
  by exists st1, st'.
Qed.

End Session.

(** An evaluator that fails, generators that answer with the word, and
    four words to practise. *)
Definition failing
  : jsstring -> jsstring -> jsstring -> jsstring -> jsstring -> UserSettings
    -> Exc PracticeResult :=
  fun _ _ _ _ _ _ => Thrown TypeError.

Definition question_of (w meaning : jsstring) (s : UserSettings) : TranslateQuestion :=
  mkTranslateQuestion w meaning.

Definition sentence_of (w meaning : jsstring) (others : list jsstring) (s : UserSettings)
  : PracticeSentence :=
  mkPracticeSentence w meaning (w :: others).

Definition four_words : list Word :=
  [mkWord (js "w1") (js "serene") (js "") (js "") (js "") (js "B2") false 1;
   mkWord (js "w2") (js "ember") (js "") (js "") (js "") (js "B2") false 2;
   mkWord (js "w3") (js "wistful") (js "") (js "") (js "") (js "C1") true 3;
   mkWord (js "w4") (js "linger") (js "") (js "") (js "") (js "B2") false 4].

(** The evaluator fails on the answer [serine] for [serene]: the result
    says wrong, the score stays 2 and the log stays empty. *)
Lemma submitPracticeAnswer_evaluator_fails_witness :
  let st' := snd (submitPracticeAnswer toLowerCase_ascii TreasurySpec.no_translation
                    failing DEFAULT_SETTINGS 1700000000000 1700000000001 (js "0.5")
                    TreasurySpec.fill_state) in
  practiceScore st' = 2%Z /\ wrongAnswers st' = [] /\ isEvaluating st' = false.
Proof.
  assert (Hguard : submit_refused TreasurySpec.fill_state = false)
    by (vm_compute; reflexivity).
  assert (Hw : practiceWords TreasurySpec.fill_state
                 !! practiceIndex TreasurySpec.fill_state
               = Some TreasurySpec.practice_word) by reflexivity.
  assert (Hr : evaluation_result toLowerCase_ascii TreasurySpec.no_translation failing
                 DEFAULT_SETTINGS TreasurySpec.fill_state TreasurySpec.practice_word
               = Thrown TypeError) by reflexivity.
  destruct (submitPracticeAnswer_evaluator_fails toLowerCase_ascii
              TreasurySpec.no_translation failing DEFAULT_SETTINGS 1700000000000
              1700000000001 (js "0.5") TreasurySpec.fill_state
              TreasurySpec.practice_word TypeError Hguard Hw Hr)
    as (st' & Hrun & _ & Hscore & Hlog & Hflag).
  cbv zeta. rewrite Hrun. cbn [snd].
  assert (Hsame : same_word toLowerCase_ascii TreasurySpec.fill_state
                    TreasurySpec.practice_word = false) by (vm_compute; reflexivity).
  rewrite Hsame in Hscore. split; [exact Hscore |]. split; [exact Hlog | exact Hflag].
Defined.

(** One word, the running score 2, a last answer scored 85: the alert
    says 4 of 1. *)
Lemma completion_counts_last_answer_twice_witness :
  exists st',
    submitPracticeAnswer toLowerCase_ascii TreasurySpec.no_translation
      (TreasurySpec.scoring 85 true) DEFAULT_SETTINGS 1700000000000 1700000000001
      (js "0.5") TreasurySpec.fill_state
    = (Returned tt, st')
    /\ nextPractice question_of sentence_of DEFAULT_SETTINGS st'
       = (Returned (PracticeComplete 4 1), st').
Proof.
  assert (Hguard : submit_refused TreasurySpec.fill_state = false)
    by (vm_compute; reflexivity).
  assert (Hw : practiceWords TreasurySpec.fill_state
                 !! practiceIndex TreasurySpec.fill_state
               = Some TreasurySpec.practice_word) by reflexivity.
  assert (Hlast : S (practiceIndex TreasurySpec.fill_state)
                  = length (practiceWords TreasurySpec.fill_state)) by reflexivity.
  assert (Hr : evaluation_result toLowerCase_ascii TreasurySpec.no_translation
                 (TreasurySpec.scoring 85 true) DEFAULT_SETTINGS TreasurySpec.fill_state
                 TreasurySpec.practice_word
               = Returned (mkPracticeResult true (Num 85) (js "ok"))) by reflexivity.
  assert (Hpass : isCorrect (mkPracticeResult true (Num 85) (js "ok"))
                  || num_geb (score (mkPracticeResult true (Num 85) (js "ok"))) (Num 70)
                  = true) by reflexivity.
  exact (completion_counts_last_answer_twice toLowerCase_ascii
           TreasurySpec.no_translation (TreasurySpec.scoring 85 true) DEFAULT_SETTINGS
           1700000000000 1700000000001 (js "0.5") question_of sentence_of
           TreasurySpec.fill_state TreasurySpec.practice_word
           (mkPracticeResult true (Num 85) (js "ok")) Hguard Hw Hlast Hr Hpass).
Defined.

(** A session over the four words, shuffled by reversal: an answer is
    typed and submitted, and the next word is asked for, five times. *)
Lemma session_handlers_return_witness :
  (forall l : list Word, length (rev l) = length l)
  /\ (4 <= length (availableWords four_words Fall))%nat
  /\ exists st1 st',
       startPractice question_of sentence_of DEFAULT_SETTINGS (@rev Word) four_words Fall
         Mfill TreasurySpec.fill_state
       = (Returned Practising, st1)
       /\ handle_all toLowerCase_ascii TreasurySpec.no_translation failing
            DEFAULT_SETTINGS 1700000000000 1700000000001 (js "0.5") question_of
            sentence_of
            (concat (replicate 5 [Typed (js "ember"); Submit; Next])) st1
          = (Returned tt, st')
       /\ in_range st'.
Proof.
  assert (H1 : forall l : list Word, length (rev l) = length l)
    by (intros l; apply length_rev).
  assert (H2 : (4 <= length (availableWords four_words Fall))%nat) by (cbn; lia).
  split; [exact H1 |]. split; [exact H2 |].
  exact (session_handlers_return toLowerCase_ascii TreasurySpec.no_translation failing
           DEFAULT_SETTINGS 1700000000000 1700000000001 (js "0.5") question_of
           sentence_of (@rev Word) four_words Fall Mfill TreasurySpec.fill_state
           (concat (replicate 5 [Typed (js "ember"); Submit; Next])) H1 H2).
Defined.

End SessionSpec.

(* ===================================================================== *)
(** * The deletion of words from the word list *)
(* ===================================================================== *)

Module DeletionSpec.
Import HistoryScreen TreasuryScreen SongListSpec.

(** The collections a batch deletion computes. *)
Definition without (selectedWords : list jsstring) (st : Collections) : Collections :=
  mkCollections (songs st)
    (filter (fun s => source_wordId s ∉ selectedWords) (sources st))
    (filter (fun w => word_id w ∉ selectedWords) (words st)).

Lemma handleBatchDelete_run (selectedWords : list jsstring) (st : Collections)
    (store : AsyncStorage) :
  selectedWords <> [] ->
  handleBatchDelete selectedWords st store
  = (Returned (without selectedWords st, []),
     <[StorageService.SOURCES_KEY :=
         JSON.stringify (JArr (map Source_value (sources (without selectedWords st))))]>
       (<[StorageService.WORDS_KEY :=
            JSON.stringify (JArr (map Word_value (words (without selectedWords st))))]>
          store)).
Proof. intros Hne. unfold handleBatchDelete. by destruct selectedWords. Qed.

Lemma without_dangling (selectedWords : list jsstring) (st : Collections) :
  dangling (without selectedWords st)
  = filter (fun s => source_wordId s ∉ selectedWords) (dangling st).
Proof.
  unfold dangling, without. cbn [sources words]. rewrite !list_filter_filter.
  apply filter_ext_in. intros s _. split.
  - intros [Hno Hs]. split; [exact Hs |]. intros Hin. apply Hno.
    apply list_elem_of_fmap in Hin as (w & Hid & Hw).
    apply list_elem_of_fmap. exists w. split; [exact Hid |].
    apply list_elem_of_filter. split; [by rewrite <- Hid | exact Hw].
  - intros [Hs Hno]. split; [| exact Hs]. intros Hin. apply Hno.
    apply list_elem_of_fmap in Hin as (w & Hid & Hw).
    apply list_elem_of_fmap. exists w. split; [exact Hid |].
    by apply list_elem_of_filter in Hw as [_ Hw].
Qed.

(** A batch deletion takes the sources with the words: no source of a
    selected word is left, and no source is left without its word that
    had it before; the songs stay, also a song that keeps no word.  With
    an empty selection nothing is changed or written.  Deleting one word
    from its dialog is the batch deletion of that word. *)
Theorem handleBatchDelete_takes_sources (selectedWords : list jsstring)
    (st : Collections) (store : AsyncStorage) (selectedWord : Word) :
  (exists st' selection' store',
      handleBatchDelete selectedWords st store = (Returned (st', selection'), store')
      /\ songs st' = songs st
      /\ Forall (fun s => source_wordId s ∉ selectedWords) (sources st')
      /\ Forall (fun w => word_id w ∉ selectedWords) (words st')
      /\ dangling st'
         = filter (fun s => source_wordId s ∉ selectedWords) (dangling st)
      /\ match selectedWords with
         | [] => st' = st /\ store' = store
         | _ :: _ => selection' = []
         end)
  /\ handleDeleteWord (Some selectedWord) st store
     = (Returned (without [word_id selectedWord] st),
        snd (handleBatchDelete [word_id selectedWord] st store)).
Proof.
  split.
  - destruct selectedWords as [| id ids].
    + exists st, [], store. split; [reflexivity |]. split; [done |].
      split; [apply Forall_forall; intros s _; apply not_elem_of_nil |].
      split; [apply Forall_forall; intros s _; apply not_elem_of_nil |].
      split; [| done]. symmetry. apply filter_all.
      apply Forall_forall. intros s _. apply not_elem_of_nil.
    + eexists _, _, _.
      split; [by apply handleBatchDelete_run |].
      split; [done |]. split; [apply filter_holds |]. split; [apply filter_holds |].
      split; [apply without_dangling | done].
  - rewrite handleBatchDelete_run by done. cbn [snd].
    unfold handleDeleteWord, without. cbn [sources words].
    assert (Hw : filter (fun w => word_id w <> word_id selectedWord) (words st)
                 = filter (fun w => word_id w ∉ [word_id selectedWord]) (words st)).
    { apply filter_ext_in. intros w _. by rewrite list_elem_of_singleton. }
    assert (Hs : filter (fun s => source_wordId s <> word_id selectedWord) (sources st)
                 = filter (fun s => source_wordId s ∉ [word_id selectedWord])
                     (sources st)).
    { apply filter_ext_in. intros s _. by rewrite list_elem_of_singleton. }
    rewrite Hw, Hs. reflexivity.
Qed.

End DeletionSpec.

(* ===================================================================== *)
(** * The practice of the wrong answers *)
(* ===================================================================== *)

Module ReviewSpec.
Import ReviewScreen.

Section Practice.
Variable toLowerCase : jsstring -> jsstring.
Variable evaluateTranslation :
  jsstring -> jsstring -> UserSettings -> Exc TreasuryScreen.PracticeResult.
Variable evaluateAnswer :
  jsstring -> jsstring -> jsstring -> jsstring -> jsstring -> UserSettings
  -> Exc TreasuryScreen.PracticeResult.

Local Abbreviation submit :=
  (handleSubmitAnswer toLowerCase evaluateTranslation evaluateAnswer).

Ltac run :=
  cbv beta iota zeta delta
    [bind modify finally try_catch lift ret throw component in_store
     TreasuryScreen.unawaited submit_try submit_catch Store.get Store.set Store.storage
     Store.removeWrongAnswer AsyncStorage_setItem fst snd].

Ltac pick :=
  match goal with
  | |- context [evaluateTranslation ?a ?b ?c] =>
      destruct (evaluateTranslation a b c) as [? | ?]
  | |- context [evaluateAnswer ?a ?b ?c ?d ?e ?f] =>
      destruct (evaluateAnswer a b c d e f) as [? | ?]
  | |- context [TreasuryScreen.isCorrect ?r || num_geb (TreasuryScreen.score ?r) (Num 70)] =>
      destruct (TreasuryScreen.isCorrect r || num_geb (TreasuryScreen.score r) (Num 70))
  | |- context [JsString.eqb ?a ?b] => destruct (JsString.eqb a b)
  end.

(** A submission in the review never throws and never adds to the log
    of wrong answers.  It leaves the practice list and the index as they
    are, and either gives no point and leaves the store and its storage
    untouched, or gives one point and removes from the log the entries
    with the id of the practised item, writing the shortened log to
    storage; a failure of the evaluator is answered by comparing the
    answer with the recorded correct answer. *)
Theorem handleSubmitAnswer_log (s : Screen) :
  exists s',
    submit s = (Returned tt, s')
    /\ practiceAnswers (fst s') = practiceAnswers (fst s)
    /\ currentIndex (fst s') = currentIndex (fst s)
    /\ ((score (fst s') = score (fst s) /\ snd s' = snd s)
        \/ exists item,
             practiceAnswers (fst s) !! currentIndex (fst s) = Some item
             /\ score (fst s') = (score (fst s) + 1)%Z
             /\ Store.wrongAnswers (fst (snd s'))
                = filter (fun a => wa_id a <> wa_id item)
                    (Store.wrongAnswers (fst (snd s)))
             /\ snd (snd s') !! Store.WRONG_ANSWERS_KEY
                = Some (JSON.stringify
                          (JArr (map Store.WrongAnswer_value
                                   (Store.wrongAnswers (fst (snd s'))))))).
Proof.
  destruct s as [st [app store]]. unfold handleSubmitAnswer. cbn [fst snd].
  destruct (practiceAnswers st !! currentIndex st) as [item |] eqn:Hitem.
  2: { eexists. split; [reflexivity |]. cbn [fst snd]. repeat split. by left. }
  destruct (negb (truthy (trim (userAnswer st)))).
  { eexists. split; [reflexivity |]. cbn [fst snd]. repeat split. by left. }
  destruct (is_translate (wa_errorType item)) eqn:Hkind;
    run; rewrite ?Hkind; repeat (pick; run);
    (eexists; split; [reflexivity |]);
    cbn [fst snd practiceAnswers currentIndex score setIsEvaluating setResult setScore
         Store.wrongAnswers Store.set_wrongAnswers];
    (split; [reflexivity |]); (split; [reflexivity |]);
    first [ by left
          | right; exists item; split; [reflexivity |]; split; [reflexivity |];
            split; [reflexivity |]; apply lookup_insert_eq ].
Qed.

End Practice.

End ReviewSpec.

(* ===================================================================== *)
(** * The options of a practice question *)
(* ===================================================================== *)

Module QuestionSpec.
Import PracticeQuestion.

Section Generate.
Variable net : Network.
Variable toLowerCase : jsstring -> jsstring.
Variable practicePrompt : jsstring -> jsstring -> jsstring.
Variable shuffle_others : list jsstring -> list jsstring.
Variable shuffle_options : list jsstring -> list jsstring.

Local Abbreviation generate :=
  (generatePracticeSentence net toLowerCase practicePrompt shuffle_others shuffle_options).





End Generate.


End QuestionSpec.

(* ===================================================================== *)
(** * Marking a word as mastered and back *)
(* ===================================================================== *)

Module WordListSpec.
Import WordList.

(** The word list after a toggle of the word with the id [wordId]. *)
Definition toggled (wordId : jsstring) (ws : list Word) : list Word :=
  match find (fun w => bool_decide (word_id w = wordId)) ws with
  | Some word =>
      map (fun w => if bool_decide (word_id w = wordId)
                    then Store.Word_with w (mastered_update (negb (word_isMastered word)))
                    else w) ws
  | None => ws
  end.

Lemma toggleMasteredForWord_run (wordId : jsstring) (st : Store.AppState)
    (store : AsyncStorage) :
  toggleMasteredForWord wordId (st, store)
  = (Returned tt,
     match find (fun w => bool_decide (word_id w = wordId)) (Store.words st) with
     | Some _ =>
         (Store.set_words (toggled wordId (Store.words st)) st,
          <[Store.WORDS_KEY :=
              JSON.stringify (JArr (map Word_value (toggled wordId (Store.words st))))]>
            store)
     | None => (st, store)
     end).
Proof.
  unfold toggleMasteredForWord, toggled, bind, Store.get. cbn [fst snd].
  by destruct (find _ (Store.words st)).
Qed.

Lemma untouched (wordId : jsstring) (f : Word -> Word) (ws : list Word) :
  wordId ∉ map word_id ws ->
  map (fun w => if bool_decide (word_id w = wordId) then f w else w) ws = ws.
Proof.
  induction ws as [| x ws IH]; [done |]. cbn [map]. intros Hno.
  apply not_elem_of_cons in Hno as [Hx Hno].
  rewrite bool_decide_eq_false_2 by congruence. by rewrite IH.
Qed.

Lemma find_absent (wordId : jsstring) (ws : list Word) :
  wordId ∉ map word_id ws ->
  find (fun w => bool_decide (word_id w = wordId)) ws = None.
Proof.
  induction ws as [| x ws IH]; [done |]. cbn [map find]. intros Hno.
  apply not_elem_of_cons in Hno as [Hx Hno].
  rewrite bool_decide_eq_false_2 by congruence. by apply IH.
Qed.

Lemma toggled_cons_other (wordId : jsstring) (x : Word) (ws : list Word) :
  word_id x <> wordId -> toggled wordId (x :: ws) = x :: toggled wordId ws.
Proof.
  intros Hne. unfold toggled. cbn [find]. rewrite bool_decide_eq_false_2 by done.
  destruct (find _ ws); [| done]. cbn [map]. by rewrite bool_decide_eq_false_2.
Qed.

(** With distinct ids a second toggle undoes the first. *)
Lemma toggled_twice (wordId : jsstring) (ws : list Word) :
  NoDup (map word_id ws) -> toggled wordId (toggled wordId ws) = ws.
Proof.
  induction ws as [| x ws IH]; [done |]. cbn [map]. intros Hnd.
  apply NoDup_cons in Hnd as [Hx Hnd].
  destruct (decide (word_id x = wordId)) as [Hid | Hid].
  - subst wordId. unfold toggled. cbn [find map].
    rewrite !bool_decide_eq_true_2 by done.
    rewrite (untouched _ _ ws Hx). cbn [find map Store.Word_with mastered_update
      default from_option word_id].
    rewrite !bool_decide_eq_true_2 by done.
    rewrite (untouched _ _ ws Hx). f_equal. destruct x as [i w m e ez l b c].
    unfold Store.Word_with, mastered_update.
    cbn [Store.u_id Store.u_word Store.u_meaning Store.u_example Store.u_exampleZh
         Store.u_level Store.u_isMastered Store.u_createdAt default from_option
         word_id word_word word_meaning word_example word_exampleZh word_level
         word_isMastered word_createdAt].
    unfold id. by rewrite negb_involutive.
  - rewrite !toggled_cons_other by done. by rewrite IH.
Qed.

(** Marking a word as mastered and marking it again restores the word
    list: when the ids of the words are distinct, two calls of
    [toggleMasteredForWord] with the same id return and leave the words
    of the store as they were, and when a word has that id the text in
    storage is the text of those words. *)
Theorem toggleMasteredForWord_twice (wordId : jsstring) (s : Store.St) :
  NoDup (map word_id (Store.words (fst s))) ->
  exists s1 s2,
    toggleMasteredForWord wordId s = (Returned tt, s1)
    /\ toggleMasteredForWord wordId s1 = (Returned tt, s2)
    /\ Store.words (fst s2) = Store.words (fst s)
    /\ match find (fun w => bool_decide (word_id w = wordId)) (Store.words (fst s)) with
       | Some _ =>
           snd s2 !! Store.WORDS_KEY
           = Some (JSON.stringify (JArr (map Word_value (Store.words (fst s)))))
       | None => s2 = s
       end.
Proof.
  destruct s as [st store]. cbn [fst snd]. intros Hnd.
  pose proof (toggled_twice wordId (Store.words st) Hnd) as Htwice.
  rewrite toggleMasteredForWord_run.
  destruct (find _ (Store.words st)) as [w |] eqn:Hfind.
  - eexists _, _. split; [reflexivity |].
    rewrite toggleMasteredForWord_run. cbn [Store.words Store.set_words].
    destruct (find _ (toggled wordId (Store.words st))) as [w' |] eqn:Hfind'.
    + split; [reflexivity |]. cbn [fst snd Store.words Store.set_words].
      rewrite Htwice. split; [reflexivity | apply lookup_insert_eq].
    + exfalso. unfold toggled in Hfind'. rewrite Hfind in Hfind'.
      apply find_some in Hfind as [Hin Hid].
      assert (Hno : bool_decide
                      (word_id (Store.Word_with w
                                  (mastered_update (negb (word_isMastered w))))
                       = wordId) = false).
      { apply (find_none _ _ Hfind'). apply in_map_iff. exists w.
        split; [by rewrite Hid | exact Hin]. }
      cbn in Hno. congruence.
  - exists (st, store), (st, store). split; [reflexivity |].
    rewrite toggleMasteredForWord_run, Hfind. by repeat split.
Qed.

(** Two words; the second is marked and unmarked. *)
Lemma toggleMasteredForWord_twice_witness :
  let s : Store.St := (Store.set_words StorageSpec.two_words Store.initial, ∅) in
  NoDup (map word_id (Store.words (fst s)))
  /\ exists s1 s2,
       toggleMasteredForWord (js "w2") s = (Returned tt, s1)
       /\ toggleMasteredForWord (js "w2") s1 = (Returned tt, s2)
       /\ Store.words (fst s2) = StorageSpec.two_words.
Proof.
  cbv zeta.
  assert (Hnd : NoDup (map word_id
                         (Store.words
                            (fst (Store.set_words StorageSpec.two_words Store.initial,
                                  (∅ : AsyncStorage)))))).
  { apply (bool_decide_unpack _). vm_compute. reflexivity. }
  split; [exact Hnd |].
  destruct (toggleMasteredForWord_twice (js "w2")
              (Store.set_words StorageSpec.two_words Store.initial, ∅) Hnd)
    as (s1 & s2 & Hrun1 & Hrun2 & Hwords & _).
  exists s1, s2. split; [exact Hrun1 |]. split; [exact Hrun2 | exact Hwords].
Defined.

End WordListSpec.
